(** * script.js: the interactive ASCII background and the widgets of the page

    A shallow embedding of [script.js].  The first and largest part is the
    first IIFE, the animation engine of the canvas (the grid, the per-cell
    state machine, the dirty set, the frame scheduler, the colour helpers
    and the debounced rebuild), followed by the title glitch, the project
    carousels and the rotating subtitle, each in a module of its own; then
    come the properties.

    Conventions of the embedding.
    - JavaScript numbers that hold integers (grid indices, keys, counters,
      colour channels) are [Z]; timestamps, pointer coordinates and the
      values of [Math.random()] are exact rationals [Q], so the arithmetic
      on them is the exact one that the doubles of JavaScript approximate.
      Integer arithmetic on doubles is exact up to [2^53]; [keyDouble] is
      the key as the doubles compute it, and the properties of keys are
      stated where the two agree.  A property of a rational that a rounding
      error of the doubles could break (a value at a bucket edge, or within
      an error of a rounding threshold) is stated with that much slack.
    - [Math.random()] is an oracle [random : nat -> Q]; the world counts the
      calls made so far in [draws], so the i-th call returns [random i].
    - The module-level [let] variables are the fields of [World]; every
      handler is a function on worlds.  Reading a property of [undefined]
      throws a [TypeError] in JavaScript: handlers that index the grid
      return [option World], [None] being the thrown error.
    - A cell object is mutated in place through [grid[r][c]]; no cell is
      shared between two positions, so the mutation is a functional update
      of the grid at [(r, c)].
    - The canvas is not modelled: of [drawCell] the model keeps the read of
      [grid[r][c]], and [fullDraw], which only paints, is left out.
    - The browser's events are the constructors of [Event]: the debounced
      call of [buildGrid] after a resize, [mousemove], [mouseleave] and the
      animation frame.
    - Timers ([setTimeout], [setInterval]) are state: what is pending is
      part of the model, and a timer that fires is an event. *)

From Stdlib Require Import ZArith QArith Qround Qminmax Lia Lqa.
From Stdlib Require Import Ascii String HexString DecimalString.
From stdpp Require Import base option list.

Local Open Scope Z_scope.

(** ** Config *)

Definition SYMBOLS : list ascii :=
  list_ascii_of_string "@#%^&*[]{}~<>|/\+-=.:;!?$".
Definition CELL_SIZE : Z := 22.
Definition BASE_COLOR : string := "#e0e0e0".
Definition HOVER_COLOR : string := "#888888".
Definition SCRAMBLE_FRAMES : Z := 6.
Definition SETTLE_DURATION : Q := 400%Q.
Definition FRAME_INTERVAL : Q := (1000 / 20)%Q.

(** ** Values *)

(** What a [symbol] or [origSymbol] field can hold: [null], a one-character
    string, or [undefined] (an array read out of range). *)
Inductive glyph : Type :=
| Null
| Undefined
| Glyph (ch : ascii).

(** [state: 'idle' | 'scramble' | 'settling']. *)
Inductive CellState : Type :=
| Idle
| Scramble
| Settling.

Global Instance CellState_eq_dec : EqDecision CellState.
Proof. solve_decision. Defined.

Record Cell : Type := mkCell {
  symbol : glyph;
  origSymbol : glyph;
  color : string;
  state : CellState;
  framesLeft : Z;
  settleStart : Q
}.

(** Assignments to the fields of a cell object. *)
Definition set_symbol (x : glyph) (cell : Cell) : Cell :=
  mkCell x (origSymbol cell) (color cell) (state cell) (framesLeft cell)
    (settleStart cell).
Definition set_origSymbol (x : glyph) (cell : Cell) : Cell :=
  mkCell (symbol cell) x (color cell) (state cell) (framesLeft cell)
    (settleStart cell).
Definition set_color (x : string) (cell : Cell) : Cell :=
  mkCell (symbol cell) (origSymbol cell) x (state cell) (framesLeft cell)
    (settleStart cell).
Definition set_state (x : CellState) (cell : Cell) : Cell :=
  mkCell (symbol cell) (origSymbol cell) (color cell) x (framesLeft cell)
    (settleStart cell).
Definition set_framesLeft (x : Z) (cell : Cell) : Cell :=
  mkCell (symbol cell) (origSymbol cell) (color cell) (state cell) x
    (settleStart cell).
Definition set_settleStart (x : Q) (cell : Cell) : Cell :=
  mkCell (symbol cell) (origSymbol cell) (color cell) (state cell)
    (framesLeft cell) x.

(** [a[i]] on a JavaScript array: [undefined] ([None]) out of range. *)
Definition index {A : Type} (a : list A) (i : Z) : option A :=
  if i <? 0 then None else a !! Z.to_nat i.

(** [grid[r][c]], to be dereferenced: [None] when [grid[r]] or
    [grid[r][c]] is [undefined]. *)
Definition grid_get (g : list (list Cell)) (r c : Z) : option Cell :=
  row ← index g r; index row c.

(** The effect on the grid of mutating the object at [grid[r][c]]. *)
Definition grid_set (g : list (list Cell)) (r c : Z) (cell : Cell)
  : list (list Cell) :=
  if bool_decide (0 ≤ r ∧ 0 ≤ c) then
    alter (λ row, <[Z.to_nat c := cell]> row) (Z.to_nat r) g
  else g.

(** The module-level variables of the engine. [draws] counts the calls of
    [Math.random()]. *)
Record World : Type := mkWorld {
  cols : Z;
  rows : Z;
  grid : list (list Cell);
  dirtySet : list Z;
  mouseCol : Z;
  mouseRow : Z;
  lastFrame : Q;
  draws : nat
}.

(** A JavaScript [Set] keeps its elements in insertion order, without
    duplicates. *)
Definition set_add (k : Z) (s : list Z) : list Z :=
  if decide (k ∈ s) then s else s ++ [k].

Definition set_delete (k : Z) (s : list Z) : list Z :=
  filter (λ x, x ≠ k) s.

(** ** Helpers *)

(** [const key = (r, c) => r * 10000 + c], in exact integer arithmetic:
    what the code computes as long as the key is at most [2^53] (see
    [keyDouble]). *)
Definition key (r c : Z) : Z := r * 10000 + c.

(** The decoding done at the head of the scheduler's loop body:
    [Math.floor(k / 10000)] and [k % 10000] (JavaScript's [%] truncates). *)
Definition decode (k : Z) : Z * Z := (k / 10000, Z.rem k 10000).

(** The double nearest to the integer [n], as every arithmetic operation
    on doubles rounds its exact result: to the nearest, a tie to the even
    significand.  A double has 53 significant bits, so an integer up to
    [2^53] in magnitude is a double, and in [[2^(52+e), 2^(53+e)]] the
    doubles are the multiples of [2^e].  [None] is [Infinity] or
    [-Infinity], from [2^1024] on. *)
Definition nearestDouble (n : Z) : option Z :=
  let a := Z.abs n in
  let e := Z.max 0 (Z.log2 a - 52) in
  let q := a / 2 ^ e in
  let rest := a mod 2 ^ e in
  let m := if 2 * rest <? 2 ^ e then q
           else if 2 ^ e <? 2 * rest then q + 1
           else if Z.even q then q else q + 1 in
  if 2 ^ 1024 <=? m * 2 ^ e then None else Some (Z.sgn n * (m * 2 ^ e)).

(** The same [key] on the numbers of JavaScript, which are doubles: in
    [r * 10000 + c] the product is rounded, then the sum. *)
Definition keyDouble (r c : Z) : option Z :=
  p ← nearestDouble (r * 10000); nearestDouble (p + c).

(** ** Colour helpers *)

(** ToInt32, applied by JavaScript to the operands of [<<], [>>], [&], [|]. *)
Definition toInt32 (z : Z) : Z := (z + 2 ^ 31) mod 2 ^ 32 - 2 ^ 31.
Definition js_shl (a k : Z) : Z := toInt32 (Z.shiftl (toInt32 a) k).
Definition js_shr (a k : Z) : Z := Z.shiftr (toInt32 a) k.
Definition js_and (a b : Z) : Z := Z.land (toInt32 a) (toInt32 b).
Definition js_or (a b : Z) : Z := Z.lor (toInt32 a) (toInt32 b).

(** [s.slice(1)]. *)
Definition slice1 (s : string) : string :=
  match s with
  | EmptyString => EmptyString
  | String _ s' => s'
  end.

(** [parseInt(s, 16)] on a string of hexadecimal digits. *)
Definition parseInt16 (s : string) : Z := Z.of_N (HexString.Raw.to_N s 0).

(** [n.toString(16)]. *)
Definition toString16 (n : Z) : string :=
  match n with
  | Z0 => "0"
  | Zpos p => HexString.Raw.of_pos p ""
  | Zneg p => String "-" (HexString.Raw.of_pos p "")
  end.

Definition hexToRGB (hex : string) : Z * Z * Z :=
  let n := parseInt16 (slice1 hex) in
  (js_and (js_shr n 16) 255, js_and (js_shr n 8) 255, js_and n 255).

Definition rgbToHex (r g b : Z) : string :=
  String "#"
    (slice1 (toString16
       (js_or (js_or (js_or (js_shl 1 24) (js_shl r 16)) (js_shl g 8)) b))).

(** [Math.round]: the nearest integer, halves upwards. *)
Definition round (x : Q) : Z := Qfloor (x + (1 # 2))%Q.

(** The three channels [lerpColor] hands to [rgbToHex], each the rounded
    value of the exact [a + (b - a) * t]. *)
Definition lerpChannels (a b : string) (t : Q) : Z * Z * Z :=
  let '(ar, ag, ab) := hexToRGB a in
  let '(br, bg, bb) := hexToRGB b in
  (round (inject_Z ar + inject_Z (br - ar) * t)%Q,
   round (inject_Z ag + inject_Z (bg - ag) * t)%Q,
   round (inject_Z ab + inject_Z (bb - ab) * t)%Q).

Definition lerpColor (a b : string) (t : Q) : string :=
  let '(r, g, b') := lerpChannels a b t in rgbToHex r g b'.

(** [1 - Math.pow(1 - t, 3)], in exact arithmetic. *)
Definition easeOutCubic (t : Q) : Q := (1 - (1 - t) ^ 3)%Q.

(** ** The engine *)

(** [forEach] with a callback that can throw: the first [None] aborts. *)
Fixpoint forEachM {S A : Type} (f : S → A → option S) (l : list A) (s : S)
  : option S :=
  match l with
  | [] => Some s
  | x :: l' => s' ← f s x; forEachM f l' s'
  end.

(** What one run of [animate] mutates while it walks the dirty set: the
    cells, the random source and the local array [toRemove]; [indexed]
    records every coordinate at which [grid[r][c]] is evaluated (by the loop
    body and by [drawCell]). *)
Record Pass : Type := mkPass {
  pgrid : list (list Cell);
  pdraws : nat;
  toRemove : list Z;
  indexed : list (Z * Z)
}.

(** [toRemove.push(k)]. *)
Definition push_remove (k : Z) (p : Pass) : Pass :=
  mkPass (pgrid p) (pdraws p) (toRemove p ++ [k]) (indexed p).

(** An evaluation of [grid[r][c]]. *)
Definition log_index (r c : Z) (p : Pass) : Pass :=
  mkPass (pgrid p) (pdraws p) (toRemove p) (indexed p ++ [(r, c)]).

(** [drawCell(r, c)] reads [grid[r][c]] and paints it; the canvas is not
    part of the model, the read is. *)
Definition drawCell (r c : Z) (p : Pass) : Pass := log_index r c p.

(** The cell at [grid[r][c]] after the assignments of a branch. *)
Definition store (r c : Z) (cell : Cell) (p : Pass) : Pass :=
  mkPass (grid_set (pgrid p) r c cell) (pdraws p) (toRemove p) (indexed p).

(** One more call of [Math.random()]. *)
Definition drew (p : Pass) : Pass :=
  mkPass (pgrid p) (S (pdraws p)) (toRemove p) (indexed p).

(** The pointer offsets of the two nested loops of [onMouseMove], in the
    order the loops produce them. *)
Definition neighbourhood : list (Z * Z) :=
  dr ← [-1; 0; 1]; dc ← [-1; 0; 1]; [(dr, dc)].

Inductive Event : Type :=
| Resize (clientWidth clientHeight : Z)
| MouseMove (mx my : Q)
| MouseLeave
| Frame (now : Q).

(** The state of the module before the first [buildGrid()]. *)
Definition blank : World :=
  mkWorld 0 0 [] [] (-1) (-1) 0%Q 0.

Section Engine.

(** [random i] is the value of the i-th call of [Math.random()]. *)
Variable random : nat → Q.

(** [Math.random()] returns a number in [[0, 1)]. *)
Definition unit_interval : Prop := ∀ i, (0 <= random i)%Q ∧ (random i < 1)%Q.

(** [SYMBOLS[Math.floor(Math.random() * SYMBOLS.length)]], on draw [i],
    with the exact product. *)
Definition randSymbol (i : nat) : glyph :=
  match index SYMBOLS
          (Qfloor (random i * inject_Z (Z.of_nat (length SYMBOLS)))) with
  | Some ch => Glyph ch
  | None => Undefined
  end.

(** *** Build grid *)

(** The object literal pushed by the inner loop of [buildGrid]. *)
Definition freshCell (i : nat) : Cell :=
  {| symbol := randSymbol i; origSymbol := Null; color := BASE_COLOR;
     state := Idle; framesLeft := 0; settleStart := 0%Q |}.

(** [for (let c = 0; c < cols; c++) row.push({...})], from draw [i]. *)
Fixpoint buildRow (n i : nat) : list Cell :=
  match n with
  | O => []
  | S n' => freshCell i :: buildRow n' (S i)
  end.

(** [for (let r = 0; r < rows; r++) { ...; grid.push(row) }]. *)
Fixpoint buildRows (m n i : nat) : list (list Cell) :=
  match m with
  | O => []
  | S m' => buildRow n i :: buildRows m' n (i + n)
  end.

(** [buildGrid()], given the canvas' [clientWidth] and [clientHeight].
    It assigns [cols], [rows] and [grid] and nothing else of the world. *)
Definition buildGrid (clientWidth clientHeight : Z) (w : World) : World :=
  let cols' := Qceiling (inject_Z clientWidth / inject_Z CELL_SIZE) + 1 in
  let rows' := Qceiling (inject_Z clientHeight / inject_Z CELL_SIZE) + 1 in
  {| cols := cols'; rows := rows';
     grid := buildRows (Z.to_nat rows') (Z.to_nat cols') (draws w);
     dirtySet := dirtySet w;
     mouseCol := mouseCol w; mouseRow := mouseRow w;
     lastFrame := lastFrame w;
     draws := (draws w + Z.to_nat rows' * Z.to_nat cols')%nat |}.

(** *** Mouse tracking *)

(** The assignments made to an idle cell in the body of the loops, on
    draw [i]. *)
Definition arm (i : nat) (cell : Cell) : Cell :=
  let cell := set_state Scramble cell in
  let cell := set_origSymbol (symbol cell) cell in
  set_framesLeft (SCRAMBLE_FRAMES + Qfloor (random i * 3)) cell.

(** The body of the two loops, for the offset [(dr, dc)]. *)
Definition activate (w : World) (d : Z * Z) : option World :=
  let rr := mouseRow w + d.1 in
  let cc := mouseCol w + d.2 in
  if bool_decide (0 ≤ rr ∧ rr < rows w ∧ 0 ≤ cc ∧ cc < cols w) then
    cell ← grid_get (grid w) rr cc;
    if decide (state cell = Idle) then
      Some {| cols := cols w; rows := rows w;
              grid := grid_set (grid w) rr cc (arm (draws w) cell);
              dirtySet := set_add (key rr cc) (dirtySet w);
              mouseCol := mouseCol w; mouseRow := mouseRow w;
              lastFrame := lastFrame w; draws := S (draws w) |}
    else Some w
  else Some w.

(** [onMouseMove(e)], with [mx = e.clientX - rect.left] and
    [my = e.clientY - rect.top]. *)
Definition onMouseMove (mx my : Q) (w : World) : option World :=
  let newCol := Qfloor (mx / inject_Z CELL_SIZE) in
  let newRow := Qfloor (my / inject_Z CELL_SIZE) in
  if bool_decide (newCol = mouseCol w ∧ newRow = mouseRow w) then Some w
  else
    forEachM activate neighbourhood
      {| cols := cols w; rows := rows w; grid := grid w;
         dirtySet := dirtySet w;
         mouseCol := newCol; mouseRow := newRow;
         lastFrame := lastFrame w; draws := draws w |}.

(** [onMouseLeave()]. *)
Definition onMouseLeave (w : World) : World :=
  {| cols := cols w; rows := rows w; grid := grid w;
     dirtySet := dirtySet w; mouseCol := -1; mouseRow := -1;
     lastFrame := lastFrame w; draws := draws w |}.

(** *** Animation loop *)

(** The assignments of the scramble branch under [doScrambleTick], on
    draw [i]. *)
Definition scrambleStep (i : nat) (now : Q) (cell : Cell) : Cell :=
  let cell := set_symbol (randSymbol i) cell in
  let cell := set_color HOVER_COLOR cell in
  let cell := set_framesLeft (framesLeft cell - 1) cell in
  if bool_decide (framesLeft cell ≤ 0) then
    let cell := set_state Settling cell in
    let cell := set_symbol (origSymbol cell) cell in
    set_settleStart now cell
  else cell.

(** The assignments of the settling branch; the boolean is [t >= 1]. *)
Definition settleStep (now : Q) (cell : Cell) : Cell * bool :=
  let elapsed := (now - settleStart cell)%Q in
  let t := Qmin (elapsed / SETTLE_DURATION)%Q 1%Q in
  let cell :=
    set_color (lerpColor HOVER_COLOR BASE_COLOR (easeOutCubic t)) cell in
  if Qle_bool 1 t then
    let cell := set_state Idle cell in
    let cell := set_color BASE_COLOR cell in
    (set_origSymbol Null cell, true)
  else (cell, false).

(** What a visit of the loop body does to the cell it finds, on draw [i]. *)
Definition cellTick (tick : bool) (now : Q) (i : nat) (cell : Cell) : Cell :=
  match state cell with
  | Scramble => if tick then scrambleStep i now cell else cell
  | Settling => (settleStep now cell).1
  | Idle => cell
  end.

(** The callback of [dirtySet.forEach], for the key [k]. *)
Definition visit (doScrambleTick : bool) (now : Q) (nrows ncols : Z)
    (p : Pass) (k : Z) : option Pass :=
  let '(r, c) := decode k in
  if bool_decide (nrows ≤ r ∨ ncols ≤ c) then Some (push_remove k p)
  else
    cell ← grid_get (pgrid p) r c;
    let p := log_index r c p in
    match state cell with
    | Scramble =>
        if doScrambleTick then
          Some (drawCell r c
                  (drew (store r c (scrambleStep (pdraws p) now cell) p)))
        else Some p
    | Settling =>
        let '(cell', done) := settleStep now cell in
        let p := drawCell r c (store r c cell' p) in
        Some (if done then push_remove k p else p)
    | Idle => Some (push_remove k p)
    end.

(** [deltaFrame >= FRAME_INTERVAL], with [deltaFrame = now - lastFrame]. *)
Definition doScrambleTick (now : Q) (w : World) : bool :=
  Qle_bool FRAME_INTERVAL (now - lastFrame w).

(** The walk over the dirty set. *)
Definition animate_pass (now : Q) (w : World) : option Pass :=
  forEachM (visit (doScrambleTick now w) now (rows w) (cols w))
    (dirtySet w) (mkPass (grid w) (draws w) [] []).

(** [animate(now)]. *)
Definition animate (now : Q) (w : World) : option World :=
  p ← animate_pass now w;
  Some {| cols := cols w; rows := rows w; grid := pgrid p;
          dirtySet := foldl (λ s k, set_delete k s) (dirtySet w) (toRemove p);
          mouseCol := mouseCol w; mouseRow := mouseRow w;
          lastFrame := if doScrambleTick now w then now else lastFrame w;
          draws := pdraws p |}.

(** *** The running engine *)

(** The handler of each event. *)
Definition handle (e : Event) (w : World) : option World :=
  match e with
  | Resize cw ch => Some (buildGrid cw ch w)
  | MouseMove mx my => onMouseMove mx my w
  | MouseLeave => Some (onMouseLeave w)
  | Frame now => animate now w
  end.

(** Running a list of events, oldest first. *)
Fixpoint run (es : list Event) (w : World) : option World :=
  match es with
  | [] => Some w
  | e :: es' => w' ← handle e w; run es' w'
  end.

(** The number of frames among [es], run from [w], on which the scramble
    cadence fires. *)
Fixpoint scrambleTicks (es : list Event) (w : World) : nat :=
  match es with
  | [] => 0
  | e :: es' =>
      match handle e w with
      | None => 0
      | Some w' =>
          ((match e with
            | Frame now => if doScrambleTick now w then 1 else 0
            | _ => 0
            end) + scrambleTicks es' w')%nat
      end
  end.

(** The worlds the page can be in: [buildGrid()] at start-up, then any
    sequence of events. *)
Inductive reachable : World → Prop :=
| reach_init cw ch : reachable (buildGrid cw ch blank)
| reach_step e w w' :
    reachable w → handle e w = Some w' → reachable w'.

End Engine.

(** ** Vocabulary of the properties *)

Definition isResize (e : Event) : bool :=
  match e with
  | Resize _ _ => true
  | _ => false
  end.

(** No rebuild of the grid among the events [es]. *)
Definition noResize (es : list Event) : Prop :=
  Forall (λ e, isResize e = false) es.

(** [grid] has [rows] rows of [cols] cells each. *)
Definition wf_grid (g : list (list Cell)) (nrows ncols : Z) : Prop :=
  length g = Z.to_nat nrows ∧ Forall (λ row, length row = Z.to_nat ncols) g.

(** [(r, c)] is a coordinate of a grid of [nrows] by [ncols] cells. *)
Definition in_bounds (nrows ncols r c : Z) : Prop :=
  0 ≤ r ∧ r < nrows ∧ 0 ≤ c ∧ c < ncols.

Definition wf (w : World) : Prop := wf_grid (grid w) (rows w) (cols w).

(** The pointer offset of the cell [(r, c)] in the world [w]. *)
Definition offset (w : World) (r c : Z) : Z * Z :=
  (r - mouseRow w, c - mouseCol w).

(** The cell under the pointer, as [onMouseMove] computes it. *)
Definition pointerCol (mx : Q) : Z := Qfloor (mx / inject_Z CELL_SIZE).
Definition pointerRow (my : Q) : Z := Qfloor (my / inject_Z CELL_SIZE).

(** The 3×3 block centred on [(r0, c0)]. *)
Definition in_block (r0 c0 r c : Z) : Prop :=
  r0 - 1 ≤ r ≤ r0 + 1 ∧ c0 - 1 ≤ c ≤ c0 + 1.

(** A key is dropped by a pass when it decodes outside the grid or to a
    cell that is idle once the pass is over. *)
Definition dropped (g : list (list Cell)) (nrows ncols : Z) (k : Z) : Prop :=
  ¬ in_bounds nrows ncols (decode k).1 (decode k).2 ∨
  ∃ cell, grid_get g (decode k).1 (decode k).2 = Some cell ∧
          state cell = Idle.

(** After a tick every key left in the dirty set decodes to a cell of the
    grid that is not idle. *)
Definition pruned (w : World) : Prop :=
  ∀ k, k ∈ dirtySet w → ¬ dropped (grid w) (rows w) (cols w) k.

(** The grid is well formed; the dirty set is a set of non-negative keys;
    every animating cell in a column below the key multiplier has its key in
    the dirty set; a settling cell lies in such a column; and an idle cell
    has the base colour and no original symbol. *)
Record Inv (w : World) : Prop := mkInv {
  inv_wf : wf w;
  inv_nodup : NoDup (dirtySet w);
  inv_keys : ∀ k, k ∈ dirtySet w → 0 ≤ k;
  inv_tracked : ∀ r c cell,
    grid_get (grid w) r c = Some cell → state cell ≠ Idle → c < 10000 →
    key r c ∈ dirtySet w;
  inv_settling : ∀ r c cell,
    grid_get (grid w) r c = Some cell → state cell = Settling → c < 10000;
  inv_idle : ∀ r c cell,
    grid_get (grid w) r c = Some cell → state cell = Idle →
    color cell = BASE_COLOR ∧ origSymbol cell = Null
}.

(** The fraction [t] of the settling branch for a cell that began to settle
    at [start], and the colour interpolated from it. *)
Definition settleFraction (start now : Q) : Q :=
  Qmin ((now - start) / SETTLE_DURATION)%Q 1%Q.

Definition settleColor (start now : Q) : string :=
  lerpColor HOVER_COLOR BASE_COLOR (easeOutCubic (settleFraction start now)).

(** The digit [toString(16)] prints for [d]. *)
Definition hexDigit (d : Z) : ascii :=
  nth (Z.to_nat d) (list_ascii_of_string "0123456789abcdef") "0"%char.

(** [n.toString(16)] for a positive [n], in front of the digits [rest]. *)
Definition hexBefore (n : Z) (rest : string) : string :=
  match n with
  | Zpos p => HexString.Raw.of_pos p rest
  | _ => rest
  end.

(** The channel value [lerpColor] computes between the hover tone
    ([0x88 = 136]) and the base tone ([0xe0 = 224]) at the fraction [t]. *)
Definition tone (t : Q) : Z :=
  round (inject_Z 136 + inject_Z (224 - 136) * t)%Q.

(** Channel-wise comparison of two colours. *)
Definition channels_le (x y : Z * Z * Z) : Prop :=
  x.1.1 ≤ y.1.1 ∧ x.1.2 ≤ y.1.2 ∧ x.2 ≤ y.2.

(** [2^-32], a bound on the error that the double arithmetic of
    [lerpColor] and [easeOutCubic] adds to a channel before [Math.round]
    (that error stays below [2^-42]). *)
Definition channel_slack : Q := (1 # 4294967296)%Q.

(** [v] is [Math.round] of the channel [x]: an integer within a half of
    [x], up to [channel_slack]. *)
Definition rounded (x : Q) (v : Z) : Prop :=
  (x - (1 # 2) - channel_slack <= inject_Z v)%Q ∧
  (inject_Z v <= x + (1 # 2) + channel_slack)%Q.

(** [2^-50], more than the width that the rounding of
    [Math.random() * 25] can shave off the upper end of a bucket of
    [randSymbol], or add below its lower end. *)
Definition bucket_slack : Q := (1 # 1125899906842624)%Q.

(** The spacing of the doubles at 1, [2^-52]. *)
Definition ease_slack : Q := (1 # 4503599627370496)%Q.

(** ** Sample worlds *)

(** Sample random sources for the closed examples. *)
Definition thirds : nat → Q := λ i, (Z.of_nat (i mod 3) # 3)%Q.
Definition halves : nat → Q := λ _, (1 # 2)%Q.

(** The page on a 198 × 198 canvas: a grid of 10 × 10 cells. *)
Definition small : World := buildGrid thirds 198 198 blank.

(** The page on a canvas 220010 pixels wide and 22 high: two rows of 10002
    cells. *)
Definition wide : World := buildGrid halves 220010 22 blank.

(** Seven frames, 50 ms apart: each fires the scramble cadence. *)
Definition sevenTicks : list Event :=
  [Frame 50; Frame 100; Frame 150; Frame 200; Frame 250; Frame 300;
   Frame 350].

(** The world reached from [w] by the events [es] ([blank] if a handler
    throws). *)
Definition after (random : nat → Q) (es : list Event) (w : World) : World :=
  default blank (run random es w).

(** [small] once the pointer has entered the cell [(5, 5)]. *)
Definition armed : World := after thirds [MouseMove 120 120] small.

(** The cell [(5, 5)] of [small]. *)
Definition smallCell : Cell :=
  {| symbol := Glyph "{"; origSymbol := Null; color := BASE_COLOR;
     state := Idle; framesLeft := 0; settleStart := 0%Q |}.

(** The cell [(5, 5)] of [armed]. *)
Definition armedCell : Cell :=
  {| symbol := Glyph "{"; origSymbol := Glyph "{"; color := BASE_COLOR;
     state := Scramble; framesLeft := 8; settleStart := 0%Q |}.

(** [armed] after eight scramble ticks: the cell [(5, 5)] has just begun to
    settle, at time 400. *)
Definition settling : World :=
  after thirds (sevenTicks ++ [Frame 400]) armed.

Definition settlingCell : Cell :=
  {| symbol := Glyph "{"; origSymbol := Glyph "{"; color := HOVER_COLOR;
     state := Settling; framesLeft := 0; settleStart := 400%Q |}.

(** [armed] after a resize to a 110 × 110 canvas: a grid of 6 × 6 cells. *)
Definition rebuilt : World := buildGrid thirds 110 110 armed.


(** ** Vocabulary of the further properties *)

(** A glyph that [fillText] can paint: a character of [SYMBOLS]. *)
Definition isGlyph (g : glyph) : Prop := ∃ ch, g = Glyph ch ∧ ch ∈ SYMBOLS.

(** What the cells of a running engine satisfy besides [Inv]: the glyph on
    display is a character of [SYMBOLS], and so is the saved glyph of an
    animating cell; a scrambling cell has between 1 and 8 ticks left; and a
    settling cell began to settle no later than the last scramble tick. *)
Record Sound (w : World) : Prop := mkSound {
  sound_symbol : ∀ r c cell,
    grid_get (grid w) r c = Some cell → isGlyph (symbol cell);
  sound_orig : ∀ r c cell,
    grid_get (grid w) r c = Some cell → state cell ≠ Idle →
    isGlyph (origSymbol cell);
  sound_frames : ∀ r c cell,
    grid_get (grid w) r c = Some cell → state cell = Scramble →
    1 ≤ framesLeft cell ≤ 8;
  sound_start : ∀ r c cell,
    grid_get (grid w) r c = Some cell → state cell = Settling →
    (settleStart cell <= lastFrame w)%Q
}.

(** Timestamps of frames on each of which the scramble cadence fires: each
    is at least [FRAME_INTERVAL] after the one before it, the first one
    after [t0]. *)
Fixpoint ticking (t0 : Q) (ts : list Q) : Prop :=
  match ts with
  | [] => True
  | t :: ts' => (FRAME_INTERVAL <= t - t0)%Q ∧ ticking t ts'
  end.

(** The glyph [g] is the one the cell shows at rest: it is on display, or
    it is saved in [origSymbol] while the cell scrambles. *)
Definition resting (g : glyph) (cell : Cell) : Prop :=
  match state cell with
  | Idle => symbol cell = g
  | Scramble => origSymbol cell = g
  | Settling => symbol cell = g ∧ origSymbol cell = g
  end.

(** The cell as [drawCell] paints it in the settling branch: after the
    assignment of the interpolated colour, before [if (t >= 1)]. *)
Definition settleDrawn (now : Q) (cell : Cell) : Cell :=
  let elapsed := (now - settleStart cell)%Q in
  let t := Qmin (elapsed / SETTLE_DURATION)%Q 1%Q in
  set_color (lerpColor HOVER_COLOR BASE_COLOR (easeOutCubic t)) cell.

(** The colour string [#d1d2d3d4d5d6] in lower-case hexadecimal digits. *)
Definition hexColor (d1 d2 d3 d4 d5 d6 : Z) : string :=
  String "#"
    (String (hexDigit d1) (String (hexDigit d2)
    (String (hexDigit d3) (String (hexDigit d4)
    (String (hexDigit d5) (String (hexDigit d6) EmptyString)))))).

(** [x] lies between [a] and [b], whichever is the larger. *)
Definition between (a b x : Z) : Prop := Z.min a b ≤ x ≤ Z.max a b.

(** Every cell of the grid in a column below the key multiplier is idle. *)
Definition at_rest (w : World) : Prop :=
  ∀ r c cell, grid_get (grid w) r c = Some cell → c < 10000 →
    state cell = Idle.

(** Every scrambling cell in a column below the key multiplier has at most
    [m] ticks left. *)
Definition counters_below (m : Z) (w : World) : Prop :=
  ∀ r c cell, grid_get (grid w) r c = Some cell → c < 10000 →
    state cell = Scramble → framesLeft cell ≤ m.

(** No cell in a column below the key multiplier scrambles, and those that
    settle began to do so at [since] or before. *)
Definition settling_since (since : Q) (w : World) : Prop :=
  ∀ r c cell, grid_get (grid w) r c = Some cell → c < 10000 →
    state cell ≠ Scramble ∧
    (state cell = Settling → (settleStart cell <= since)%Q).

(** A grey between the hover tone [#888888] and the base tone [#e0e0e0]. *)
Definition isTone (s : string) : Prop :=
  ∃ v, 136 ≤ v ≤ 224 ∧ s = rgbToHex v v v.

(** The worlds the page reaches when the timestamps of the frames do not go
    back: no frame carries a timestamp earlier than [lastFrame]. *)
Inductive timely (random : nat → Q) : World → Prop :=
| timely_init cw ch : timely random (buildGrid random cw ch blank)
| timely_step e w w' :
    timely random w →
    (∀ now, e = Frame now → (lastFrame w <= now)%Q) →
    handle random e w = Some w' → timely random w'.

(** Sixteen frames, 50 ms apart, from time 450 on. *)
Definition sixteenFrames : list Q :=
  [450; 500; 550; 600; 650; 700; 750; 800; 850; 900; 950; 1000; 1050; 1100;
   1150; 1200]%Q.

(** * Resize: the debounced rebuild

    The [resize] listener of the first IIFE.  Of the browser's timers the
    model keeps the timeouts that are pending, each with the id
    [setTimeout] returned and the time at which it is due; [rebuilt] lists
    the times at which a timeout has called [buildGrid]. *)

Module Debounce.

Record Timers : Type := mkTimers {
  resizeTimer : option nat;
  pending : list (nat * Q);
  nextId : nat;
  rebuilt : list Q
}.

(** [clearTimeout(id)]: nothing happens on [undefined] or on the id of a
    timeout that has fired. *)
Definition clearTimeout (id : option nat) (l : list (nat * Q))
  : list (nat * Q) :=
  match id with
  | Some i => filter (λ p, p.1 ≠ i) l
  | None => l
  end.

(** The [resize] listener, called at time [now]. *)
Definition onResize (now : Q) (s : Timers) : Timers :=
  let cleared := clearTimeout (resizeTimer s) (pending s) in
  mkTimers (Some (nextId s)) (cleared ++ [(nextId s, (now + 150)%Q)])
    (S (nextId s)) (rebuilt s).

(** The timeout [id] fires, if it is pending: [buildGrid] runs. *)
Definition onTimeout (id : nat) (s : Timers) : Timers :=
  match list_find (λ p, p.1 = id) (pending s) with
  | Some (_, (_, due)) =>
      mkTimers (resizeTimer s) (filter (λ p, p.1 ≠ id) (pending s))
        (nextId s) (rebuilt s ++ [due])
  | None => s
  end.

Inductive WindowEvent : Type :=
| ResizeAt (now : Q)
| TimeoutFires (id : nat).

Definition windowStep (s : Timers) (e : WindowEvent) : Timers :=
  match e with
  | ResizeAt now => onResize now s
  | TimeoutFires id => onTimeout id s
  end.

(** The timers after the events [es], oldest first, from the state in
    which the script leaves them: [let resizeTimer;]. *)
Definition idle : Timers := mkTimers None [] 0 [].

Definition resizing (es : list WindowEvent) : Timers :=
  foldl windowStep idle es.

(** The number of [resize] events among [es]. *)
Fixpoint resizes (es : list WindowEvent) : nat :=
  match es with
  | [] => 0
  | ResizeAt _ :: es' => S (resizes es')
  | TimeoutFires _ :: es' => resizes es'
  end.

End Debounce.

(** * Title glitch: the second IIFE of script.js

    A letter is the element a [mouseenter] listener is attached to; of the
    element the model keeps [dataset.glitching], the class list, and the
    [step] variable of every interval started on it that is not cleared. *)

(** [===] on strings and on characters. *)
Global Instance string_eq_dec : EqDecision string := String.string_dec.
Global Instance ascii_eq_dec : EqDecision ascii := Ascii.ascii_dec.

Module Glitch.

(** [const sequence = ['glitch-line', 'glitch-triangle', ...]]. *)
Definition sequence : list string :=
  ["glitch-line"; "glitch-triangle"; "glitch-grid"; "glitch-circle"]%string.

Record Letter : Type := mkLetter {
  glitching : option string;
  classList : list string;
  intervals : list Z
}.

(** [classList.remove(v)] and [classList.add(v)] on a token list, which
    holds no token twice. *)
Definition classList_remove (v : string) (cl : list string) : list string :=
  filter (λ x, x ≠ v) cl.

Definition classList_add (v : string) (cl : list string) : list string :=
  if decide (v ∈ cl) then cl else cl ++ [v].

(** [glitchLetter(letter)]: the guard, the flag, [let step = 0] and
    [setInterval]. *)
Definition glitchLetter (letter : Letter) : Letter :=
  if decide (glitching letter = Some "true"%string) then letter
  else
    mkLetter (Some "true"%string) (classList letter) (intervals letter ++ [0]).

(** The callback of the [i]-th running interval; an interval that is not
    running does not fire. *)
Definition onInterval (i : nat) (letter : Letter) : Letter :=
  match intervals letter !! i with
  | None => letter
  | Some step =>
      let cl :=
        foldl (λ cl v, classList_remove v cl) (classList letter) sequence in
      if step <? Z.of_nat (length sequence) then
        mkLetter (glitching letter)
          (classList_add (default "undefined"%string (index sequence step)) cl)
          (<[i := step + 1]> (intervals letter))
      else
        mkLetter (Some "false"%string) cl (delete i (intervals letter))
  end.

Inductive LetterEvent : Type :=
| MouseEnter
| IntervalFires (i : nat).

Global Instance LetterEvent_eq_dec : EqDecision LetterEvent.
Proof. solve_decision. Defined.

Definition letterStep (letter : Letter) (e : LetterEvent) : Letter :=
  match e with
  | MouseEnter => glitchLetter letter
  | IntervalFires i => onInterval i letter
  end.

(** The letter after the events [es], oldest first. *)
Definition hover (es : list LetterEvent) (letter : Letter) : Letter :=
  foldl letterStep letter es.

(** The number of interval callbacks among [es]. *)
Definition fired (es : list LetterEvent) : Z :=
  Z.of_nat (length (filter (λ e, e ≠ MouseEnter) es)).

(** The variant class on the letter once the interval has fired [n] times:
    none before the first callback, then [sequence[n - 1]]. *)
Definition variant (n : Z) : list string :=
  match index sequence (n - 1) with
  | Some v => [v]
  | None => []
  end.

(** A letter of the page before any glitch: no interval runs, the flag is
    not ['true'], and no class of [sequence] is on it. *)
Definition calm (letter : Letter) : Prop :=
  intervals letter = [] ∧ glitching letter ≠ Some "true"%string ∧
  Forall (λ v, v ∉ sequence) (classList letter).

(** What a letter that was [before] can look like: no interval runs, the
    flag is not ['true'] and the classes are as before; or one interval
    runs, at a step [n] of 0 to 4, the flag is ['true'] and the classes are
    those of before followed by the variant of the step. *)
Definition shape (before letter : Letter) : Prop :=
  (intervals letter = [] ∧ glitching letter ≠ Some "true"%string ∧
   classList letter = classList before) ∨
  (∃ n, 0 ≤ n ≤ 4 ∧ intervals letter = [n] ∧
        glitching letter = Some "true"%string ∧
        classList letter = classList before ++ variant n).

(** A sample letter, as the page's markup gives it. *)
Definition pixelLetter : Letter := mkLetter None ["pixel-letter"%string] [].

End Glitch.

(** * Project card carousels: the fourth IIFE of script.js

    One carousel: [total] and [current], and what [update] writes to the
    page: the track's [style.transform], the counter's text and the
    [disabled] flag of the two buttons. *)

Module Carousel.

(** A number in a template literal: its decimal representation. *)
Definition toString (n : Z) : string := NilZero.string_of_int (Z.to_int n).

Record Widget : Type := mkWidget {
  total : Z;
  current : Z;
  transform : string;
  counterText : string;
  prevDisabled : bool;
  nextDisabled : bool
}.

Definition set_current (x : Z) (s : Widget) : Widget :=
  mkWidget (total s) x (transform s) (counterText s) (prevDisabled s)
    (nextDisabled s).

(** [update()]. *)
Definition update (s : Widget) : Widget :=
  mkWidget (total s) (current s)
    ("translateX(-" ++ toString (current s * 100) ++ "%)")%string
    (toString (current s + 1) ++ " / " ++ toString (total s))%string
    (bool_decide (current s = 0))
    (bool_decide (current s = total s - 1)).

(** The [click] listener of [prevBtn]. *)
Definition onPrev (s : Widget) : Widget :=
  if bool_decide (0 < current s) then update (set_current (current s - 1) s)
  else s.

(** The [click] listener of [nextBtn]. *)
Definition onNext (s : Widget) : Widget :=
  if bool_decide (current s < total s - 1) then
    update (set_current (current s + 1) s)
  else s.

(** The body of [carousels.forEach] on a carousel with [n] cards, whatever
    the markup gives the track, the counter and the buttons: [let current =
    0] and the call of [update()]. *)
Definition mount (n : Z) (markup : Widget) : Widget :=
  update (mkWidget n 0 (transform markup) (counterText markup)
            (prevDisabled markup) (nextDisabled markup)).

Inductive Click : Type :=
| Prev
| Next.

Definition click (s : Widget) (b : Click) : Widget :=
  match b with
  | Prev => onPrev s
  | Next => onNext s
  end.

(** The carousel after the clicks [bs], oldest first. *)
Definition browse (bs : list Click) (s : Widget) : Widget := foldl click s bs.

(** A sample markup: nothing written yet. *)
Definition bare : Widget := mkWidget 0 0 "" "" false false.

End Carousel.

(** * Rotating subtitle: the fifth IIFE of script.js

    Of the element the model keeps [textContent], as a list of characters.
    One timer is pending at any time: the timeout of [scrambleToNext], the
    scramble interval or the decode interval, with the variables its
    closure holds.  [clock] is the time at which the last timer fired, and
    [calls] counts the calls of [Math.random()]. *)

Module Subtitle.

Definition phrases : list (list ascii) :=
  [list_ascii_of_string "a lifetime learner";
   list_ascii_of_string "data analyst (in progress)";
   list_ascii_of_string "data scientist (in progress)"].
Definition SCRAMBLE_CHARS : list ascii :=
  list_ascii_of_string "@#%^&*~<>|/\+-=.:;!?$[]{}".
Definition DECODE_STEP_MS : Z := 40.
Definition PAUSE_MS : Z := 4000.
Definition SCRAMBLE_MS : Z := 600.

Inductive Timer : Type :=
| Pause
| ScrambleInterval (target : list ascii) (maxLen scrambleCount : Z)
| DecodeInterval (target : list ascii) (resolved : Z).

Record Banner : Type := mkBanner {
  currentIndex : Z;
  textContent : list ascii;
  timer : Timer;
  clock : Z;
  calls : nat
}.

(** The state of the module when the script has run: the first timeout is
    pending, and the element shows the text of the markup. *)
Definition start (text : list ascii) : Banner := mkBanner 0 text Pause 0 0.

Section Random.

Variable random : nat → Q.

(** What [s += randChar()] appends on call [i]: one character, or the text
    of [undefined]. *)
Definition randChar (i : nat) : list ascii :=
  match index SCRAMBLE_CHARS
          (Qfloor (random i * inject_Z (Z.of_nat (length SCRAMBLE_CHARS)))) with
  | Some ch => [ch]
  | None => list_ascii_of_string "undefined"
  end.

(** [for (let i = 0; i < maxLen; i++) s += randChar()], from call [i]. *)
Fixpoint scrambled (n i : nat) : list ascii :=
  match n with
  | O => []
  | S n' => randChar i ++ scrambled n' (S i)
  end.

(** The loop of the decode interval over the characters of the target from
    position [pos] on, from call [i]: the text built and the calls made. *)
Fixpoint decoded (target : list ascii) (pos resolved : Z) (i : nat)
  : list ascii * nat :=
  match target with
  | [] => ([], i)
  | ch :: rest =>
      if pos <? resolved then
        let '(s, i') := decoded rest (pos + 1) resolved i in (ch :: s, i')
      else if decide (ch = " "%char) then
        let '(s, i') := decoded rest (pos + 1) resolved i in
        (" "%char :: s, i')
      else
        let '(s, i') := decoded rest (pos + 1) resolved (S i) in
        (randChar i ++ s, i')
  end.

(** The pending timer fires: [scrambleToNext()] after the pause, or one
    callback of the scramble or of the decode interval.  [None] is the
    [TypeError] of [target.length] on an [undefined] target. *)
Definition fire (s : Banner) : option Banner :=
  match timer s with
  | Pause =>
      let currentIndex' :=
        Z.rem (currentIndex s + 1) (Z.of_nat (length phrases)) in
      target ← index phrases currentIndex';
      let maxLen :=
        Z.max (Z.of_nat (length (textContent s)))
              (Z.of_nat (length target)) in
      Some (mkBanner currentIndex' (textContent s)
              (ScrambleInterval target maxLen 0)
              (clock s + PAUSE_MS) (calls s))
  | ScrambleInterval target maxLen scrambleCount =>
      let text := scrambled (Z.to_nat maxLen) (calls s) in
      let scrambleCount' := scrambleCount + 50 in
      Some (mkBanner (currentIndex s) text
              (if bool_decide (SCRAMBLE_MS ≤ scrambleCount') then
                 DecodeInterval target 0
               else ScrambleInterval target maxLen scrambleCount')
              (clock s + 50) (calls s + Z.to_nat maxLen))
  | DecodeInterval target resolved =>
      let '(text, calls') := decoded target 0 resolved (calls s) in
      let resolved' := resolved + 1 in
      if bool_decide (Z.of_nat (length target) < resolved') then
        Some (mkBanner (currentIndex s) target Pause
                (clock s + DECODE_STEP_MS) calls')
      else
        Some (mkBanner (currentIndex s) text
                (DecodeInterval target resolved')
                (clock s + DECODE_STEP_MS) calls')
  end.

(** [n] timers fire, one after the other. *)
Fixpoint fires (n : nat) (s : Banner) : option Banner :=
  match n with
  | O => Some s
  | S n' => s' ← fire s; fires n' s'
  end.

End Random.

(** What holds of the banner whenever a timer is pending: [currentIndex]
    is the index of a phrase; an interval works on the phrase at that
    index; the scramble count is below [SCRAMBLE_MS] and the scramble is as
    long as the target at least; and [resolved] is a position of the
    target, or its length. *)
Definition steady (s : Banner) : Prop :=
  0 ≤ currentIndex s < 3 ∧
  match timer s with
  | Pause => True
  | ScrambleInterval target maxLen scrambleCount =>
      index phrases (currentIndex s) = Some target ∧
      0 ≤ scrambleCount < SCRAMBLE_MS ∧
      Z.of_nat (length target) ≤ maxLen
  | DecodeInterval target resolved =>
      index phrases (currentIndex s) = Some target ∧
      0 ≤ resolved ≤ Z.of_nat (length target)
  end.

(** The [j]-th character of [text] shows the character [ch] of the target
    in a decode frame in which [k] characters are resolved: resolved
    characters and spaces are shown as they are, any other character as a
    character of [SCRAMBLE_CHARS], and only a space is shown as a space. *)
Definition shows (k : Z) (text : list ascii) (j : nat) (ch : ascii) : Prop :=
  ∃ ch', text !! j = Some ch' ∧
    (Z.of_nat j < k ∨ ch = " "%char → ch' = ch) ∧
    (k ≤ Z.of_nat j → ch ≠ " "%char → ch' ∈ SCRAMBLE_CHARS) ∧
    (ch' = " "%char → ch = " "%char).

(** The phrase shown after the one at index [i]. *)
Definition nextPhrase (i : Z) : list ascii :=
  default [] (index phrases (Z.rem (i + 1) (Z.of_nat (length phrases)))).

End Subtitle.

(** * Properties *)

(** ** Arrays and the grid *)

Lemma index_Some {A : Type} (a : list A) (i : Z) (x : A) :
  index a i = Some x ↔ 0 ≤ i ∧ a !! Z.to_nat i = Some x.
Proof.
  unfold index. destruct (Z.ltb_spec i 0); split.
  - discriminate.
  - lia.
  - auto.
  - tauto.
Qed.

Lemma grid_get_Some (g : list (list Cell)) (r c : Z) (cell : Cell) :
  grid_get g r c = Some cell ↔
  0 ≤ r ∧ 0 ≤ c ∧
  ∃ row, g !! Z.to_nat r = Some row ∧ row !! Z.to_nat c = Some cell.
Proof.
  unfold grid_get. split.
  - intros H. apply bind_Some in H as (row & Hr & Hc).
    apply index_Some in Hr as [? ?]. apply index_Some in Hc as [? ?].
    eauto 6.
  - intros (? & ? & row & Hr & Hc). apply bind_Some. exists row.
    split; apply index_Some; auto.
Qed.

Lemma grid_get_in_bounds g nrows ncols r c cell :
  wf_grid g nrows ncols → grid_get g r c = Some cell →
  in_bounds nrows ncols r c.
Proof.
  intros [Hlen Hrows] (Hr & Hc & row & Hrow & Hcell)%grid_get_Some.
  pose proof (lookup_lt_Some _ _ _ Hrow) as Hlt.
  pose proof (lookup_lt_Some _ _ _ Hcell) as Hlt'.
  rewrite Forall_lookup in Hrows. rewrite (Hrows _ _ Hrow) in Hlt'.
  unfold in_bounds. lia.
Qed.

Lemma in_bounds_grid_get g nrows ncols r c :
  wf_grid g nrows ncols → in_bounds nrows ncols r c →
  is_Some (grid_get g r c).
Proof.
  intros [Hlen Hrows] (? & ? & ? & ?).
  destruct (lookup_lt_is_Some_2 g (Z.to_nat r)) as [row Hrow]; [lia|].
  rewrite Forall_lookup in Hrows. pose proof (Hrows _ _ Hrow) as Hl.
  destruct (lookup_lt_is_Some_2 row (Z.to_nat c)) as [cell Hcell]; [lia|].
  exists cell. apply grid_get_Some. eauto 6.
Qed.

Lemma grid_get_set_eq g r c cell cell' :
  grid_get g r c = Some cell → grid_get (grid_set g r c cell') r c = Some cell'.
Proof.
  intros (Hr & Hc & row & Hrow & Hcell)%grid_get_Some.
  apply grid_get_Some. do 2 (split; [done|]).
  unfold grid_set. rewrite bool_decide_true by done.
  exists (<[Z.to_nat c := cell']> row). split.
  - rewrite list_lookup_alter_eq, Hrow. done.
  - apply list_lookup_insert_eq. eapply lookup_lt_Some; eauto.
Qed.

Lemma grid_get_set_ne g r c r' c' cell' :
  (r, c) ≠ (r', c') →
  grid_get (grid_set g r c cell') r' c' = grid_get g r' c'.
Proof.
  intros Hne. unfold grid_set. case_bool_decide as Hb; [|done].
  destruct Hb as [Hr Hc].
  unfold grid_get, index.
  destruct (Z.ltb_spec r' 0); [done|].
  destruct (decide (r = r')) as [->|Hrr].
  - rewrite list_lookup_alter_eq.
    destruct (g !! Z.to_nat r') as [row|]; simpl; [|done].
    destruct (Z.ltb_spec c' 0); [done|].
    apply list_lookup_insert_ne. intros E. apply Hne. f_equal. lia.
  - rewrite list_lookup_alter_ne by lia. done.
Qed.

Lemma grid_set_wf g nrows ncols r c cell :
  wf_grid g nrows ncols → wf_grid (grid_set g r c cell) nrows ncols.
Proof.
  intros [Hlen Hrows]. unfold grid_set. case_bool_decide; [|done].
  split.
  - rewrite length_alter. done.
  - apply Forall_alter; [done|]. intros row _ Hl. rewrite length_insert. done.
Qed.

(** ** The dirty set as a JavaScript [Set] *)

Lemma elem_of_set_add k k' s : k' ∈ set_add k s ↔ k' = k ∨ k' ∈ s.
Proof.
  unfold set_add. case_decide.
  - split; [auto|]. intros [->|?]; done.
  - rewrite elem_of_app, list_elem_of_singleton. tauto.
Qed.

Lemma NoDup_set_add k s : NoDup s → NoDup (set_add k s).
Proof.
  intros Hs. unfold set_add. case_decide; [done|].
  apply NoDup_app. split_and!; [done| |apply NoDup_singleton].
  intros x Hx ->%list_elem_of_singleton. done.
Qed.

Lemma elem_of_set_delete k k' s : k' ∈ set_delete k s ↔ k' ≠ k ∧ k' ∈ s.
Proof. unfold set_delete. rewrite list_elem_of_filter. tauto. Qed.

Lemma NoDup_set_delete k s : NoDup s → NoDup (set_delete k s).
Proof. apply NoDup_filter. Qed.

Lemma elem_of_delete_all ks s k :
  k ∈ foldl (λ s k, set_delete k s) s ks ↔ k ∈ s ∧ k ∉ ks.
Proof.
  revert s. induction ks as [|k0 ks IH]; intros s; simpl.
  - rewrite elem_of_nil. tauto.
  - rewrite IH, elem_of_set_delete, elem_of_cons. tauto.
Qed.

Lemma NoDup_delete_all ks s :
  NoDup s → NoDup (foldl (λ s k, set_delete k s) s ks).
Proof.
  revert s. induction ks as [|k0 ks IH]; intros s Hs; simpl; [done|].
  apply IH, NoDup_set_delete, Hs.
Qed.

(** ** Keys *)

Lemma decode_key r c :
  0 ≤ r → 0 ≤ c → c < 10000 → decode (key r c) = (r, c).
Proof.
  intros Hr Hc Hlt. unfold decode, key. f_equal.
  - rewrite Z.div_add_l by lia. rewrite Z.div_small by lia. lia.
  - rewrite Z.rem_mod_nonneg by lia.
    rewrite Z.add_comm, Z.mod_add by lia. apply Z.mod_small. lia.
Qed.

Lemma key_decode k r c :
  0 ≤ k → decode k = (r, c) → k = key r c ∧ 0 ≤ r ∧ 0 ≤ c ∧ c < 10000.
Proof.
  intros Hk [= <- <-]. unfold key.
  rewrite Z.rem_mod_nonneg by lia.
  pose proof (Z.div_mod k 10000 ltac:(lia)).
  pose proof (Z.mod_pos_bound k 10000 ltac:(lia)).
  pose proof (Z.div_pos k 10000 Hk ltac:(lia)). lia.
Qed.

(** ** [buildGrid] *)

Section BuildGrid.

Variable random : nat → Q.

Lemma buildRow_length n i : length (buildRow random n i) = n.
Proof. revert i. induction n; intros i; simpl; [done|]. by rewrite IHn. Qed.

Lemma buildRow_fresh n i :
  Forall (λ cell, ∃ j, (i ≤ j < i + n)%nat ∧ cell = freshCell random j)
    (buildRow random n i).
Proof.
  revert i. induction n as [|n IH]; intros i; simpl; constructor.
  - exists i. split; [lia|done].
  - eapply Forall_impl; [apply IH|]. simpl.
    intros cell (j & ? & ->). exists j. split; [lia|done].
Qed.

Lemma buildRows_wf m n i :
  length (buildRows random m n i) = m ∧
  Forall (λ row, length row = n) (buildRows random m n i).
Proof.
  revert i. induction m as [|m IH]; intros i; simpl; [by split|].
  destruct (IH (i + n)%nat) as [-> ?]. split; [done|].
  constructor; [apply buildRow_length|done].
Qed.

Lemma buildRows_fresh m n i :
  Forall (Forall (λ cell,
            ∃ j, (i ≤ j < i + m * n)%nat ∧ cell = freshCell random j))
    (buildRows random m n i).
Proof.
  revert i. induction m as [|m IH]; intros i; simpl; constructor.
  - eapply Forall_impl; [apply buildRow_fresh|]. simpl.
    intros cell (j & ? & ->). exists j. split; [lia|done].
  - eapply Forall_impl; [apply IH|]. simpl. intros row Hrow.
    eapply Forall_impl; [apply Hrow|]. simpl.
    intros cell (j & ? & ->). exists j. split; [lia|done].
Qed.

Lemma buildGrid_wf cw ch w :
  let w' := buildGrid random cw ch w in
  wf_grid (grid w') (rows w') (cols w').
Proof.
  simpl. unfold wf_grid. simpl.
  destruct (buildRows_wf
    (Z.to_nat (Qceiling (inject_Z ch / inject_Z CELL_SIZE) + 1))
    (Z.to_nat (Qceiling (inject_Z cw / inject_Z CELL_SIZE) + 1))
    (draws w)) as [H1 H2].
  split; assumption.
Qed.

Lemma buildGrid_fresh cw ch w r c cell :
  let w' := buildGrid random cw ch w in
  grid_get (grid w') r c = Some cell →
  ∃ j, (draws w ≤ j < draws w')%nat ∧ cell = freshCell random j.
Proof.
  simpl. intros (_ & _ & row & Hrow & Hcell)%grid_get_Some.
  pose proof (buildRows_fresh
    (Z.to_nat (Qceiling (inject_Z ch / inject_Z CELL_SIZE) + 1))
    (Z.to_nat (Qceiling (inject_Z cw / inject_Z CELL_SIZE) + 1))
    (draws w)) as HF.
  rewrite Forall_lookup in HF. specialize (HF _ _ Hrow).
  rewrite Forall_lookup in HF. exact (HF _ _ Hcell).
Qed.

End BuildGrid.

(** ** Pointer tracker *)

Section Pointer.

Variable random : nat → Q.

(** One iteration of the loops either arms the idle cell under the offset
    or changes nothing. *)
Lemma activate_cases w d :
  wf w →
  let rr := mouseRow w + d.1 in
  let cc := mouseCol w + d.2 in
  (∃ cell,
      grid_get (grid w) rr cc = Some cell ∧ state cell = Idle ∧
      activate random w d =
        Some (mkWorld (cols w) (rows w)
                (grid_set (grid w) rr cc (arm random (draws w) cell))
                (set_add (key rr cc) (dirtySet w))
                (mouseCol w) (mouseRow w) (lastFrame w) (S (draws w)))) ∨
  (activate random w d = Some w ∧
   ∀ cell, grid_get (grid w) rr cc = Some cell → state cell ≠ Idle).
Proof.
  intros Hwf rr cc. unfold activate. fold rr cc.
  case_bool_decide as Hb.
  - destruct (in_bounds_grid_get _ _ _ rr cc Hwf) as [cell Hcell].
    { unfold in_bounds. tauto. }
    rewrite Hcell. simpl. case_decide as Hst.
    + left. exists cell. done.
    + right. split; [done|]. intros cell' [= <-]. done.
  - right. split; [done|]. intros cell Hcell.
    apply (grid_get_in_bounds _ _ _ _ _ _ Hwf) in Hcell.
    unfold in_bounds in Hcell. tauto.
Qed.

(** The effect of the two loops over any list of offsets. *)
Lemma activate_all offs w :
  wf w →
  ∃ w',
    forEachM (activate random) offs w = Some w' ∧
    wf w' ∧
    cols w' = cols w ∧ rows w' = rows w ∧
    mouseCol w' = mouseCol w ∧ mouseRow w' = mouseRow w ∧
    lastFrame w' = lastFrame w ∧
    (draws w ≤ draws w')%nat ∧
    (NoDup (dirtySet w) → NoDup (dirtySet w')) ∧
    (∀ r c cell, grid_get (grid w) r c = Some cell →
       (state cell = Idle → offset w r c ∈ offs →
          ∃ i, (draws w ≤ i < draws w')%nat ∧
               grid_get (grid w') r c = Some (arm random i cell)) ∧
       (state cell ≠ Idle ∨ offset w r c ∉ offs →
          grid_get (grid w') r c = Some cell)) ∧
    (∀ k, k ∈ dirtySet w' ↔
          k ∈ dirtySet w ∨
          ∃ r c cell, grid_get (grid w) r c = Some cell ∧
                      state cell = Idle ∧ offset w r c ∈ offs ∧
                      k = key r c).
Proof.
  revert w. induction offs as [|d offs IH]; intros w Hwf.
  { exists w. simpl. split_and!; try done; try lia.
    - intros r c cell Hcell. split; [|done].
      intros _ H. by apply elem_of_nil in H.
    - intros k. split; [auto|]. intros [H|(r & c & cell & _ & _ & H & _)];
        [done|]. by apply elem_of_nil in H. }
  simpl.
  destruct (activate_cases w d Hwf) as
    [(cell0 & Hcell0 & Hidle0 & ->)|[-> Hmiss]]; simpl.
  - (* the cell under [d] is armed *)
    set (rr := mouseRow w + d.1) in *. set (cc := mouseCol w + d.2) in *.
    set (w1 := mkWorld _ _ _ _ _ _ _ _).
    assert (Hwf1 : wf w1) by (apply grid_set_wf, Hwf).
    destruct (IH w1 Hwf1) as
      (w' & Hrun & Hwf' & Hc & Hr & Hmc & Hmr & Hlf & Hdr & Hnd & Hcells & Hkeys).
    exists w'. split_and!; try done.
    + simpl in Hdr. lia.
    + intros H. apply Hnd. simpl. by apply NoDup_set_add.
    + intros r c cell Hcell.
      destruct (decide ((r, c) = (rr, cc))) as [[= -> ->]|Hne].
      * rewrite Hcell0 in Hcell. injection Hcell as <-.
        assert (H1 : grid_get (grid w1) rr cc =
                     Some (arm random (draws w) cell0))
          by (eapply grid_get_set_eq; eauto).
        destruct (Hcells _ _ _ H1) as [_ Hkeep].
        assert (Hkept : grid_get (grid w') rr cc =
                        Some (arm random (draws w) cell0))
          by (apply Hkeep; left; discriminate).
        clear Hkeep.
        split.
        -- intros _ _. exists (draws w). split; [simpl in Hdr; lia|done].
        -- intros [?|Hnot]; [done|]. exfalso. apply Hnot.
           apply elem_of_cons. left. unfold offset, rr, cc.
           destruct d as [dr dc]. simpl. f_equal; lia.
      * assert (H1 : grid_get (grid w1) r c = Some cell)
          by (simpl; rewrite grid_get_set_ne; [done|congruence]).
        destruct (Hcells _ _ _ H1) as [Harm Hkeep].
        assert (Hoff : offset w r c ≠ d).
        { intros <-. apply Hne. unfold rr, cc, offset. simpl.
          f_equal; lia. }
        split.
        -- intros Hi [?|Ho]%elem_of_cons; [done|].
           destruct (Harm Hi Ho) as (i & Hi' & Hg).
           exists i. split; [simpl in Hi'; lia|done].
        -- intros [?|Ho]; apply Hkeep; [by left|].
           right. intros Hin. apply Ho. apply elem_of_cons. by right.
    + intros k. rewrite Hkeys. simpl. rewrite elem_of_set_add. split.
      * intros [[->|?]|(r & c & cell & Hg & Hi & Ho & ->)].
        -- right. exists rr, cc, cell0. split_and!; try done.
           apply elem_of_cons. left. unfold offset, rr, cc.
           destruct d; simpl; f_equal; lia.
        -- by left.
        -- right. exists r, c, cell.
           destruct (decide ((r, c) = (rr, cc))) as [[= -> ->]|Hne].
           ++ erewrite grid_get_set_eq in Hg by eauto.
              injection Hg as <-. done.
           ++ rewrite grid_get_set_ne in Hg by congruence.
              split_and!; try done. apply elem_of_cons. by right.
      * intros [?|(r & c & cell & Hg & Hi & [Ho|Ho]%elem_of_cons & ->)].
        -- left. by right.
        -- left. left. unfold offset in Ho. subst d. unfold rr, cc.
           simpl. f_equal; lia.
        -- destruct (decide ((r, c) = (rr, cc))) as [[= -> ->]|Hne].
           ++ left. by left.
           ++ right. exists r, c, cell.
              rewrite grid_get_set_ne by congruence. done.
  - (* nothing to arm under [d] *)
    destruct (IH w Hwf) as
      (w' & Hrun & Hwf' & Hc & Hr & Hmc & Hmr & Hlf & Hdr & Hnd & Hcells & Hkeys).
    exists w'. split_and!; try done.
    + intros r c cell Hcell. destruct (Hcells _ _ _ Hcell) as [Harm Hkeep].
      assert (Hd : offset w r c = d → state cell ≠ Idle).
      { intros <-. apply Hmiss. unfold offset. simpl.
        rewrite <- Hcell. f_equal; lia. }
      split.
      * intros Hi [Heq|Ho]%elem_of_cons; [by destruct (Hd Heq)|].
        by apply Harm.
      * intros [?|Ho]; [apply Hkeep; by left|].
        apply Hkeep. right. intros Hin. apply Ho, elem_of_cons. by right.
    + intros k. rewrite Hkeys. split.
      * intros [?|(r & c & cell & Hg & Hi & Ho & ->)]; [by left|].
        right. exists r, c, cell. split_and!; try done.
        apply elem_of_cons. by right.
      * intros [?|(r & c & cell & Hg & Hi & [Ho|Ho]%elem_of_cons & ->)];
          [by left| |].
        -- exfalso. eapply Hmiss; [|exact Hi]. rewrite <- Hg.
           subst d. unfold offset. simpl. f_equal; lia.
        -- right. exists r, c, cell. done.
Qed.

End Pointer.

Lemma elem_of_neighbourhood dr dc :
  (dr, dc) ∈ neighbourhood ↔ -1 ≤ dr ≤ 1 ∧ -1 ≤ dc ≤ 1.
Proof.
  change neighbourhood with
    [(-1, -1); (-1, 0); (-1, 1); (0, -1); (0, 0); (0, 1);
     (1, -1); (1, 0); (1, 1)].
  rewrite !elem_of_cons, elem_of_nil. split.
  - intros H. repeat destruct H as [H|H]; try done; injection H; lia.
  - intros [H1 H2].
    assert (Hr : dr = -1 ∨ dr = 0 ∨ dr = 1) by lia.
    assert (Hc : dc = -1 ∨ dc = 0 ∨ dc = 1) by lia.
    destruct Hr as [-> | [-> | ->]]; destruct Hc as [-> | [-> | ->]]; tauto.
Qed.

Section PointerMove.

Variable random : nat → Q.

Lemma onMouseMove_same mx my w :
  pointerCol mx = mouseCol w → pointerRow my = mouseRow w →
  onMouseMove random mx my w = Some w.
Proof.
  intros Hc Hr. unfold onMouseMove. fold (pointerCol mx) (pointerRow my).
  rewrite bool_decide_true; done.
Qed.

Lemma onMouseMove_moved mx my w :
  wf w →
  ¬ (pointerCol mx = mouseCol w ∧ pointerRow my = mouseRow w) →
  ∃ w',
    onMouseMove random mx my w = Some w' ∧
    wf w' ∧
    cols w' = cols w ∧ rows w' = rows w ∧
    mouseCol w' = pointerCol mx ∧ mouseRow w' = pointerRow my ∧
    lastFrame w' = lastFrame w ∧
    (draws w ≤ draws w')%nat ∧
    (NoDup (dirtySet w) → NoDup (dirtySet w')) ∧
    (∀ r c cell, grid_get (grid w) r c = Some cell →
       (state cell = Idle → in_block (pointerRow my) (pointerCol mx) r c →
          ∃ i, (draws w ≤ i < draws w')%nat ∧
               grid_get (grid w') r c = Some (arm random i cell)) ∧
       (state cell ≠ Idle ∨ ¬ in_block (pointerRow my) (pointerCol mx) r c →
          grid_get (grid w') r c = Some cell)) ∧
    (∀ k, k ∈ dirtySet w' ↔
          k ∈ dirtySet w ∨
          ∃ r c cell, grid_get (grid w) r c = Some cell ∧
                      state cell = Idle ∧
                      in_block (pointerRow my) (pointerCol mx) r c ∧
                      k = key r c).
Proof.
  intros Hwf Hne. unfold onMouseMove.
  fold (pointerCol mx) (pointerRow my).
  rewrite bool_decide_false by done.
  set (w0 := mkWorld _ _ _ _ _ _ _ _).
  assert (Hblock : ∀ r c,
            offset w0 r c ∈ neighbourhood ↔
            in_block (pointerRow my) (pointerCol mx) r c).
  { intros r c. unfold offset, in_block. simpl.
    rewrite elem_of_neighbourhood. lia. }
  destruct (activate_all random neighbourhood w0 Hwf) as
    (w' & Hrun & Hwf' & Hc & Hr & Hmc & Hmr & Hlf & Hdr & Hnd & Hcells & Hkeys).
  exists w'. split_and!; try done.
  - intros r c cell Hcell. destruct (Hcells r c cell Hcell) as [Harm Hkeep].
    split.
    + intros Hi Hb. apply Harm; [done|]. by apply Hblock.
    + intros [?|Hb]; apply Hkeep; [by left|]. right. by rewrite Hblock.
  - intros k. rewrite Hkeys. simpl. split.
    + intros [?|(r & c & cell & ? & ? & ?%Hblock & ?)]; [by left|].
      right. exists r, c, cell. done.
    + intros [?|(r & c & cell & ? & ? & ?%Hblock & ?)]; [by left|].
      right. exists r, c, cell. done.
Qed.

(** Whatever the pointer does, a cell is either left as it was or was idle
    and has been armed, its key being in the dirty set. *)
Lemma onMouseMove_cells mx my w :
  wf w →
  ∃ w',
    onMouseMove random mx my w = Some w' ∧
    wf w' ∧ cols w' = cols w ∧ rows w' = rows w ∧
    lastFrame w' = lastFrame w ∧
    (NoDup (dirtySet w) → NoDup (dirtySet w')) ∧
    (∀ k, k ∈ dirtySet w → k ∈ dirtySet w') ∧
    (∀ k, k ∈ dirtySet w' → k ∈ dirtySet w ∨ 0 ≤ k) ∧
    (∀ r c cell, grid_get (grid w) r c = Some cell →
       grid_get (grid w') r c = Some cell ∨
       (state cell = Idle ∧ key r c ∈ dirtySet w' ∧
        ∃ i, grid_get (grid w') r c = Some (arm random i cell))).
Proof.
  intros Hwf.
  destruct (decide (pointerCol mx = mouseCol w ∧ pointerRow my = mouseRow w))
    as [[Hc Hr]|Hne].
  - exists w. rewrite onMouseMove_same by done.
    split_and!; try done; auto.
  - destruct (onMouseMove_moved mx my w Hwf Hne) as
      (w' & Hrun & Hwf' & Hc & Hr & _ & _ & Hlf & _ & Hnd & Hcells & Hkeys).
    exists w'. split_and!; try done.
    + intros k Hk. apply Hkeys. by left.
    + intros k [?|(r & c & cell & Hg & _ & _ & ->)]%Hkeys; [by left|].
      right. apply grid_get_Some in Hg as (? & ? & _). unfold key. lia.
    + intros r c cell Hcell. destruct (Hcells r c cell Hcell) as [Harm Hkeep].
      destruct (decide (state cell = Idle)) as [Hi|Hi]; [|left; auto].
      destruct (decide (in_block (pointerRow my) (pointerCol mx) r c))
        as [Hb|Hb]; [|left; auto].
      right. destruct (Harm Hi Hb) as (i & _ & Hg).
      split_and!; [done| |by exists i].
      apply Hkeys. right. exists r, c, cell. done.
Qed.

End PointerMove.

(** ** Frame scheduler *)

Section Scheduler.

Variable random : nat → Q.

(** The three groups of assignments, as the records they produce. *)
Lemma arm_eq i cell :
  arm random i cell =
  {| symbol := symbol cell; origSymbol := symbol cell;
     color := color cell; state := Scramble;
     framesLeft := SCRAMBLE_FRAMES + Qfloor (random i * 3);
     settleStart := settleStart cell |}.
Proof. reflexivity. Qed.

Lemma scrambleStep_eq i now cell :
  state cell = Scramble →
  scrambleStep random i now cell =
  if bool_decide (framesLeft cell - 1 ≤ 0) then
    {| symbol := origSymbol cell; origSymbol := origSymbol cell;
       color := HOVER_COLOR; state := Settling;
       framesLeft := framesLeft cell - 1; settleStart := now |}
  else
    {| symbol := randSymbol random i; origSymbol := origSymbol cell;
       color := HOVER_COLOR; state := Scramble;
       framesLeft := framesLeft cell - 1; settleStart := settleStart cell |}.
Proof.
  intros Hst. unfold scrambleStep. cbv zeta.
  change (framesLeft (set_framesLeft _ _)) with (framesLeft cell - 1).
  case_bool_decide; [reflexivity|].
  rewrite <- Hst. reflexivity.
Qed.

Lemma settleStep_eq now cell :
  state cell = Settling →
  settleStep now cell =
  let t := settleFraction (settleStart cell) now in
  if Qle_bool 1 t then
    ({| symbol := symbol cell; origSymbol := Null;
        color := BASE_COLOR; state := Idle;
        framesLeft := framesLeft cell;
        settleStart := settleStart cell |}, true)
  else
    ({| symbol := symbol cell; origSymbol := origSymbol cell;
        color := settleColor (settleStart cell) now;
        state := Settling; framesLeft := framesLeft cell;
        settleStart := settleStart cell |}, false).
Proof.
  intros Hst. unfold settleStep, settleColor, settleFraction. cbv zeta.
  cbn [settleStart set_color].
  destruct (Qle_bool _ _); [reflexivity|].
  rewrite <- Hst. reflexivity.
Qed.

Lemma settleStep_done now cell :
  state cell = Settling →
  (settleStep now cell).2 = true ↔ state (settleStep now cell).1 = Idle.
Proof.
  intros Hst. rewrite settleStep_eq by done. cbv zeta.
  destruct (Qle_bool _ _); simpl; split; done.
Qed.

Lemma scrambleStep_not_idle i now cell :
  state cell = Scramble → state (scrambleStep random i now cell) ≠ Idle.
Proof.
  intros Hst. rewrite scrambleStep_eq by done. case_bool_decide; done.
Qed.

(** A visit that leaves a cell idle either found it idle and did not touch
    it, or has just finished settling it. *)
Lemma cellTick_idle tick now i cell :
  state (cellTick random tick now i cell) = Idle →
  cellTick random tick now i cell = cell ∨
  (color (cellTick random tick now i cell) = BASE_COLOR ∧
   origSymbol (cellTick random tick now i cell) = Null).
Proof.
  unfold cellTick. destruct (state cell) eqn:Hst.
  - by left.
  - destruct tick; [|congruence].
    intros H. by apply scrambleStep_not_idle in H.
  - rewrite settleStep_eq by done. cbv zeta.
    destruct (Qle_bool _ _); simpl; [by right|done].
Qed.

(** One visit: a stale key is queued for removal and the grid is not
    indexed; a live key has the cell it decodes to ticked, and is queued
    for removal exactly when that cell is idle afterwards. *)
Lemma visit_spec tick now nrows ncols p k :
  wf_grid (pgrid p) nrows ncols → 0 ≤ k →
  ∃ p',
    visit random tick now nrows ncols p k = Some p' ∧
    wf_grid (pgrid p') nrows ncols ∧
    (pdraws p ≤ pdraws p')%nat ∧
    (∀ x, x ∈ indexed p' →
          x ∈ indexed p ∨
          (x = decode k ∧ in_bounds nrows ncols x.1 x.2)) ∧
    (∀ r c, (r, c) ≠ decode k →
            grid_get (pgrid p') r c = grid_get (pgrid p) r c) ∧
    ((¬ in_bounds nrows ncols (decode k).1 (decode k).2 ∧
      pgrid p' = pgrid p ∧ toRemove p' = toRemove p ++ [k]) ∨
     (∃ cell i,
        in_bounds nrows ncols (decode k).1 (decode k).2 ∧
        grid_get (pgrid p) (decode k).1 (decode k).2 = Some cell ∧
        (pdraws p ≤ i)%nat ∧
        grid_get (pgrid p') (decode k).1 (decode k).2 =
          Some (cellTick random tick now i cell) ∧
        toRemove p' =
          toRemove p ++
          (if decide (state (cellTick random tick now i cell) = Idle)
           then [k] else []))).
Proof.
  intros Hwf Hk.
  destruct (decode k) as [r c] eqn:Hdec.
  destruct (key_decode k r c Hk Hdec) as (_ & Hr & Hc & _).
  unfold visit, drawCell. rewrite Hdec. simpl.
  case_bool_decide as Hb.
  { exists (push_remove k p). split_and!; try done.
    - intros x Hx. by left.
    - left. split_and!; try done. unfold in_bounds. lia. }
  assert (Hin : in_bounds nrows ncols r c) by (unfold in_bounds; lia).
  destruct (in_bounds_grid_get _ _ _ _ _ Hwf Hin) as [cell Hcell].
  rewrite Hcell. simpl.
  assert (Hlog : ∀ (l : list (Z * Z)) x,
            x ∈ l ++ [(r, c)] →
            x ∈ l ∨ x = (r, c) ∧ in_bounds nrows ncols x.1 x.2).
  { intros l x [?| ->%list_elem_of_singleton]%elem_of_app; [by left|].
    by right. }
  destruct (state cell) eqn:Hst.
  - (* idle *)
    eexists. split; [done|]. split_and!; simpl; try done.
    + intros x Hx. by apply Hlog.
    + right. exists cell, (pdraws p). unfold cellTick. rewrite Hst.
      rewrite (decide_True _ _ Hst). done.
  - (* scramble *)
    destruct tick.
    + eexists. split; [done|]. split_and!; simpl.
      * by apply grid_set_wf.
      * lia.
      * intros x [Hx|Hx]%Hlog; [|by right]. by apply Hlog.
      * intros r' c' Hne. by rewrite grid_get_set_ne.
      * right. exists cell, (pdraws p). unfold cellTick. rewrite Hst.
        split_and!; try done.
        -- by eapply grid_get_set_eq.
        -- rewrite decide_False by (by apply scrambleStep_not_idle).
           by rewrite app_nil_r.
    + eexists. split; [done|]. split_and!; simpl; try done.
      * intros x Hx. by apply Hlog.
      * right. exists cell, (pdraws p). unfold cellTick. rewrite Hst.
        split_and!; try done.
        rewrite decide_False by congruence. by rewrite app_nil_r.
  - (* settling *)
    pose proof (settleStep_done now cell Hst) as Hdone.
    destruct (settleStep now cell) as [cell' done] eqn:Hstep.
    simpl in Hdone.
    eexists. split; [done|]. split_and!.
    + destruct done; simpl; by apply grid_set_wf.
    + destruct done; simpl; lia.
    + intros x Hx.
      assert (Hx' : x ∈ (indexed p ++ [(r, c)]) ++ [(r, c)])
        by (destruct done; exact Hx).
      apply Hlog in Hx' as [Hx'|Hx']; [|by right]. by apply Hlog.
    + intros r' c' Hne. destruct done; simpl; by rewrite grid_get_set_ne.
    + right. exists cell, (pdraws p). unfold cellTick. rewrite Hst, Hstep.
      simpl. split_and!; try done.
      * destruct done; simpl; by eapply grid_get_set_eq.
      * destruct done; simpl.
        -- rewrite decide_True by (by apply Hdone). done.
        -- rewrite decide_False; [by rewrite app_nil_r|].
           intros Hi. apply Hdone in Hi. done.
Qed.

End Scheduler.

Lemma decode_inj k k' : 0 ≤ k → 0 ≤ k' → decode k = decode k' → k = k'.
Proof.
  intros Hk Hk' Heq.
  destruct (decode k') as [r c] eqn:Hd.
  destruct (key_decode k r c Hk Heq) as [-> _].
  destruct (key_decode k' r c Hk' Hd) as [-> _]. done.
Qed.

Section Pass.

Variable random : nat → Q.

Lemma pass_spec tick now nrows ncols l p :
  wf_grid (pgrid p) nrows ncols → (∀ k, k ∈ l → 0 ≤ k) → NoDup l →
  ∃ p',
    forEachM (visit random tick now nrows ncols) l p = Some p' ∧
    wf_grid (pgrid p') nrows ncols ∧
    (pdraws p ≤ pdraws p')%nat ∧
    (∀ r c cell, grid_get (pgrid p) r c = Some cell →
       ((∃ k, k ∈ l ∧ decode k = (r, c)) →
          ∃ i, (pdraws p ≤ i)%nat ∧
               grid_get (pgrid p') r c =
                 Some (cellTick random tick now i cell)) ∧
       ((∀ k, k ∈ l → decode k ≠ (r, c)) →
          grid_get (pgrid p') r c = Some cell)) ∧
    (∀ k, k ∈ toRemove p' ↔
          k ∈ toRemove p ∨ (k ∈ l ∧ dropped (pgrid p') nrows ncols k)) ∧
    (∀ x, x ∈ indexed p' →
          x ∈ indexed p ∨
          (in_bounds nrows ncols x.1 x.2 ∧ ∃ k, k ∈ l ∧ decode k = x)).
Proof.
  revert p. induction l as [|k0 l IH]; intros p Hwf Hpos Hnd.
  { exists p. simpl. split_and!; [done|done|lia| | |].
    - intros r c cell Hcell. split; [|done].
      intros (k & Hk & _). by apply elem_of_nil in Hk.
    - intros k. split; [by left|]. intros [?|[Hk _]]; [done|].
      by apply elem_of_nil in Hk.
    - intros x Hx. by left. }
  apply NoDup_cons in Hnd as [Hk0 Hnd].
  assert (Hk0pos : 0 ≤ k0) by (apply Hpos, elem_of_cons; by left).
  assert (Hpos' : ∀ k, k ∈ l → 0 ≤ k)
    by (intros k Hk; apply Hpos, elem_of_cons; by right).
  destruct (visit_spec random tick now nrows ncols p k0 Hwf Hk0pos) as
    (p1 & Hvisit & Hwf1 & Hdr1 & Hidx1 & Hother1 & Hcase).
  destruct (IH p1 Hwf1 Hpos' Hnd) as
    (p' & Hrun & Hwf' & Hdr' & Hcells & Hrem & Hidx).
  assert (Hfresh : ∀ k, k ∈ l → decode k ≠ decode k0).
  { intros k Hk Heq. apply Hk0.
    rewrite <- (decode_inj k k0); auto. }
  exists p'. simpl. rewrite Hvisit. simpl.
  split_and!; [done|done|lia| | |].
  - (* cells *)
    intros r c cell Hcell.
    destruct (decide (decode k0 = (r, c))) as [Hd|Hd].
    + split; [|intros Hno; destruct (Hno k0); [apply elem_of_cons; by left|done]].
      intros _. destruct Hcase as [(Hout & _)|(cell0 & i & _ & Hc0 & Hi & Hc1 & _)].
      { exfalso. apply Hout. rewrite Hd. simpl.
        exact (grid_get_in_bounds _ _ _ _ _ _ Hwf Hcell). }
      rewrite Hd in Hc0, Hc1. simpl in Hc0, Hc1.
      rewrite Hcell in Hc0. injection Hc0 as <-.
      exists i. split; [done|].
      apply (Hcells r c _ Hc1). intros k Hk. rewrite <- Hd. by apply Hfresh.
    + assert (Hc1 : grid_get (pgrid p1) r c = Some cell)
        by (rewrite Hother1; [done|congruence]).
      destruct (Hcells r c cell Hc1) as [Hhit Hmiss]. split.
      * intros (k & [->|Hk]%elem_of_cons & Hdk); [done|].
        destruct Hhit as (i & Hi & Hg); [by exists k|].
        exists i. split; [lia|done].
      * intros Hno. apply Hmiss. intros k Hk. apply Hno, elem_of_cons.
        by right.
  - (* removals *)
    intros k. rewrite Hrem.
    assert (Hk0rem : k0 ∈ toRemove p1 ↔
                     k0 ∈ toRemove p ∨ dropped (pgrid p') nrows ncols k0).
    { destruct Hcase as [(Hout & _ & ->)|(cell0 & i & Hin & Hc0 & _ & Hc1 & ->)].
      - rewrite elem_of_app, list_elem_of_singleton. split; [|tauto].
        intros _. right. by left.
      - assert (Hfin : grid_get (pgrid p') (decode k0).1 (decode k0).2 =
                       Some (cellTick random tick now i cell0)).
        { apply (Hcells _ _ _ Hc1). intros k' Hk'.
          rewrite <- surjective_pairing. by apply Hfresh. }
        rewrite elem_of_app. unfold dropped. rewrite Hfin.
        case_decide as Hst.
        + rewrite list_elem_of_singleton. split; [|tauto].
          intros _. right. right. eauto.
        + rewrite elem_of_nil. split; [tauto|].
          intros [?|[?|(cell' & [= <-] & ?)]]; tauto. }
    assert (Hother : k ≠ k0 → (k ∈ toRemove p1 ↔ k ∈ toRemove p)).
    { intros Hne.
      destruct Hcase as [(_ & _ & ->)|(cell0 & i & _ & _ & _ & _ & ->)].
      - rewrite elem_of_app, list_elem_of_singleton. tauto.
      - rewrite elem_of_app. case_decide.
        + rewrite list_elem_of_singleton. tauto.
        + rewrite elem_of_nil. tauto. }
    rewrite elem_of_cons.
    destruct (decide (k = k0)) as [->|Hne].
    + rewrite Hk0rem. tauto.
    + rewrite (Hother Hne). tauto.
  - (* indexing *)
    intros x [Hx|(Hb & k & Hk & Hdk)]%Hidx.
    + apply Hidx1 in Hx as [Hx|[-> Hb]]; [by left|].
      right. split; [done|]. exists k0. split; [|done].
      apply elem_of_cons. by left.
    + right. split; [done|]. exists k. split; [|done].
      apply elem_of_cons. by right.
Qed.

End Pass.

(** ** The invariant of the running engine *)

Section Animate.

Variable random : nat → Q.

Lemma animate_spec now w :
  wf w → NoDup (dirtySet w) → (∀ k, k ∈ dirtySet w → 0 ≤ k) →
  ∃ p w',
    animate_pass random now w = Some p ∧
    animate random now w = Some w' ∧
    wf w' ∧ cols w' = cols w ∧ rows w' = rows w ∧
    mouseCol w' = mouseCol w ∧ mouseRow w' = mouseRow w ∧
    grid w' = pgrid p ∧
    lastFrame w' = (if doScrambleTick now w then now else lastFrame w) ∧
    NoDup (dirtySet w') ∧
    (∀ k, k ∈ dirtySet w' ↔
          k ∈ dirtySet w ∧ ¬ dropped (grid w') (rows w) (cols w) k) ∧
    (∀ r c cell, grid_get (grid w) r c = Some cell →
       ((∃ k, k ∈ dirtySet w ∧ decode k = (r, c)) →
          ∃ i, grid_get (grid w') r c =
                 Some (cellTick random (doScrambleTick now w) now i cell)) ∧
       ((∀ k, k ∈ dirtySet w → decode k ≠ (r, c)) →
          grid_get (grid w') r c = Some cell)) ∧
    (∀ x, x ∈ indexed p →
          in_bounds (rows w) (cols w) x.1 x.2 ∧
          ∃ k, k ∈ dirtySet w ∧ decode k = x).
Proof.
  intros Hwf Hnd Hpos.
  destruct (pass_spec random (doScrambleTick now w) now (rows w) (cols w)
              (dirtySet w) (mkPass (grid w) (draws w) [] []) Hwf Hpos Hnd)
    as (p & Hrun & Hwf' & _ & Hcells & Hrem & Hidx).
  cbn [pgrid pdraws toRemove indexed] in Hcells, Hrem, Hidx.
  exists p,
    (mkWorld (cols w) (rows w) (pgrid p)
       (foldl (λ s k, set_delete k s) (dirtySet w) (toRemove p))
       (mouseCol w) (mouseRow w)
       (if doScrambleTick now w then now else lastFrame w) (pdraws p)).
  unfold animate, animate_pass. rewrite Hrun.
  cbn [mbind option_bind cols rows grid dirtySet mouseCol mouseRow
       lastFrame draws].
  split_and!; try done.
  - by apply NoDup_delete_all.
  - intros k. rewrite elem_of_delete_all, Hrem, elem_of_nil. tauto.
  - intros r c cell Hcell. destruct (Hcells r c cell Hcell) as [Hhit Hmiss].
    split; [|done]. intros Hk. destruct (Hhit Hk) as (i & _ & Hg). eauto.
  - intros x [Hx|Hx]%Hidx; [|done]. by apply elem_of_nil in Hx.
Qed.

Lemma Inv_buildGrid cw ch w :
  NoDup (dirtySet w) → (∀ k, k ∈ dirtySet w → 0 ≤ k) →
  Inv (buildGrid random cw ch w).
Proof.
  intros Hnd Hpos. split.
  - apply buildGrid_wf.
  - done.
  - done.
  - intros r c cell (j & _ & ->)%buildGrid_fresh Hst. done.
  - intros r c cell (j & _ & ->)%buildGrid_fresh Hst. done.
  - intros r c cell (j & _ & ->)%buildGrid_fresh Hst. done.
Qed.

Lemma Inv_onMouseMove mx my w w' :
  Inv w → onMouseMove random mx my w = Some w' → Inv w'.
Proof.
  intros [Hwf Hnd Hpos Htr Hse Hid] Hmove.
  destruct (onMouseMove_cells random mx my w Hwf) as
    (w'' & Hrun & Hwf' & Hc & Hr & _ & Hnd' & Hsub & Hnew & Hcells).
  rewrite Hmove in Hrun. injection Hrun as <-.
  assert (Hback : ∀ r c cell', grid_get (grid w') r c = Some cell' →
            ∃ cell, grid_get (grid w) r c = Some cell).
  { intros r c cell' Hg. apply (in_bounds_grid_get _ (rows w) (cols w));
      [done|]. rewrite <- Hc, <- Hr. by eapply grid_get_in_bounds. }
  split.
  - done.
  - auto.
  - intros k [?|?]%Hnew; auto.
  - intros r c cell' Hg Hst Hlt.
    destruct (Hback r c cell' Hg) as [cell Hcell].
    destruct (Hcells r c cell Hcell) as [Hsame|(_ & Hk & _)]; [|done].
    rewrite Hg in Hsame. injection Hsame as ->. eauto.
  - intros r c cell' Hg Hst.
    destruct (Hback r c cell' Hg) as [cell Hcell].
    destruct (Hcells r c cell Hcell) as [Hsame|(_ & _ & i & Harm)].
    + rewrite Hg in Hsame. injection Hsame as ->. eauto.
    + rewrite Hg in Harm. injection Harm as ->. done.
  - intros r c cell' Hg Hst.
    destruct (Hback r c cell' Hg) as [cell Hcell].
    destruct (Hcells r c cell Hcell) as [Hsame|(_ & _ & i & Harm)].
    + rewrite Hg in Hsame. injection Hsame as ->. eauto.
    + rewrite Hg in Harm. injection Harm as ->. done.
Qed.

Lemma Inv_animate now w :
  Inv w → ∃ w', animate random now w = Some w' ∧ Inv w' ∧ pruned w'.
Proof.
  intros [Hwf Hnd Hpos Htr Hse Hid].
  destruct (animate_spec now w Hwf Hnd Hpos) as
    (p & w' & _ & Hrun & Hwf' & Hc & Hr & _ & _ & _ & _ & Hnd' & Hkeys &
     Hcells & _).
  exists w'. split; [done|].
  assert (Hback : ∀ r c cell', grid_get (grid w') r c = Some cell' →
            ∃ cell, grid_get (grid w) r c = Some cell).
  { intros r c cell' Hg. apply (in_bounds_grid_get _ (rows w) (cols w));
      [done|]. rewrite <- Hc, <- Hr. by eapply grid_get_in_bounds. }
  assert (Hhigh : ∀ r c, ¬ c < 10000 →
            ∀ k, k ∈ dirtySet w → decode k ≠ (r, c)).
  { intros r c Hc' k Hk Hd.
    destruct (key_decode k r c (Hpos k Hk) Hd) as (_ & _ & _ & ?). done. }
  split; [split|].
  - done.
  - done.
  - intros k [Hk _]%Hkeys. auto.
  - intros r c cell' Hg Hst Hlt.
    destruct (Hback r c cell' Hg) as [cell Hcell].
    pose proof Hcell as (Hr0 & Hc0 & _)%grid_get_Some.
    destruct (Hcells r c cell Hcell) as [Hhit Hmiss].
    assert (Hk : key r c ∈ dirtySet w).
    { destruct (decide (key r c ∈ dirtySet w)) as [|Hno]; [done|].
      assert (Hsame : grid_get (grid w') r c = Some cell).
      { apply Hmiss. intros k Hk Hd.
        destruct (key_decode k r c (Hpos k Hk) Hd) as [-> _]. done. }
      rewrite Hg in Hsame. injection Hsame as ->. eauto. }
    apply Hkeys. split; [done|].
    unfold dropped. rewrite decode_key by done. simpl.
    intros [Hout|(cell'' & Hg'' & Hidle)].
    + apply Hout. eapply grid_get_in_bounds; [exact Hwf|exact Hcell].
    + rewrite Hg in Hg''. injection Hg'' as <-. done.
  - intros r c cell' Hg Hst.
    destruct (decide (c < 10000)) as [|Hge]; [done|].
    destruct (Hback r c cell' Hg) as [cell Hcell].
    destruct (Hcells r c cell Hcell) as [_ Hmiss].
    rewrite (Hmiss (Hhigh r c Hge)) in Hg. injection Hg as ->. eauto.
  - intros r c cell' Hg Hst.
    destruct (Hback r c cell' Hg) as [cell Hcell].
    pose proof Hcell as (Hr0 & Hc0 & _)%grid_get_Some.
    destruct (Hcells r c cell Hcell) as [Hhit Hmiss].
    destruct (decide (c < 10000 ∧ key r c ∈ dirtySet w)) as [[Hlt Hk]|Hno].
    + destruct Hhit as (i & Hg'); [exists (key r c); by rewrite decode_key|].
      rewrite Hg in Hg'. injection Hg' as ->.
      destruct (cellTick_idle random _ _ _ _ Hst) as [Hold|Hnew]; [|done].
      rewrite Hold in Hst |- *. eauto.
    + rewrite Hmiss in Hg; [injection Hg as ->; eauto|].
      intros k Hk Hd.
      destruct (key_decode k r c (Hpos k Hk) Hd) as (-> & _ & _ & Hlt). tauto.
  - intros k [_ Hk]%Hkeys. rewrite Hc, Hr. done.
Qed.

Lemma Inv_handle e w w' :
  Inv w → handle random e w = Some w' → Inv w'.
Proof.
  intros HI He. destruct e as [cw ch|mx my| |now]; simpl in He.
  - injection He as <-. destruct HI. by apply Inv_buildGrid.
  - by eapply Inv_onMouseMove.
  - injection He as <-. by destruct HI.
  - destruct (Inv_animate now w HI) as (w'' & Hrun & HI' & _).
    rewrite He in Hrun. by injection Hrun as <-.
Qed.

Lemma reachable_Inv w : reachable random w → Inv w.
Proof.
  induction 1 as [cw ch|e w w' _ IH He].
  - apply Inv_buildGrid; [apply NoDup_nil_2|].
    intros k Hk. by apply elem_of_nil in Hk.
  - by eapply Inv_handle.
Qed.

(** The engine never throws: every handler returns on a reachable world. *)
Lemma handle_total e w : Inv w → is_Some (handle random e w).
Proof.
  intros HI. destruct e as [cw ch|mx my| |now]; simpl; [done| |done|].
  - destruct (onMouseMove_cells random mx my w (inv_wf w HI)) as (w' & -> & _).
    done.
  - destruct (Inv_animate now w HI) as (w' & -> & _). done.
Qed.

End Animate.

(** ** Following one cell through the events *)

Section Cell.

Variable random : nat → Q.

(** A tick visits every animating cell in a column below 10000. *)
Lemma tick_cell now w r c cell :
  Inv w → grid_get (grid w) r c = Some cell → c < 10000 →
  state cell ≠ Idle →
  ∃ w' i,
    animate random now w = Some w' ∧ Inv w' ∧
    grid_get (grid w') r c =
      Some (cellTick random (doScrambleTick now w) now i cell) ∧
    (key r c ∈ dirtySet w' ↔
     state (cellTick random (doScrambleTick now w) now i cell) ≠ Idle).
Proof.
  intros HI Hcell Hlt Hst.
  destruct (Inv_animate random now w HI) as (w' & Hrun & HI' & Hpruned).
  destruct HI as [Hwf Hnd Hpos Htr _ _].
  destruct (animate_spec random now w Hwf Hnd Hpos) as
    (p & w'' & _ & Hrun' & _ & _ & _ & _ & _ & _ & _ & _ & Hkeys & Hcells & _).
  rewrite Hrun in Hrun'. injection Hrun' as <-.
  pose proof Hcell as (Hr0 & Hc0 & _)%grid_get_Some.
  pose proof (Htr r c cell Hcell Hst Hlt) as Hk.
  destruct (Hcells r c cell Hcell) as [Hhit _].
  destruct Hhit as (i & Hg); [exists (key r c); by rewrite decode_key|].
  exists w', i. split_and!; try done.
  rewrite Hkeys. unfold dropped. rewrite decode_key by done. simpl.
  rewrite Hg. split.
  - intros [_ Hkeep] Hidle. apply Hkeep. right. eauto.
  - intros Hne. split; [done|]. intros [Hout|(cell' & [= <-] & Hidle)].
    + apply Hout. by eapply grid_get_in_bounds.
    + done.
Qed.

(** Events other than a rebuild and a tick leave an animating cell alone. *)
Lemma pointer_keeps_cell e w w' r c cell :
  Inv w → handle random e w = Some w' → isResize e = false →
  (∀ now, e ≠ Frame now) →
  grid_get (grid w) r c = Some cell → state cell ≠ Idle →
  grid_get (grid w') r c = Some cell.
Proof.
  intros HI He Hres Hframe Hcell Hst.
  destruct e as [cw ch|mx my| |now]; simpl in He.
  - done.
  - destruct (onMouseMove_cells random mx my w (inv_wf w HI)) as
      (w'' & Hrun & _ & _ & _ & _ & _ & _ & _ & Hcells).
    rewrite He in Hrun. injection Hrun as <-.
    destruct (Hcells r c cell Hcell) as [?|(? & _)]; done.
  - by injection He as <-.
  - by destruct (Hframe now).
Qed.

Lemma run_app es es' w :
  run random (es ++ es') w = w' ← run random es w; run random es' w'.
Proof.
  revert w. induction es as [|e es IH]; intros w; simpl; [done|].
  destruct (handle random e w) as [w1|]; simpl; [apply IH|done].
Qed.

Lemma scrambleTicks_app es es' w w' :
  run random es w = Some w' →
  scrambleTicks random (es ++ es') w =
    (scrambleTicks random es w + scrambleTicks random es' w')%nat.
Proof.
  revert w. induction es as [|e es IH]; intros w; simpl.
  - by intros [= <-].
  - destruct (handle random e w) as [w1|]; simpl; [|done].
    intros Hrun. rewrite (IH w1 Hrun). lia.
Qed.

(** While fewer scramble ticks have fired than the counter holds, the cell
    keeps scrambling and the counter has gone down by their number. *)
Lemma countdown r c es :
  ∀ w cell,
    Inv w → grid_get (grid w) r c = Some cell → c < 10000 →
    state cell = Scramble → noResize es →
    Z.of_nat (scrambleTicks random es w) < framesLeft cell →
    ∃ w' cell',
      run random es w = Some w' ∧ Inv w' ∧
      grid_get (grid w') r c = Some cell' ∧
      state cell' = Scramble ∧
      framesLeft cell' =
        framesLeft cell - Z.of_nat (scrambleTicks random es w) ∧
      origSymbol cell' = origSymbol cell.
Proof.
  induction es as [|e es IH]; intros w cell HI Hcell Hlt Hst Hres Hn.
  { exists w, cell. simpl in *. split_and!; try done. lia. }
  apply Forall_cons in Hres as [Hres Hres'].
  destruct (handle_total random e w HI) as [w1 He].
  pose proof (Inv_handle random e w w1 HI He) as HI1.
  simpl in Hn |- *. rewrite He in Hn |- *. simpl.
  destruct e as [cw ch|mx my| |now]; [done| | |].
  1, 2: assert (Hcell1 : grid_get (grid w1) r c = Some cell)
      by (eapply (pointer_keeps_cell _ w w1);
          [exact HI|exact He|done|done|exact Hcell|congruence]);
    destruct (IH w1 cell HI1 Hcell1 Hlt Hst Hres') as
      (w' & cell' & Hrun & HI' & Hg & Hst' & Hfl & Ho); [exact Hn|];
    exists w', cell'; split_and!; done.
  simpl in He.
  destruct (tick_cell now w r c cell HI Hcell Hlt) as
    (w1' & i & Hrun & _ & Hcell1 & _); [congruence|].
  rewrite He in Hrun. injection Hrun as <-.
  unfold cellTick in Hcell1. rewrite Hst in Hcell1.
  destruct (doScrambleTick now w).
  - rewrite scrambleStep_eq in Hcell1 by done.
    rewrite bool_decide_false in Hcell1 by lia.
    destruct (IH w1 _ HI1 Hcell1 Hlt eq_refl Hres') as
      (w' & cell' & Hrun & HI' & Hg & Hst' & Hfl & Ho).
    { simpl. lia. }
    simpl in Hfl, Ho. exists w', cell'. split_and!; try done. lia.
  - destruct (IH w1 _ HI1 Hcell1 Hlt Hst Hres') as
      (w' & cell' & Hrun & HI' & Hg & Hst' & Hfl & Ho); [lia|].
    exists w', cell'. split_and!; try done.
Qed.

(** The two uses of [Math.random()] under its range. *)
Lemma jitter_range i :
  unit_interval random → 0 ≤ Qfloor (random i * 3) ≤ 2.
Proof.
  intros Hu. destruct (Hu i) as [H0 H1]. split.
  - assert (H : (0 <= random i * 3)%Q) by lra.
    apply Qfloor_resp_le in H. exact H.
  - assert (H : Qfloor (random i * 3) < 3); [|lia].
    rewrite Zlt_Qlt. eapply Qle_lt_trans; [apply Qfloor_le|].
    change (inject_Z 3) with 3%Q. lra.
Qed.

Lemma randSymbol_glyph i :
  unit_interval random → ∃ ch, randSymbol random i = Glyph ch ∧ ch ∈ SYMBOLS.
Proof.
  intros Hu. destruct (Hu i) as [H0 H1]. unfold randSymbol.
  change (inject_Z (Z.of_nat (length SYMBOLS))) with 25%Q.
  assert (Hlo : 0 ≤ Qfloor (random i * 25)).
  { assert (H : (0 <= random i * 25)%Q) by lra.
    apply Qfloor_resp_le in H. exact H. }
  assert (Hhi : Qfloor (random i * 25) < 25).
  { rewrite Zlt_Qlt. eapply Qle_lt_trans; [apply Qfloor_le|].
    change (inject_Z 25) with 25%Q. lra. }
  destruct (index SYMBOLS (Qfloor (random i * 25))) as [ch|] eqn:Hidx.
  - exists ch. split; [done|]. apply index_Some in Hidx as [_ Hl].
    eapply list_elem_of_lookup_2, Hl.
  - exfalso. unfold index in Hidx.
    destruct (Z.ltb_spec (Qfloor (random i * 25)) 0); [lia|].
    apply lookup_ge_None in Hidx.
    change (length SYMBOLS) with 25%nat in Hidx. lia.
Qed.

Lemma animate_only_removes now w w' k :
  animate random now w = Some w' → k ∈ dirtySet w' → k ∈ dirtySet w.
Proof.
  unfold animate. intros H. apply bind_Some in H as (p & _ & [= <-]).
  cbn [dirtySet]. rewrite elem_of_delete_all. tauto.
Qed.

End Cell.

(** ** Colour helpers *)

Lemma toInt32_small z : - 2 ^ 31 ≤ z < 2 ^ 31 → toInt32 z = z.
Proof. intros H. unfold toInt32. rewrite Z.mod_small; lia. Qed.

Lemma lor_disjoint a y k :
  0 ≤ k → 0 ≤ y < 2 ^ k → Z.lor (a * 2 ^ k) y = a * 2 ^ k + y.
Proof.
  intros Hk Hy. symmetry. apply Z.add_nocarry_lor.
  apply Z.bits_inj'. intros n Hn.
  rewrite Z.land_spec, Z.bits_0.
  destruct (Z.lt_ge_cases n k) as [Hlt|Hge].
  - rewrite Z.mul_pow2_bits_low by done. done.
  - assert (Hhigh : Z.testbit y n = false); [|by rewrite Hhigh, andb_false_r].
    destruct (decide (y = 0)) as [->|Hne]; [apply Z.bits_0|].
    apply Z.bits_above_log2; [lia|].
    apply Z.log2_lt_pow2; [lia|].
    eapply Z.lt_le_trans; [apply Hy|]. apply Z.pow_le_mono_r; lia.
Qed.

(** The number [rgbToHex] prints. *)
Lemma pack_rgb r g b :
  0 ≤ r ≤ 255 → 0 ≤ g ≤ 255 → 0 ≤ b ≤ 255 →
  js_or (js_or (js_or (js_shl 1 24) (js_shl r 16)) (js_shl g 8)) b =
  2 ^ 24 + r * 2 ^ 16 + g * 2 ^ 8 + b.
Proof.
  intros Hr Hg Hb. unfold js_or, js_shl.
  rewrite !Z.shiftl_mul_pow2 by lia.
  rewrite (toInt32_small 1), (toInt32_small r), (toInt32_small g),
    (toInt32_small b) by lia.
  rewrite !(toInt32_small (1 * 2 ^ 24)), !(toInt32_small (r * 2 ^ 16)),
    !(toInt32_small (g * 2 ^ 8)) by lia.
  rewrite (lor_disjoint 1 (r * 2 ^ 16) 24) by lia.
  rewrite (toInt32_small (1 * 2 ^ 24 + r * 2 ^ 16)) by lia.
  replace (1 * 2 ^ 24 + r * 2 ^ 16) with ((2 ^ 8 + r) * 2 ^ 16) by lia.
  rewrite (lor_disjoint (2 ^ 8 + r) (g * 2 ^ 8) 16) by lia.
  rewrite (toInt32_small ((2 ^ 8 + r) * 2 ^ 16 + g * 2 ^ 8)) by lia.
  replace ((2 ^ 8 + r) * 2 ^ 16 + g * 2 ^ 8)
    with (((2 ^ 8 + r) * 2 ^ 8 + g) * 2 ^ 8) by lia.
  rewrite lor_disjoint by lia. lia.
Qed.

Lemma hex_digit_cases d :
  0 ≤ d < 16 →
  d = 0 ∨ d = 1 ∨ d = 2 ∨ d = 3 ∨ d = 4 ∨ d = 5 ∨ d = 6 ∨ d = 7 ∨
  d = 8 ∨ d = 9 ∨ d = 10 ∨ d = 11 ∨ d = 12 ∨ d = 13 ∨ d = 14 ∨ d = 15.
Proof. lia. Qed.

Lemma hexBefore_step n d rest :
  0 < n → 0 ≤ d < 16 →
  hexBefore (16 * n + d) rest = hexBefore n (String (hexDigit d) rest).
Proof.
  intros Hn Hd. destruct n as [|p|p]; try lia.
  destruct (hex_digit_cases d Hd) as
    [-> | [-> | [-> | [-> | [-> | [-> | [-> | [-> | [-> | [-> | [-> |
     [-> | [-> | [-> | [-> | ->]]]]]]]]]]]]]]]; reflexivity.
Qed.

Lemma hexBefore_div n rest :
  16 ≤ n →
  hexBefore n rest = hexBefore (n / 16) (String (hexDigit (n mod 16)) rest).
Proof.
  intros Hn. rewrite <- hexBefore_step.
  - f_equal. apply Z.div_mod. lia.
  - apply Z.div_str_pos. lia.
  - apply Z.mod_pos_bound. lia.
Qed.

Lemma digit_of_hexDigit d :
  0 ≤ d < 16 → HexString.ascii_to_digit (hexDigit d) = Some (Z.to_N d).
Proof.
  intros Hd.
  destruct (hex_digit_cases d Hd) as
    [-> | [-> | [-> | [-> | [-> | [-> | [-> | [-> | [-> | [-> | [-> |
     [-> | [-> | [-> | [-> | ->]]]]]]]]]]]]]]]; reflexivity.
Qed.

(** The six digits printed for a number of [[2^24, 2^25)] after its leading
    [1], and what [parseInt] reads back from them. *)
Lemma parse_print n :
  2 ^ 24 ≤ n < 2 ^ 25 → parseInt16 (slice1 (toString16 n)) = n - 2 ^ 24.
Proof.
  intros Hn.
  assert (Hs : toString16 n = hexBefore n "") by (destruct n; [lia|done|lia]).
  rewrite Hs.
  set (n1 := n / 16). set (n2 := n1 / 16). set (n3 := n2 / 16).
  set (n4 := n3 / 16). set (n5 := n4 / 16).
  assert (Hd : n1 = n / 16 ∧ n2 = n1 / 16 ∧ n3 = n2 / 16 ∧ n4 = n3 / 16 ∧
               n5 = n4 / 16) by done.
  clearbody n1 n2 n3 n4 n5.
  assert (H6 : n5 / 16 = 1) by (Z.div_mod_to_equations; lia).
  assert (16 ≤ n1 ∧ 16 ≤ n2 ∧ 16 ≤ n3 ∧ 16 ≤ n4 ∧ 16 ≤ n5)
    as (? & ? & ? & ? & ?) by (Z.div_mod_to_equations; lia).
  destruct Hd as (Hn1 & Hn2 & Hn3 & Hn4 & Hn5).
  rewrite (hexBefore_div n), <- Hn1 by lia.
  rewrite (hexBefore_div n1), <- Hn2 by lia.
  rewrite (hexBefore_div n2), <- Hn3 by lia.
  rewrite (hexBefore_div n3), <- Hn4 by lia.
  rewrite (hexBefore_div n4), <- Hn5 by lia.
  rewrite (hexBefore_div n5), H6 by lia.
  cbn [hexBefore HexString.Raw.of_pos slice1].
  unfold parseInt16. cbn [HexString.Raw.to_N].
  rewrite !digit_of_hexDigit by (apply Z.mod_pos_bound; lia).
  Z.div_mod_to_equations. lia.
Qed.

Lemma slice1_cons a s : slice1 (String a s) = s.
Proof. reflexivity. Qed.

Lemma unpack_rgb r g b :
  0 ≤ r ≤ 255 → 0 ≤ g ≤ 255 → 0 ≤ b ≤ 255 →
  ∀ v, v = r * 65536 + g * 256 + b →
  js_and (js_shr v 16) 255 = r ∧ js_and (js_shr v 8) 255 = g ∧
  js_and v 255 = b.
Proof.
  intros Hr Hg Hb v Hv.
  assert (H16 : v / 65536 = r) by (subst v; Z.div_mod_to_equations; lia).
  assert (H8 : v / 256 = r * 256 + g)
    by (subst v; Z.div_mod_to_equations; lia).
  assert (Hsmall : ∀ z, 0 ≤ z < 16777216 → toInt32 z = z)
    by (intros z Hz; apply toInt32_small; lia).
  unfold js_and, js_shr.
  rewrite (Hsmall v) by lia.
  rewrite !Z.shiftr_div_pow2 by lia.
  change (2 ^ 16) with 65536. change (2 ^ 8) with 256.
  rewrite H16, H8.
  rewrite (Hsmall r), (Hsmall (r * 256 + g)), (Hsmall 255) by lia.
  change 255 with (Z.ones 8). rewrite !Z.land_ones by lia.
  change (2 ^ 8) with 256.
  split_and!; Z.div_mod_to_equations; lia.
Qed.

Lemma parse_packed r g b :
  0 ≤ r ≤ 255 → 0 ≤ g ≤ 255 → 0 ≤ b ≤ 255 →
  parseInt16
    (slice1 (toString16
       (js_or (js_or (js_or (js_shl 1 24) (js_shl r 16)) (js_shl g 8)) b))) =
  r * 65536 + g * 256 + b.
Proof.
  intros Hr Hg Hb. rewrite pack_rgb by done.
  rewrite parse_print by lia. lia.
Qed.

Lemma hexToRGB_rgbToHex r g b :
  0 ≤ r ≤ 255 → 0 ≤ g ≤ 255 → 0 ≤ b ≤ 255 →
  hexToRGB (rgbToHex r g b) = (r, g, b).
Proof.
  intros Hr Hg Hb.
  destruct (unpack_rgb r g b Hr Hg Hb
              (parseInt16 (slice1 (rgbToHex r g b)))) as (H1 & H2 & H3).
  { unfold rgbToHex. rewrite slice1_cons. by apply parse_packed. }
  unfold hexToRGB. by rewrite H1, H2, H3.
Qed.

Lemma hover_rgb : hexToRGB HOVER_COLOR = (136, 136, 136).
Proof. reflexivity. Qed.

Lemma base_rgb : hexToRGB BASE_COLOR = (224, 224, 224).
Proof. reflexivity. Qed.

Lemma lerpChannels_tone t :
  lerpChannels HOVER_COLOR BASE_COLOR t = (tone t, tone t, tone t).
Proof. unfold lerpChannels. rewrite hover_rgb, base_rgb. reflexivity. Qed.

Lemma tone_mono t1 t2 : (t1 <= t2)%Q → tone t1 ≤ tone t2.
Proof.
  intros H. unfold tone, round. apply Qfloor_resp_le.
  change (inject_Z 136) with 136%Q. change (inject_Z (224 - 136)) with 88%Q.
  lra.
Qed.

Lemma tone_0 t : (t == 0)%Q → tone t = 136.
Proof.
  intros H. unfold tone, round.
  change (inject_Z 136) with 136%Q. change (inject_Z (224 - 136)) with 88%Q.
  rewrite H. reflexivity.
Qed.

Lemma tone_1 t : (t == 1)%Q → tone t = 224.
Proof.
  intros H. unfold tone, round.
  change (inject_Z 136) with 136%Q. change (inject_Z (224 - 136)) with 88%Q.
  rewrite H. reflexivity.
Qed.

Lemma tone_range t : (0 <= t)%Q → (t <= 1)%Q → 136 ≤ tone t ≤ 224.
Proof.
  intros H0 H1. split.
  - rewrite <- (tone_0 0) by reflexivity. by apply tone_mono.
  - rewrite <- (tone_1 1) by reflexivity. by apply tone_mono.
Qed.

Lemma easeOutCubic_cube t :
  (easeOutCubic t == 1 - (1 - t) * (1 - t) * (1 - t))%Q.
Proof. unfold easeOutCubic. simpl. ring. Qed.

Lemma easeOutCubic_mono t1 t2 :
  (t1 <= t2)%Q → (easeOutCubic t1 <= easeOutCubic t2)%Q.
Proof.
  intros H. rewrite !easeOutCubic_cube.
  set (a := (1 - t2)%Q). set (b := (1 - t1)%Q).
  assert (Hab : (a <= b)%Q) by (subst a b; lra).
  assert (Hsq : (0 <= (a + b) * (a + b) + a * a + b * b)%Q) by nra.
  assert (Hcube : (0 <= (b - a) * ((a + b) * (a + b) + a * a + b * b))%Q).
  { apply Qmult_le_0_compat; [lra|done]. }
  nra.
Qed.

Lemma easeOutCubic_range t :
  (0 <= t)%Q → (t <= 1)%Q →
  (0 <= easeOutCubic t)%Q ∧ (easeOutCubic t <= 1)%Q.
Proof.
  intros H0 H1. split.
  - eapply Qle_trans; [|apply (easeOutCubic_mono 0 t H0)]. done.
  - eapply Qle_trans; [apply (easeOutCubic_mono t 1 H1)|]. done.
Qed.

Lemma settleFraction_range start now :
  (start <= now)%Q →
  (0 <= settleFraction start now)%Q ∧ (settleFraction start now <= 1)%Q.
Proof.
  intros H. unfold settleFraction, SETTLE_DURATION.
  destruct (Q.min_spec ((now - start) / 400) 1) as [[Hlt ->]|[Hle ->]];
    split; try lra.
  apply Qle_shift_div_l; lra.
Qed.

Lemma settleFraction_mono start t1 t2 :
  (t1 <= t2)%Q →
  (settleFraction start t1 <= settleFraction start t2)%Q.
Proof.
  intros H. unfold settleFraction, SETTLE_DURATION.
  apply Q.min_le_compat_r.
  unfold Qdiv. apply Qmult_le_compat_r; [lra|done].
Qed.

Lemma settleFraction_running start now :
  (now - start < SETTLE_DURATION)%Q →
  (settleFraction start now == (now - start) / SETTLE_DURATION)%Q ∧
  Qle_bool 1 (settleFraction start now) = false.
Proof.
  unfold settleFraction, SETTLE_DURATION. intros H.
  assert (Hlt : ((now - start) / 400 < 1)%Q)
    by (apply Qlt_shift_div_r; lra).
  rewrite Q.min_l by lra. split; [reflexivity|].
  destruct (Qle_bool 1 ((now - start) / 400)) eqn:Hb; [|done].
  apply Qle_bool_iff in Hb. lra.
Qed.

Lemma settleFraction_finished start now :
  (SETTLE_DURATION <= now - start)%Q →
  (settleFraction start now == 1)%Q ∧
  Qle_bool 1 (settleFraction start now) = true.
Proof.
  unfold settleFraction, SETTLE_DURATION. intros H.
  assert (Hle : (1 <= (now - start) / 400)%Q)
    by (apply Qle_shift_div_l; lra).
  rewrite Q.min_r by done. split; [reflexivity|done].
Qed.

Lemma settleColor_tone start now :
  settleColor start now =
  let v := tone (easeOutCubic (settleFraction start now)) in rgbToHex v v v.
Proof.
  unfold settleColor, lerpColor. rewrite lerpChannels_tone. reflexivity.
Qed.

Lemma settleColor_rgb start now :
  (start <= now)%Q →
  let v := tone (easeOutCubic (settleFraction start now)) in
  hexToRGB (settleColor start now) = (v, v, v) ∧ 136 ≤ v ≤ 224.
Proof.
  intros H v.
  destruct (settleFraction_range start now H) as [H0 H1].
  destruct (easeOutCubic_range _ H0 H1) as [He0 He1].
  pose proof (tone_range _ He0 He1) as Hv. fold v in Hv.
  split; [|done]. rewrite settleColor_tone. fold v. cbv zeta.
  apply hexToRGB_rgbToHex; lia.
Qed.

Lemma settleColor_finished start now :
  (SETTLE_DURATION <= now - start)%Q → settleColor start now = BASE_COLOR.
Proof.
  intros H. destruct (settleFraction_finished start now H) as [Hf _].
  rewrite settleColor_tone. cbv zeta. rewrite tone_1; [reflexivity|].
  rewrite easeOutCubic_cube, Hf. reflexivity.
Qed.

(** The interpolated colour only moves from the hover tone towards the
    base tone as time passes. *)
Lemma settleColor_mono start t1 t2 :
  (start <= t1)%Q → (t1 <= t2)%Q →
  channels_le (hexToRGB HOVER_COLOR) (hexToRGB (settleColor start t1)) ∧
  channels_le (hexToRGB (settleColor start t1))
              (hexToRGB (settleColor start t2)) ∧
  channels_le (hexToRGB (settleColor start t2)) (hexToRGB BASE_COLOR).
Proof.
  intros H1 H12.
  assert (H2 : (start <= t2)%Q) by lra.
  destruct (settleColor_rgb start t1 H1) as [-> Hv1].
  destruct (settleColor_rgb start t2 H2) as [-> Hv2].
  rewrite hover_rgb, base_rgb.
  pose proof (tone_mono _ _
    (easeOutCubic_mono _ _ (settleFraction_mono start t1 t2 H12))) as Hm.
  unfold channels_le. simpl. lia.
Qed.

(** ** The sample worlds *)

Lemma thirds_unit : unit_interval thirds.
Proof.
  intros i. unfold thirds, Qle, Qlt. simpl.
  pose proof (Nat.mod_upper_bound i 3). lia.
Qed.

Lemma reachable_small : reachable thirds small.
Proof. apply reach_init. Qed.

Lemma reachable_after random es w :
  reachable random w → is_Some (run random es w) →
  reachable random (after random es w).
Proof.
  revert w. induction es as [|e es IH]; intros w Hw [w' Hrun].
  - injection Hrun as <-. exact Hw.
  - unfold after. simpl in Hrun |- *.
    destruct (handle random e w) as [w1|] eqn:He; [|discriminate].
    simpl in Hrun |- *. apply IH.
    + by eapply reach_step.
    + by exists w'.
Qed.

Lemma reachable_armed : reachable thirds armed.
Proof.
  apply (reach_step thirds (MouseMove 120 120) small); [apply reach_init|].
  vm_compute. reflexivity.
Qed.

Lemma reachable_settling : reachable thirds settling.
Proof.
  apply reachable_after; [apply reachable_armed|].
  vm_compute. eexists. reflexivity.
Qed.

Lemma reachable_rebuilt : reachable thirds rebuilt.
Proof.
  apply (reach_step thirds (Resize 110 110) armed); [apply reachable_armed|].
  reflexivity.
Qed.

Lemma small_cell : grid_get (grid small) 5 5 = Some smallCell.
Proof. vm_compute. reflexivity. Qed.

Lemma armed_cell : grid_get (grid armed) 5 5 = Some armedCell.
Proof. vm_compute. reflexivity. Qed.

Lemma settling_cell : grid_get (grid settling) 5 5 = Some settlingCell.
Proof. vm_compute. reflexivity. Qed.

Lemma move_small : onMouseMove thirds 120 120 small = Some armed.
Proof. vm_compute. reflexivity. Qed.

(** The scenario of the specification: the pointer enters the cell
    [(5, 5)] of a 10 × 10 grid; the nine cells of rows 4–6 and columns 4–6
    start scrambling, and the cells around the block stay idle. *)
Example pointer_enters_5_5 :
  (cols small, rows small) = (10, 10) ∧
  dirtySet armed =
    [40004; 40005; 40006; 50004; 50005; 50006; 60004; 60005; 60006] ∧
  (λ rc, state <$> grid_get (grid armed) rc.1 rc.2) <$>
    [(4, 4); (4, 5); (4, 6); (5, 4); (5, 5); (5, 6); (6, 4); (6, 5); (6, 6)] =
    replicate 9 (Some Scramble) ∧
  (λ rc, state <$> grid_get (grid armed) rc.1 rc.2) <$>
    [(3, 3); (3, 5); (3, 7); (5, 3); (5, 7); (7, 3); (7, 5); (7, 7); (0, 0)] =
    replicate 9 (Some Idle).
Proof. vm_compute. repeat split. Qed.

(** * The properties of the specification, C1 to C10 *)

(** C1 (amended). Dirty-set invariant: after every tick, for every cell
    of the grid in a column below 10000 (the key multiplier), the cell is
    idle if and only if its key is absent from the dirty set. *)
Theorem dirty_iff_animating random now w :
  reachable random w →
  ∃ w', animate random now w = Some w' ∧
    ∀ r c cell, grid_get (grid w') r c = Some cell → c < 10000 →
      (state cell = Idle ↔ key r c ∉ dirtySet w').
Proof.
  intros Hreach.
  destruct (Inv_animate random now w (reachable_Inv random w Hreach))
    as (w' & Hrun & HI & Hpruned).
  exists w'. split; [done|]. intros r c cell Hcell Hlt. split.
  - intros Hidle Hk. apply (Hpruned _ Hk). right.
    pose proof Hcell as (Hr & Hc & _)%grid_get_Some.
    rewrite decode_key by done. simpl. eauto.
  - intros Hk. destruct (decide (state cell = Idle)) as [|Hst]; [done|].
    destruct Hk. by eapply (inv_tracked w' HI).
Qed.

(** C1, counterexample. On a grid of 10002 columns the cell [(0, 10000)]
    has the key 10000, which decodes to [(1, 0)], an idle cell: the first
    tick after the activation of [(0, 10000)] removes the key, and the cell
    is scrambling with its key absent from the dirty set. *)
Lemma wide_grid_untracked_cell :
  ∃ w cell,
    run halves [MouseMove 220005 5; Frame 50] wide = Some w ∧
    cols w = 10002 ∧ rows w = 2 ∧
    grid_get (grid w) 0 10000 = Some cell ∧
    state cell = Scramble ∧ (key 0 10000 ∉ dirtySet w) ∧
    ¬ (state cell = Idle ↔ (key 0 10000 ∉ dirtySet w)).
Proof.
  assert (E : (w ← run halves [MouseMove 220005 5; Frame 50] wide;
               cell ← grid_get (grid w) 0 10000;
               Some (cols w, rows w, state cell,
                     bool_decide (key 0 10000 ∈ dirtySet w))) =
              Some (10002, 2, Scramble, false))
    by (vm_compute; reflexivity).
  destruct (run halves [MouseMove 220005 5; Frame 50] wide) as [w|] eqn:Hrun;
    [|discriminate].
  cbn [mbind option_bind] in E.
  destruct (grid_get (grid w) 0 10000) as [cell|] eqn:Hcell; [|discriminate].
  cbn [mbind option_bind] in E. injection E as Hc Hr Hst Hk.
  apply bool_decide_eq_false in Hk.
  exists w, cell.
  refine (conj eq_refl (conj Hc (conj Hr (conj Hcell
            (conj Hst (conj Hk _)))))).
  intros [_ H]. specialize (H Hk). congruence.
Qed.

(** The invariant after a tick of [armed], where nine cells scramble. *)
Lemma dirty_iff_animating_witness :
  ∃ w', animate thirds 50 armed = Some w' ∧
    ∀ r c cell, grid_get (grid w') r c = Some cell → c < 10000 →
      (state cell = Idle ↔ key r c ∉ dirtySet w').
Proof. apply (dirty_iff_animating thirds 50 armed). apply reachable_armed. Defined.

(** C2 (amended). Rebuild postcondition: a rebuild leaves the dirty set as
    it was and makes every cell of the new grid idle, with a glyph of
    [SYMBOLS] drawn during the rebuild, the base colour and no original
    symbol; the next tick then finds every key of the dirty set stale or
    idle and empties the set without touching a cell; and a tick never adds
    a key, so an old coordinate comes back only through an activation. *)
Theorem rebuild_postcondition random cw ch w :
  unit_interval random → reachable random w →
  let w' := buildGrid random cw ch w in
  dirtySet w' = dirtySet w ∧
  (∀ r c cell, grid_get (grid w') r c = Some cell →
     state cell = Idle ∧ color cell = BASE_COLOR ∧ origSymbol cell = Null ∧
     ∃ i g, (draws w ≤ i < draws w')%nat ∧
            symbol cell = randSymbol random i ∧
            symbol cell = Glyph g ∧ g ∈ SYMBOLS) ∧
  (∀ now, ∃ w'', animate random now w' = Some w'' ∧
     dirtySet w'' = [] ∧
     ∀ r c, grid_get (grid w'') r c = grid_get (grid w') r c) ∧
  (∀ now w1 w2 k, animate random now w1 = Some w2 →
     k ∈ dirtySet w2 → k ∈ dirtySet w1).
Proof.
  intros Hu Hreach w'.
  assert (Hfresh : ∀ r c cell, grid_get (grid w') r c = Some cell →
            ∃ j, (draws w ≤ j < draws w')%nat ∧ cell = freshCell random j)
    by (intros r c cell; apply buildGrid_fresh).
  split_and!.
  - done.
  - intros r c cell (j & Hj & ->)%Hfresh. split_and!; try done.
    destruct (randSymbol_glyph random j Hu) as (g & Hg & Hin).
    exists j, g. done.
  - intros now.
    assert (HI' : Inv w').
    { apply (reachable_Inv random). eapply (reach_step random (Resize cw ch));
        [exact Hreach|done]. }
    destruct HI' as [Hwf Hnd Hpos _ _ _].
    destruct (animate_spec random now w' Hwf Hnd Hpos) as
      (p & w'' & _ & Hrun & Hwf'' & Hc & Hr & _ & _ & _ & _ & _ & Hkeys &
       Hcells & _).
    exists w''. split; [done|].
    assert (Hsame : ∀ r c, grid_get (grid w'') r c = grid_get (grid w') r c).
    { intros r c. destruct (grid_get (grid w') r c) as [cell|] eqn:Hcell.
      - destruct (Hfresh r c cell Hcell) as (j & _ & ->).
        destruct (Hcells r c _ Hcell) as [Hhit Hmiss].
        destruct (decide (c < 10000 ∧ key r c ∈ dirtySet w'))
          as [[Hlt Hk]|Hno].
        + pose proof Hcell as (Hr0 & Hc0 & _)%grid_get_Some.
          destruct Hhit as (i & ->);
            [exists (key r c); by rewrite decode_key|done].
        + apply Hmiss. intros k Hk Hd.
          destruct (key_decode k r c (Hpos k Hk) Hd) as (-> & _ & _ & Hlt).
          tauto.
      - destruct (grid_get (grid w'') r c) as [cell''|] eqn:Hcell''; [|done].
        apply (grid_get_in_bounds _ _ _ _ _ _ Hwf'') in Hcell''.
        rewrite Hc, Hr in Hcell''.
        destruct (in_bounds_grid_get _ _ _ _ _ Hwf Hcell'') as [x Hx].
        congruence. }
    split; [|done].
    apply elem_of_nil_inv. intros k [Hk Hkeep]%Hkeys. apply Hkeep.
    destruct (decide (in_bounds (rows w') (cols w')
                        (decode k).1 (decode k).2)) as [Hin|Hout];
      [|by left].
    right. destruct (in_bounds_grid_get _ _ _ _ _ Hwf Hin) as [cell Hcell].
    exists cell. rewrite Hsame. split; [done|].
    by destruct (Hfresh _ _ _ Hcell) as (j & _ & ->).
  - intros now w1 w2 k. apply (animate_only_removes random).
Qed.

(** C2, counterexample. A rebuild while nine cells are scrambling leaves
    their nine keys in the dirty set: the set is not empty immediately after
    the rebuild, although every cell of the new 6 × 6 grid is idle. *)
Lemma rebuild_keeps_dirty_set :
  state <$> grid_get (grid armed) 5 5 = Some Scramble ∧
  (cols rebuilt, rows rebuilt) = (6, 6) ∧
  state <$> grid_get (grid rebuilt) 5 5 = Some Idle ∧
  dirtySet rebuilt =
    [40004; 40005; 40006; 50004; 50005; 50006; 60004; 60005; 60006] ∧
  dirtySet rebuilt ≠ [].
Proof. vm_compute. repeat split. discriminate. Qed.

(** The rebuild of [armed] on a 110 × 110 canvas. *)
Lemma rebuild_postcondition_witness :
  dirtySet rebuilt = dirtySet armed ∧
  (∀ r c cell, grid_get (grid rebuilt) r c = Some cell →
     state cell = Idle ∧ color cell = BASE_COLOR ∧ origSymbol cell = Null ∧
     ∃ i g, (draws armed ≤ i < draws rebuilt)%nat ∧
            symbol cell = randSymbol thirds i ∧
            symbol cell = Glyph g ∧ g ∈ SYMBOLS) ∧
  (∀ now, ∃ w'', animate thirds now rebuilt = Some w'' ∧
     dirtySet w'' = [] ∧
     ∀ r c, grid_get (grid w'') r c = grid_get (grid rebuilt) r c) ∧
  (∀ now w1 w2 k, animate thirds now w1 = Some w2 →
     k ∈ dirtySet w2 → k ∈ dirtySet w1).
Proof.
  apply (rebuild_postcondition thirds 110 110 armed).
  - apply thirds_unit.
  - apply reachable_armed.
Defined.




(** C4 (amended). Scramble termination: a scrambling cell in a column below
    10000 with [framesLeft = n ≥ 1] keeps scrambling, its counter going down
    by one per scramble tick, through any events without a rebuild during
    which fewer than [n] scramble ticks fire, however many frames they
    contain; on the [n]-th scramble tick it becomes settling, with its
    glyph restored to [origSymbol] and [settleStart] equal to the timestamp
    of that tick. *)
Theorem scramble_termination random r c es now w cell :
  reachable random w →
  grid_get (grid w) r c = Some cell → c < 10000 →
  state cell = Scramble → 1 ≤ framesLeft cell → noResize es →
  (Z.of_nat (scrambleTicks random es w) < framesLeft cell →
     ∃ w' cell',
       run random es w = Some w' ∧
       grid_get (grid w') r c = Some cell' ∧
       state cell' = Scramble ∧
       framesLeft cell' =
         framesLeft cell - Z.of_nat (scrambleTicks random es w)) ∧
  (Z.of_nat (scrambleTicks random es w) = framesLeft cell - 1 →
     ∃ w1, run random es w = Some w1 ∧
       (doScrambleTick now w1 = true →
        ∃ w' cell',
          run random (es ++ [Frame now]) w = Some w' ∧
          Z.of_nat (scrambleTicks random (es ++ [Frame now]) w) =
            framesLeft cell ∧
          grid_get (grid w') r c = Some cell' ∧
          state cell' = Settling ∧
          symbol cell' = origSymbol cell ∧
          settleStart cell' = now)).
Proof.
  intros Hreach Hcell Hlt Hst Hn Hres.
  pose proof (reachable_Inv random w Hreach) as HI.
  split.
  - intros Hm.
    destruct (countdown random r c es w cell HI Hcell Hlt Hst Hres Hm) as
      (w' & cell' & Hrun & _ & Hg & Hst' & Hfl & _).
    exists w', cell'. done.
  - intros Hm.
    destruct (countdown random r c es w cell HI Hcell Hlt Hst Hres
                ltac:(lia)) as
      (w1 & cell1 & Hrun & HI1 & Hg & Hst1 & Hfl & Ho).
    exists w1. split; [done|]. intros Htick.
    destruct (tick_cell random now w1 r c cell1 HI1 Hg Hlt) as
      (w' & i & Hrun' & _ & Hg' & _); [congruence|].
    exists w'. eexists. split_and!.
    + rewrite run_app, Hrun. simpl. by rewrite Hrun'.
    + rewrite (scrambleTicks_app random es [Frame now] w w1 Hrun).
      simpl. rewrite Hrun', Htick. lia.
    + exact Hg'.
    + rewrite Htick. unfold cellTick. rewrite Hst1.
      rewrite scrambleStep_eq by done.
      rewrite bool_decide_true by lia. done.
    + rewrite Htick. unfold cellTick. rewrite Hst1.
      rewrite scrambleStep_eq by done.
      rewrite bool_decide_true by lia. done.
    + rewrite Htick. unfold cellTick. rewrite Hst1.
      rewrite scrambleStep_eq by done.
      rewrite bool_decide_true by lia. done.
Qed.

(** C4, counterexample. On the grid of 10002 columns the pointer enters
    the cell [(0, 10000)], which is armed with [framesLeft = 7]; its key is
    removed by the first tick, and after seven scramble ticks the cell is
    still scrambling with [framesLeft = 7]. *)
Lemma wide_grid_never_settles :
  ∃ w1 cell w cell',
    run halves [MouseMove 220005 5] wide = Some w1 ∧
    grid_get (grid w1) 0 10000 = Some cell ∧
    state cell = Scramble ∧ framesLeft cell = 7 ∧
    scrambleTicks halves sevenTicks w1 = 7%nat ∧
    run halves sevenTicks w1 = Some w ∧
    grid_get (grid w) 0 10000 = Some cell' ∧
    state cell' = Scramble ∧ framesLeft cell' = 7 ∧
    state cell' ≠ Settling.
Proof.
  assert (E : (w1 ← run halves [MouseMove 220005 5] wide;
               cell ← grid_get (grid w1) 0 10000;
               w ← run halves sevenTicks w1;
               cell' ← grid_get (grid w) 0 10000;
               Some (state cell, framesLeft cell,
                     scrambleTicks halves sevenTicks w1,
                     state cell', framesLeft cell')) =
              Some (Scramble, 7, 7%nat, Scramble, 7))
    by (vm_compute; reflexivity).
  destruct (run halves [MouseMove 220005 5] wide) as [w1|] eqn:Hmove;
    [|discriminate].
  cbn [mbind option_bind] in E.
  destruct (grid_get (grid w1) 0 10000) as [cell|] eqn:Hcell;
    [|discriminate].
  cbn [mbind option_bind] in E.
  destruct (run halves sevenTicks w1) as [w|] eqn:Hrun; [|discriminate].
  cbn [mbind option_bind] in E.
  destruct (grid_get (grid w) 0 10000) as [cell'|] eqn:Hcell';
    [|discriminate].
  cbn [mbind option_bind] in E.
  assert (Hst : state cell = Scramble) by congruence.
  assert (Hfl : framesLeft cell = 7) by congruence.
  assert (Hticks : scrambleTicks halves sevenTicks w1 = 7%nat) by congruence.
  assert (Hst' : state cell' = Scramble) by congruence.
  assert (Hfl' : framesLeft cell' = 7) by congruence.
  exists w1, cell, w, cell'.
  refine (conj eq_refl (conj Hcell (conj Hst (conj Hfl (conj Hticks
            (conj Hrun (conj Hcell' (conj Hst' (conj Hfl' _))))))))).
  rewrite Hst'. discriminate.
Qed.

(** The cell [(5, 5)] of [armed], with [framesLeft = 8], through seven
    scramble ticks and then the eighth, at time 400. *)
Lemma scramble_termination_witness :
  (Z.of_nat (scrambleTicks thirds sevenTicks armed) < framesLeft armedCell →
     ∃ w' cell',
       run thirds sevenTicks armed = Some w' ∧
       grid_get (grid w') 5 5 = Some cell' ∧
       state cell' = Scramble ∧
       framesLeft cell' =
         framesLeft armedCell -
         Z.of_nat (scrambleTicks thirds sevenTicks armed)) ∧
  (Z.of_nat (scrambleTicks thirds sevenTicks armed) =
     framesLeft armedCell - 1 →
     ∃ w1, run thirds sevenTicks armed = Some w1 ∧
       (doScrambleTick 400 w1 = true →
        ∃ w' cell',
          run thirds (sevenTicks ++ [Frame 400]) armed = Some w' ∧
          Z.of_nat (scrambleTicks thirds (sevenTicks ++ [Frame 400]) armed) =
            framesLeft armedCell ∧
          grid_get (grid w') 5 5 = Some cell' ∧
          state cell' = Settling ∧
          symbol cell' = origSymbol armedCell ∧
          settleStart cell' = 400%Q)).
Proof.
  apply (scramble_termination thirds 5 5 sevenTicks 400 armed armedCell).
  - apply reachable_armed.
  - apply armed_cell.
  - lia.
  - reflexivity.
  - simpl. lia.
  - repeat constructor.
Defined.

(** [Math.round] gives an integer within a half of its argument. *)
Lemma round_rounded x : rounded x (round x).
Proof.
  assert (Hs : (0 < channel_slack)%Q) by done.
  pose proof (Qfloor_le (x + (1 # 2))) as Hlo.
  pose proof (Qlt_floor (x + (1 # 2))) as Hhi.
  rewrite inject_Z_plus in Hhi. change (inject_Z 1) with 1%Q in Hhi.
  unfold rounded, round. split; lra.
Qed.

(** The colour interpolated for a settling cell has three equal channels,
    the rounded value of [136 + 88 e] at the eased fraction [e]. *)
Lemma settleColor_channel start now :
  ∃ v, settleColor start now = rgbToHex v v v ∧
       rounded (136 + (224 - 136) * easeOutCubic (settleFraction start now)) v.
Proof.
  exists (tone (easeOutCubic (settleFraction start now))).
  split; [apply settleColor_tone|]. apply round_rounded.
Qed.

(** At the time it begins to settle the interpolated colour of a cell is
    the hover tone. *)
Lemma settleColor_start start now :
  (now == start)%Q → settleColor start now = HOVER_COLOR.
Proof.
  intros H.
  assert (Hf : (settleFraction start now == 0)%Q).
  { unfold settleFraction, SETTLE_DURATION.
    assert (Hz : ((now - start) / 400 == 0)%Q) by (rewrite H; field).
    rewrite Hz. reflexivity. }
  rewrite settleColor_tone. cbv zeta. rewrite tone_0; [reflexivity|].
  rewrite easeOutCubic_cube, Hf. reflexivity.
Qed.

(** C5. Settling convergence: on every frame a settling cell is given the
    colour interpolated from the hover tone to the base tone at the
    ease-out cubic [1 - (1 - t)^3] of the fraction [elapsed / SETTLE_DURATION]
    clamped at 1, which lies in [[0, 1]] when timestamps do not decrease.
    The interpolated colour has three equal channels [v], the rounded value
    of [136 + (224 - 136) e] at the eased fraction [e], 136 and 224 being
    the channels of the hover tone and of the base tone: it is the hover
    tone at [elapsed = 0].  The colour never moves back towards the hover
    tone; and on the frame where [elapsed ≥ SETTLE_DURATION] the
    interpolated colour is exactly the base tone, the cell is idle with
    the base colour and no original symbol, and its key has left the dirty
    set. *)
Theorem settling_convergence random now w r c cell :
  reachable random w →
  grid_get (grid w) r c = Some cell → state cell = Settling →
  (settleStart cell <= now)%Q →
  let start := settleStart cell in
  let t := settleFraction start now in
  ∃ w' cell',
    animate random now w = Some w' ∧
    grid_get (grid w') r c = Some cell' ∧
    symbol cell' = symbol cell ∧ settleStart cell' = start ∧
    (0 <= t)%Q ∧ (t <= 1)%Q ∧
    (easeOutCubic t == 1 - (1 - t) * (1 - t) * (1 - t))%Q ∧
    hexToRGB HOVER_COLOR = (136, 136, 136) ∧
    hexToRGB BASE_COLOR = (224, 224, 224) ∧
    (∃ v, lerpColor HOVER_COLOR BASE_COLOR (easeOutCubic t) = rgbToHex v v v ∧
          rounded (136 + (224 - 136) * easeOutCubic t) v) ∧
    ((now == start)%Q →
       lerpColor HOVER_COLOR BASE_COLOR (easeOutCubic t) = HOVER_COLOR) ∧
    ((now - start < SETTLE_DURATION)%Q →
       (t == (now - start) / SETTLE_DURATION)%Q ∧
       state cell' = Settling ∧
       color cell' = lerpColor HOVER_COLOR BASE_COLOR (easeOutCubic t) ∧
       origSymbol cell' = origSymbol cell ∧
       key r c ∈ dirtySet w') ∧
    ((SETTLE_DURATION <= now - start)%Q →
       lerpColor HOVER_COLOR BASE_COLOR (easeOutCubic t) = BASE_COLOR ∧
       color cell' = BASE_COLOR ∧
       origSymbol cell' = Null ∧
       state cell' = Idle ∧
       key r c ∉ dirtySet w') ∧
    (∀ t1 t2, (start <= t1)%Q → (t1 <= t2)%Q →
       channels_le (hexToRGB HOVER_COLOR) (hexToRGB (settleColor start t1)) ∧
       channels_le (hexToRGB (settleColor start t1))
                   (hexToRGB (settleColor start t2)) ∧
       channels_le (hexToRGB (settleColor start t2)) (hexToRGB BASE_COLOR)).
Proof.
  intros Hreach Hcell Hst Hnow start t.
  pose proof (reachable_Inv random w Hreach) as HI.
  pose proof (inv_settling w HI r c cell Hcell Hst) as Hlt.
  destruct (tick_cell random now w r c cell HI Hcell Hlt) as
    (w' & i & Hrun & _ & Hg & Hk); [congruence|].
  unfold cellTick in Hg, Hk. rewrite Hst in Hg, Hk.
  rewrite (settleStep_eq now cell Hst) in Hg, Hk. cbv zeta in Hg, Hk.
  fold start in Hg, Hk. fold t in Hg, Hk.
  destruct (settleFraction_range start now Hnow) as [H0 H1].
  exists w'. eexists. split; [done|]. split; [exact Hg|].
  split_and!.
  - by destruct (Qle_bool 1 t).
  - by destruct (Qle_bool 1 t).
  - done.
  - done.
  - apply easeOutCubic_cube.
  - apply hover_rgb.
  - apply base_rgb.
  - apply (settleColor_channel start now).
  - apply (settleColor_start start now).
  - intros Hrunning.
    destruct (settleFraction_running start now Hrunning) as [Hf Hb].
    fold t in Hf, Hb. rewrite Hb in Hk |- *. simpl in Hk |- *.
    split_and!; try done. apply Hk. done.
  - intros Hfinished.
    destruct (settleFraction_finished start now Hfinished) as [Hf Hb].
    fold t in Hf, Hb. rewrite Hb in Hk |- *. simpl in Hk |- *.
    split_and!; try done.
    + apply (settleColor_finished start now Hfinished).
    + intros Hin. by apply Hk in Hin.
  - apply settleColor_mono.
Qed.

(** The cell [(5, 5)] of [settling], which began to settle at time 400, on
    the frame at time 500. *)
Lemma settling_convergence_witness :
  let start := settleStart settlingCell in
  let t := settleFraction start 500 in
  ∃ w' cell',
    animate thirds 500 settling = Some w' ∧
    grid_get (grid w') 5 5 = Some cell' ∧
    symbol cell' = symbol settlingCell ∧ settleStart cell' = start ∧
    (0 <= t)%Q ∧ (t <= 1)%Q ∧
    (easeOutCubic t == 1 - (1 - t) * (1 - t) * (1 - t))%Q ∧
    hexToRGB HOVER_COLOR = (136, 136, 136) ∧
    hexToRGB BASE_COLOR = (224, 224, 224) ∧
    (∃ v, lerpColor HOVER_COLOR BASE_COLOR (easeOutCubic t) = rgbToHex v v v ∧
          rounded (136 + (224 - 136) * easeOutCubic t) v) ∧
    ((500 == start)%Q →
       lerpColor HOVER_COLOR BASE_COLOR (easeOutCubic t) = HOVER_COLOR) ∧
    ((500 - start < SETTLE_DURATION)%Q →
       (t == (500 - start) / SETTLE_DURATION)%Q ∧
       state cell' = Settling ∧
       color cell' = lerpColor HOVER_COLOR BASE_COLOR (easeOutCubic t) ∧
       origSymbol cell' = origSymbol settlingCell ∧
       key 5 5 ∈ dirtySet w') ∧
    ((SETTLE_DURATION <= 500 - start)%Q →
       lerpColor HOVER_COLOR BASE_COLOR (easeOutCubic t) = BASE_COLOR ∧
       color cell' = BASE_COLOR ∧
       origSymbol cell' = Null ∧
       state cell' = Idle ∧
       key 5 5 ∉ dirtySet w') ∧
    (∀ t1 t2, (start <= t1)%Q → (t1 <= t2)%Q →
       channels_le (hexToRGB HOVER_COLOR) (hexToRGB (settleColor start t1)) ∧
       channels_le (hexToRGB (settleColor start t1))
                   (hexToRGB (settleColor start t2)) ∧
       channels_le (hexToRGB (settleColor start t2)) (hexToRGB BASE_COLOR)).
Proof.
  apply (settling_convergence thirds 500 settling 5 5 settlingCell).
  - apply reachable_settling.
  - apply settling_cell.
  - reflexivity.
  - simpl. lra.
Defined.

(** C6. Re-activation idempotence: a pointer move leaves every cell that
    is scrambling or settling exactly as it was, field for field; a cell
    that the move changes was idle. *)
Theorem reactivation_idempotent random mx my w :
  reachable random w →
  ∃ w', onMouseMove random mx my w = Some w' ∧
    ∀ r c cell, grid_get (grid w) r c = Some cell →
      (state cell = Scramble ∨ state cell = Settling →
         grid_get (grid w') r c = Some cell) ∧
      (grid_get (grid w') r c ≠ Some cell → state cell = Idle).
Proof.
  intros Hreach.
  destruct (onMouseMove_cells random mx my w
              (inv_wf w (reachable_Inv random w Hreach)))
    as (w' & Hrun & _ & _ & _ & _ & _ & _ & _ & Hcells).
  exists w'. split; [done|]. intros r c cell Hcell.
  destruct (Hcells r c cell Hcell) as [Hsame|(Hidle & _)].
  - split; [done|]. intros Hne. done.
  - split; [|done]. intros [H|H]; congruence.
Qed.

(** The pointer moves on to the cell [(6, 6)] while the block around
    [(5, 5)] is scrambling. *)
Lemma reactivation_idempotent_witness :
  ∃ w', onMouseMove thirds 150 150 armed = Some w' ∧
    ∀ r c cell, grid_get (grid armed) r c = Some cell →
      (state cell = Scramble ∨ state cell = Settling →
         grid_get (grid w') r c = Some cell) ∧
      (grid_get (grid w') r c ≠ Some cell → state cell = Idle).
Proof.
  apply (reactivation_idempotent thirds 150 150 armed).
  apply reachable_armed.
Defined.

(** C7. Neighbourhood activation and clipping: when the pointer moves to a
    cell other than the tracked one, the cells of the grid that are idle
    and lie in the 3×3 block centred on the new cell become scrambling;
    every other cell of the grid is unchanged; no cell appears outside the
    grid; and the keys added to the dirty set are those of the cells that
    were armed. *)
Theorem neighbourhood_activation random mx my w :
  reachable random w →
  ¬ (pointerCol mx = mouseCol w ∧ pointerRow my = mouseRow w) →
  ∃ w', onMouseMove random mx my w = Some w' ∧
    rows w' = rows w ∧ cols w' = cols w ∧
    (∀ r c, ¬ in_bounds (rows w) (cols w) r c →
       grid_get (grid w') r c = None) ∧
    (∀ r c, in_bounds (rows w) (cols w) r c →
       ∃ cell cell',
         grid_get (grid w) r c = Some cell ∧
         grid_get (grid w') r c = Some cell' ∧
         (state cell = Idle ∧ in_block (pointerRow my) (pointerCol mx) r c →
            state cell' = Scramble) ∧
         (¬ (state cell = Idle ∧
             in_block (pointerRow my) (pointerCol mx) r c) →
            cell' = cell)) ∧
    (∀ k, k ∈ dirtySet w' ↔
          k ∈ dirtySet w ∨
          ∃ r c cell, grid_get (grid w) r c = Some cell ∧
                      state cell = Idle ∧
                      in_block (pointerRow my) (pointerCol mx) r c ∧
                      k = key r c).
Proof.
  intros Hreach Hne.
  pose proof (inv_wf w (reachable_Inv random w Hreach)) as Hwf.
  destruct (onMouseMove_moved random mx my w Hwf Hne) as
    (w' & Hrun & Hwf' & Hc & Hr & _ & _ & _ & _ & _ & Hcells & Hkeys).
  exists w'. split_and!; try done.
  - intros r c Hout. destruct (grid_get (grid w') r c) as [cell'|] eqn:Hg;
      [|done].
    exfalso. apply Hout. rewrite <- Hr, <- Hc.
    by eapply grid_get_in_bounds.
  - intros r c Hin.
    destruct (in_bounds_grid_get _ _ _ _ _ Hwf Hin) as [cell Hcell].
    destruct (Hcells r c cell Hcell) as [Harm Hkeep].
    destruct (decide (state cell = Idle)) as [Hi|Hi].
    + destruct (decide (in_block (pointerRow my) (pointerCol mx) r c))
        as [Hb|Hb].
      * destruct (Harm Hi Hb) as (i & _ & Hg).
        exists cell, (arm random i cell). split_and!; try done. tauto.
      * exists cell, cell. split_and!; try done; [auto|tauto].
    + exists cell, cell. split_and!; try done; [auto|tauto].
Qed.

(** The pointer enters the cell [(5, 5)] of [small]. *)
Lemma neighbourhood_activation_witness :
  ∃ w', onMouseMove thirds 120 120 small = Some w' ∧
    rows w' = rows small ∧ cols w' = cols small ∧
    (∀ r c, ¬ in_bounds (rows small) (cols small) r c →
       grid_get (grid w') r c = None) ∧
    (∀ r c, in_bounds (rows small) (cols small) r c →
       ∃ cell cell',
         grid_get (grid small) r c = Some cell ∧
         grid_get (grid w') r c = Some cell' ∧
         (state cell = Idle ∧ in_block (pointerRow 120) (pointerCol 120) r c →
            state cell' = Scramble) ∧
         (¬ (state cell = Idle ∧
             in_block (pointerRow 120) (pointerCol 120) r c) →
            cell' = cell)) ∧
    (∀ k, k ∈ dirtySet w' ↔
          k ∈ dirtySet small ∨
          ∃ r c cell, grid_get (grid small) r c = Some cell ∧
                      state cell = Idle ∧
                      in_block (pointerRow 120) (pointerCol 120) r c ∧
                      k = key r c).
Proof.
  apply (neighbourhood_activation thirds 120 120 small).
  - apply reachable_small.
  - vm_compute. intros [H _]. discriminate.
Defined.

(** C8. Stale-coordinate safety: a tick never throws; every coordinate at
    which it indexes the grid lies inside the grid; and every key of the
    dirty set whose decoded row or column is beyond the grid is removed
    without the grid being indexed at its coordinate. *)
Theorem stale_keys_dropped random now w :
  reachable random w →
  ∃ p w',
    animate_pass random now w = Some p ∧
    animate random now w = Some w' ∧
    (∀ r c, (r, c) ∈ indexed p →
       in_bounds (rows w) (cols w) r c ∧
       is_Some (grid_get (grid w) r c)) ∧
    (∀ k r c, k ∈ dirtySet w → decode k = (r, c) →
       rows w ≤ r ∨ cols w ≤ c →
       (k ∉ dirtySet w') ∧ ((r, c) ∉ indexed p)).
Proof.
  intros Hreach.
  destruct (reachable_Inv random w Hreach) as [Hwf Hnd Hpos _ _].
  destruct (animate_spec random now w Hwf Hnd Hpos) as
    (p & w' & Hpass & Hrun & _ & _ & _ & _ & _ & _ & _ & _ & Hkeys &
     _ & Hidx).
  exists p, w'. split_and!; try done.
  - intros r c [Hin _]%Hidx. simpl in Hin. split; [done|].
    by eapply in_bounds_grid_get.
  - intros k r c Hk Hd Hstale.
    assert (Hout : ¬ in_bounds (rows w) (cols w) r c)
      by (unfold in_bounds; lia).
    split.
    + intros [_ Hkeep]%Hkeys. apply Hkeep. left. by rewrite Hd.
    + intros [Hin _]%Hidx. done.
Qed.

(** The first tick of [rebuilt], whose dirty set holds keys of the old,
    larger grid. *)
Lemma stale_keys_dropped_witness :
  ∃ p w',
    animate_pass thirds 50 rebuilt = Some p ∧
    animate thirds 50 rebuilt = Some w' ∧
    (∀ r c, (r, c) ∈ indexed p →
       in_bounds (rows rebuilt) (cols rebuilt) r c ∧
       is_Some (grid_get (grid rebuilt) r c)) ∧
    (∀ k r c, k ∈ dirtySet rebuilt → decode k = (r, c) →
       rows rebuilt ≤ r ∨ cols rebuilt ≤ c →
       (k ∉ dirtySet w') ∧ ((r, c) ∉ indexed p)).
Proof.
  apply (stale_keys_dropped thirds 50 rebuilt). apply reachable_rebuilt.
Defined.

(** An integer up to [2^53] is a double. *)
Lemma nearest_exact n : 0 ≤ n ≤ 2 ^ 53 → nearestDouble n = Some n.
Proof.
  intros [H0 H1].
  destruct (decide (n = 2 ^ 53)) as [->|Hne]; [by vm_compute|].
  assert (He : Z.max 0 (Z.log2 n - 52) = 0).
  { destruct (decide (n = 0)) as [->|Hn]; [done|].
    assert (Z.log2 n < 53) by (apply Z.log2_lt_pow2; lia). lia. }
  unfold nearestDouble. rewrite Z.abs_eq by done. rewrite He.
  change (2 ^ 0) with 1. rewrite Z.div_1_r, Z.mod_1_r, Z.mul_1_r.
  change (2 * 0 <? 1) with true. cbv iota.
  assert (Hbig : 2 ^ 53 < 2 ^ 1024) by (apply Z.pow_lt_mono_r; lia).
  revert Hbig. generalize (2 ^ 1024). intros big Hbig.
  destruct (Z.leb_spec big n) as [Hle|_]; [lia|].
  f_equal. destruct n; done || lia.
Qed.

(** Up to [2^53] the key is computed without rounding. *)
Lemma key_exact r c :
  0 ≤ r → 0 ≤ c → key r c ≤ 2 ^ 53 → keyDouble r c = Some (key r c).
Proof.
  intros Hr Hc Hk. unfold key in Hk. unfold keyDouble.
  rewrite nearest_exact by lia. cbn [mbind option_bind].
  by rewrite nearest_exact by lia.
Qed.

(** C9 (amended). Coordinate-key round trip: for non-negative [r] and [c]
    with [c < 10000] and a key of at most [2^53], the key is computed
    without rounding, decoding it by floor division and remainder gives
    back [(r, c)], and two distinct pairs in that range have distinct keys.
    (The decoding is exact there as well: the quotient [k / 10000] of an
    integer [k ≤ 2^53] is below [2^40], where the doubles are [2^-13]
    apart, and it is an integer or at least [1/10000] below the next one,
    so the rounded quotient has the same floor.) *)
Theorem key_round_trip r c r' c' :
  0 ≤ r → 0 ≤ c → c < 10000 → key r c ≤ 2 ^ 53 →
  0 ≤ r' → 0 ≤ c' → c' < 10000 → key r' c' ≤ 2 ^ 53 →
  keyDouble r c = Some (key r c) ∧
  decode (key r c) = (r, c) ∧
  key r c / 10000 = r ∧ Z.rem (key r c) 10000 = c ∧
  ((r, c) ≠ (r', c') → keyDouble r c ≠ keyDouble r' c').
Proof.
  intros Hr Hc Hlt Hk Hr' Hc' Hlt' Hk'.
  pose proof (decode_key r c Hr Hc Hlt) as Hd.
  pose proof (decode_key r' c' Hr' Hc' Hlt') as Hd'.
  rewrite !key_exact by done.
  split_and!; [done|done| | |].
  - unfold decode in Hd. by injection Hd.
  - unfold decode in Hd. by injection Hd.
  - intros Hne [= Heq]. apply Hne. by rewrite <- Hd, <- Hd', Heq.
Qed.

(** C9, counterexample. Beyond [2^53] the sum is rounded: the key of
    [(900719925474, 9999)] is [9007199254749999], which lies half-way
    between two doubles and is rounded to [9007199254750000], the key of
    [(900719925475, 0)], and that is the pair it decodes to. *)
Lemma key_rounded_collision :
  keyDouble 900719925474 9999 = Some 9007199254750000 ∧
  keyDouble 900719925475 0 = Some 9007199254750000 ∧
  decode 9007199254750000 = (900719925475, 0) ∧
  ¬ (∀ r c r' c',
       0 ≤ r → 0 ≤ c → c < 10000 → 0 ≤ r' → 0 ≤ c' → c' < 10000 →
       (∃ k, keyDouble r c = Some k ∧ decode k = (r, c)) ∧
       ((r, c) ≠ (r', c') → keyDouble r c ≠ keyDouble r' c')).
Proof.
  assert (H1 : keyDouble 900719925474 9999 = Some 9007199254750000)
    by (vm_compute; reflexivity).
  assert (H2 : keyDouble 900719925475 0 = Some 9007199254750000)
    by (vm_compute; reflexivity).
  split_and!; [done|done|by vm_compute|].
  intros H.
  destruct (H 900719925474 9999 900719925475 0) as [_ Hne]; try lia.
  apply Hne; [|by rewrite H1, H2]. intros [= ?].
Qed.

(** The keys of [(3, 7)] and [(2, 9999)]. *)
Lemma key_round_trip_witness :
  keyDouble 3 7 = Some (key 3 7) ∧
  decode (key 3 7) = (3, 7) ∧
  key 3 7 / 10000 = 3 ∧ Z.rem (key 3 7) 10000 = 7 ∧
  ((3, 7) ≠ (2, 9999) → keyDouble 3 7 ≠ keyDouble 2 9999).
Proof. apply (key_round_trip 3 7 2 9999); unfold key; lia. Defined.

(** C10. Jitter bound: a cell that a pointer move takes out of the idle
    state gets a [framesLeft] between [SCRAMBLE_FRAMES] and
    [SCRAMBLE_FRAMES + 2], that is between 6 and 8, so at least 1. *)
Theorem jitter_bound random mx my w w' r c cell cell' :
  unit_interval random → reachable random w →
  onMouseMove random mx my w = Some w' →
  grid_get (grid w) r c = Some cell → state cell = Idle →
  grid_get (grid w') r c = Some cell' → state cell' ≠ Idle →
  SCRAMBLE_FRAMES ≤ framesLeft cell' ≤ SCRAMBLE_FRAMES + 2 ∧
  6 ≤ framesLeft cell' ≤ 8 ∧ 1 ≤ framesLeft cell'.
Proof.
  intros Hu Hreach Hmove Hcell Hidle Hcell' Hst.
  destruct (onMouseMove_cells random mx my w
              (inv_wf w (reachable_Inv random w Hreach)))
    as (w'' & Hrun & _ & _ & _ & _ & _ & _ & _ & Hcells).
  rewrite Hmove in Hrun. injection Hrun as <-.
  destruct (Hcells r c cell Hcell) as [Hsame|(_ & _ & i & Harm)].
  - rewrite Hcell' in Hsame. injection Hsame as ->. done.
  - rewrite Hcell' in Harm. injection Harm as ->.
    rewrite arm_eq. cbn [framesLeft].
    pose proof (jitter_range random i Hu). unfold SCRAMBLE_FRAMES. lia.
Qed.

(** The counter of the cell [(5, 5)] of [armed]. *)
Lemma jitter_bound_witness :
  SCRAMBLE_FRAMES ≤ framesLeft armedCell ≤ SCRAMBLE_FRAMES + 2 ∧
  6 ≤ framesLeft armedCell ≤ 8 ∧ 1 ≤ framesLeft armedCell.
Proof.
  apply (jitter_bound thirds 120 120 small armed 5 5 smallCell armedCell).
  - apply thirds_unit.
  - apply reachable_small.
  - apply move_small.
  - apply small_cell.
  - reflexivity.
  - apply armed_cell.
  - discriminate.
Defined.

(** * Further properties of the engine *)

(** ** The grid and the canvas *)

Lemma buildRow_lookup random n i c :
  (c < n)%nat → buildRow random n i !! c = Some (freshCell random (i + c)).
Proof.
  revert i c. induction n as [|n IH]; intros i c Hc; [lia|].
  destruct c as [|c]; simpl.
  - by rewrite Nat.add_0_r.
  - rewrite IH by lia. do 2 f_equal. lia.
Qed.

Lemma buildRows_lookup random m n i r :
  (r < m)%nat →
  buildRows random m n i !! r = Some (buildRow random n (i + r * n)).
Proof.
  revert i r. induction m as [|m IH]; intros i r Hr; [lia|].
  destruct r as [|r]; simpl.
  - by rewrite Nat.add_0_r.
  - rewrite IH by lia. do 2 f_equal. lia.
Qed.

Lemma cells_across x : 0 ≤ x → 1 ≤ Qceiling (inject_Z x / inject_Z CELL_SIZE) + 1.
Proof.
  intros Hx.
  assert (H : (0 <= inject_Z x / inject_Z CELL_SIZE)%Q).
  { apply Qle_shift_div_l; [done|]. rewrite Qmult_0_l.
    change 0%Q with (inject_Z 0). by rewrite <- Zle_Qle. }
  apply Qceiling_resp_le in H. change (Qceiling 0) with 0 in H. lia.
Qed.

(** X1. [buildGrid] makes a grid of [rows] rows of [cols] cells, at least
    one each way on a canvas of non-negative size; the cell [(r, c)] is the
    object literal built on the call of [Math.random()] numbered
    [r * cols + c] from the start of the rebuild, so the calls go row by
    row, one per cell. *)
Theorem buildGrid_row_major random cw ch w r c :
  0 ≤ cw → 0 ≤ ch →
  let w' := buildGrid random cw ch w in
  1 ≤ rows w' ∧ 1 ≤ cols w' ∧
  length (grid w') = Z.to_nat (rows w') ∧
  draws w' = (draws w + Z.to_nat (rows w' * cols w'))%nat ∧
  (in_bounds (rows w') (cols w') r c →
     grid_get (grid w') r c =
       Some (freshCell random (draws w + Z.to_nat (r * cols w' + c)))) ∧
  (¬ in_bounds (rows w') (cols w') r c → grid_get (grid w') r c = None).
Proof.
  intros Hcw Hch w'.
  pose proof (cells_across cw Hcw) as Hcols.
  pose proof (cells_across ch Hch) as Hrows.
  pose proof (buildGrid_wf random cw ch w) as Hwf. fold w' in Hwf.
  cbv zeta in Hwf.
  change (rows w') with (Qceiling (inject_Z ch / inject_Z CELL_SIZE) + 1)
    in *.
  change (cols w') with (Qceiling (inject_Z cw / inject_Z CELL_SIZE) + 1)
    in *.
  set (nrows := Qceiling (inject_Z ch / inject_Z CELL_SIZE) + 1) in *.
  set (ncols := Qceiling (inject_Z cw / inject_Z CELL_SIZE) + 1) in *.
  split_and!; try done.
  - apply Hwf.
  - unfold w', buildGrid. cbn [draws]. fold nrows ncols.
    rewrite Z2Nat.inj_mul by lia. done.
  - intros (Hr0 & Hr1 & Hc0 & Hc1). apply grid_get_Some.
    split; [done|]. split; [done|].
    exists (buildRow random (Z.to_nat ncols)
              (draws w + Z.to_nat r * Z.to_nat ncols)).
    split.
    + unfold w', buildGrid. cbn [grid]. fold nrows ncols.
      apply buildRows_lookup. lia.
    + rewrite buildRow_lookup by lia. do 2 f_equal.
      rewrite Z2Nat.inj_add, Z2Nat.inj_mul by lia. lia.
  - intros Hout. destruct (grid_get (grid w') r c) as [cell|] eqn:Hg; [|done].
    destruct Hout. by eapply grid_get_in_bounds.
Qed.

(** The rebuild of the page on a 198 × 198 canvas, at the cell [(5, 5)]. *)
Lemma buildGrid_row_major_witness :
  1 ≤ rows small ∧ 1 ≤ cols small ∧
  length (grid small) = Z.to_nat (rows small) ∧
  draws small = (draws blank + Z.to_nat (rows small * cols small))%nat ∧
  (in_bounds (rows small) (cols small) 5 5 →
     grid_get (grid small) 5 5 =
       Some (freshCell thirds (draws blank + Z.to_nat (5 * cols small + 5)))) ∧
  (¬ in_bounds (rows small) (cols small) 5 5 →
     grid_get (grid small) 5 5 = None).
Proof. apply (buildGrid_row_major thirds 198 198 blank 5 5); lia. Defined.

(** X2. The grid covers the canvas with a column and a row to spare: a
    pointer anywhere on a canvas of [cw] by [ch] pixels is over a cell of
    the grid built for it, and that cell is neither in the last column nor
    in the last row, so the block around it is clipped at the top and left
    edges only. *)
Theorem canvas_covered random cw ch w mx my :
  (0 <= mx)%Q → (mx < inject_Z cw)%Q → (0 <= my)%Q → (my < inject_Z ch)%Q →
  let w' := buildGrid random cw ch w in
  in_bounds (rows w') (cols w') (pointerRow my) (pointerCol mx) ∧
  is_Some (grid_get (grid w') (pointerRow my) (pointerCol mx)) ∧
  pointerRow my + 1 < rows w' ∧ pointerCol mx + 1 < cols w' ∧
  (∀ r c, in_block (pointerRow my) (pointerCol mx) r c →
     0 ≤ r → 0 ≤ c → is_Some (grid_get (grid w') r c)).
Proof.
  intros Hx0 Hx1 Hy0 Hy1 w'.
  assert (Hspan : ∀ p size,
            (0 <= p)%Q → (p < inject_Z size)%Q →
            0 ≤ Qfloor (p / inject_Z CELL_SIZE) ∧
            Qfloor (p / inject_Z CELL_SIZE) <
              Qceiling (inject_Z size / inject_Z CELL_SIZE)).
  { intros p size Hp0 Hp1. split.
    - assert (H : (0 <= p / inject_Z CELL_SIZE)%Q).
      { apply Qle_shift_div_l; [done|]. by rewrite Qmult_0_l. }
      apply Qfloor_resp_le in H. exact H.
    - rewrite Zlt_Qlt.
      eapply Qle_lt_trans; [apply Qfloor_le|].
      eapply Qlt_le_trans; [|apply Qle_ceiling].
      unfold Qdiv. apply Qmult_lt_compat_r; done. }
  destruct (Hspan mx cw Hx0 Hx1) as [Hc0 Hc1].
  destruct (Hspan my ch Hy0 Hy1) as [Hr0 Hr1].
  fold (pointerCol mx) in Hc0, Hc1. fold (pointerRow my) in Hr0, Hr1.
  pose proof (buildGrid_wf random cw ch w) as Hwf. fold w' in Hwf.
  cbv zeta in Hwf.
  assert (Hrows : rows w' = Qceiling (inject_Z ch / inject_Z CELL_SIZE) + 1)
    by done.
  assert (Hcols : cols w' = Qceiling (inject_Z cw / inject_Z CELL_SIZE) + 1)
    by done.
  assert (Hin : in_bounds (rows w') (cols w') (pointerRow my) (pointerCol mx))
    by (unfold in_bounds; lia).
  split_and!; [done| |lia|lia|].
  - by eapply in_bounds_grid_get.
  - intros r c [Hbr Hbc] Hr Hc. eapply in_bounds_grid_get; [exact Hwf|].
    unfold in_bounds. lia.
Qed.

(** The pointer at [(120, 120)] on the 198 × 198 canvas. *)
Lemma canvas_covered_witness :
  in_bounds (rows small) (cols small) (pointerRow 120) (pointerCol 120) ∧
  is_Some (grid_get (grid small) (pointerRow 120) (pointerCol 120)) ∧
  pointerRow 120 + 1 < rows small ∧ pointerCol 120 + 1 < cols small ∧
  (∀ r c, in_block (pointerRow 120) (pointerCol 120) r c →
     0 ≤ r → 0 ≤ c → is_Some (grid_get (grid small) r c)).
Proof.
  apply (canvas_covered thirds 198 198 blank 120 120); reflexivity || done.
Defined.

(** ** The random glyph *)

Lemma Qfloor_eq x j :
  Qfloor x = j ↔ (inject_Z j <= x)%Q ∧ (x < inject_Z (j + 1))%Q.
Proof.
  split.
  - intros <-. split; [apply Qfloor_le|apply Qlt_floor].
  - intros [Hlo Hhi].
    assert (H1 : j ≤ Qfloor x).
    { apply Qfloor_resp_le in Hlo. by rewrite Qfloor_Z in Hlo. }
    assert (H2 : Qfloor x < j + 1).
    { rewrite Zlt_Qlt. eapply Qle_lt_trans; [apply Qfloor_le|done]. }
    lia.
Qed.

Lemma NoDup_SYMBOLS : NoDup SYMBOLS.
Proof. apply (bool_decide_unpack _). vm_compute. exact I. Qed.

(** X3. [randSymbol] cuts the unit interval into 25 buckets of equal width,
    one per character of [SYMBOLS], in order: a value of [Math.random()] in
    [[j/25, (j+1)/25)] gives the [j]-th symbol, and the [j]-th symbol comes
    from such a value.  At a bucket edge the product [Math.random() * 25]
    can be rounded to the next integer, so the value is kept [bucket_slack]
    away from the upper edge in the first statement and allowed that far
    below the lower edge in the second. *)
Theorem randSymbol_bucket random i j ch :
  unit_interval random → index SYMBOLS j = Some ch →
  ((inject_Z j / 25 <= random i)%Q ∧
   (random i <= inject_Z (j + 1) / 25 - bucket_slack)%Q →
   randSymbol random i = Glyph ch) ∧
  (randSymbol random i = Glyph ch →
   (inject_Z j / 25 - bucket_slack <= random i)%Q ∧
   (random i < inject_Z (j + 1) / 25)%Q).
Proof.
  intros Hu Hj.
  assert (Hk : Qfloor (random i * 25) = j ↔
               (inject_Z j / 25 <= random i)%Q ∧
               (random i < inject_Z (j + 1) / 25)%Q).
  { rewrite Qfloor_eq.
    generalize (inject_Z j) (inject_Z (j + 1)) (random i). intros a b x.
    change (a / 25)%Q with (a * (1 # 25))%Q.
    change (b / 25)%Q with (b * (1 # 25))%Q.
    split; intros [H1 H2]; split; lra. }
  assert (Hs : (0 < bucket_slack)%Q) by done.
  unfold randSymbol.
  change (inject_Z (Z.of_nat (length SYMBOLS))) with 25%Q.
  split.
  - intros [Hlo Hhi].
    assert (Hfl : Qfloor (random i * 25) = j) by (apply Hk; split; lra).
    by rewrite Hfl, Hj.
  - destruct (index SYMBOLS (Qfloor (random i * 25))) as [ch'|] eqn:Hidx;
      [|discriminate].
    intros [= ->].
    apply index_Some in Hidx as [Hk0 Hk1]. apply index_Some in Hj as [Hj0 Hj1].
    pose proof (NoDup_lookup _ _ _ _ NoDup_SYMBOLS Hk1 Hj1) as Heq.
    assert (Hfl : Qfloor (random i * 25) = j) by lia.
    apply Hk in Hfl as [Hlo Hhi]. split; lra.
Qed.

(** The draw [random = 1/3] falls in the bucket of the ninth symbol. *)
Lemma randSymbol_bucket_witness :
  ((inject_Z 8 / 25 <= thirds 1)%Q ∧
   (thirds 1 <= inject_Z (8 + 1) / 25 - bucket_slack)%Q →
   randSymbol thirds 1 = Glyph "{") ∧
  (randSymbol thirds 1 = Glyph "{" →
   (inject_Z 8 / 25 - bucket_slack <= thirds 1)%Q ∧
   (thirds 1 < inject_Z (8 + 1) / 25)%Q).
Proof.
  apply (randSymbol_bucket thirds 1 8 "{"); [apply thirds_unit|reflexivity].
Defined.

(** ** What the handlers do to one cell *)

Lemma visited_dec (l : list Z) r c :
  (∃ k, k ∈ l ∧ decode k = (r, c)) ∨ (∀ k, k ∈ l → decode k ≠ (r, c)).
Proof.
  destruct (decide (Exists (λ k, decode k = (r, c)) l)) as [H|H].
  - left. apply Exists_exists in H. done.
  - right. intros k Hk Hd. apply H, Exists_exists. eauto.
Qed.

Lemma tick_elapsed now w :
  doScrambleTick now w = true → (lastFrame w + FRAME_INTERVAL <= now)%Q.
Proof.
  unfold doScrambleTick. intros H. apply Qle_bool_iff in H. lra.
Qed.

Lemma FRAME_INTERVAL_pos : (0 < FRAME_INTERVAL)%Q.
Proof. reflexivity. Qed.

(** A frame leaves every cell as it was or ticks it once; it ticks every
    animating cell in a column below 10000. *)
Lemma animate_cells random now w :
  Inv w →
  ∃ w',
    animate random now w = Some w' ∧ Inv w' ∧ pruned w' ∧
    cols w' = cols w ∧ rows w' = rows w ∧
    lastFrame w' = (if doScrambleTick now w then now else lastFrame w) ∧
    (∀ r c cell, grid_get (grid w) r c = Some cell →
       (c < 10000 → state cell ≠ Idle →
          ∃ i, grid_get (grid w') r c =
                 Some (cellTick random (doScrambleTick now w) now i cell)) ∧
       (grid_get (grid w') r c = Some cell ∨
        ∃ i, grid_get (grid w') r c =
               Some (cellTick random (doScrambleTick now w) now i cell))) ∧
    (∀ r c cell', grid_get (grid w') r c = Some cell' →
       ∃ cell, grid_get (grid w) r c = Some cell).
Proof.
  intros HI.
  destruct (Inv_animate random now w HI) as (w' & Hrun & HI' & Hpruned).
  destruct HI as [Hwf Hnd Hpos Htr _ _].
  destruct (animate_spec random now w Hwf Hnd Hpos) as
    (p & w'' & _ & Hrun' & Hwf' & Hc & Hr & _ & _ & _ & Hlf & _ & _ &
     Hcells & _).
  rewrite Hrun in Hrun'. injection Hrun' as <-.
  exists w'. split_and!; try done.
  - intros r c cell Hcell. destruct (Hcells r c cell Hcell) as [Hhit Hmiss].
    split.
    + intros Hlt Hst. apply Hhit. exists (key r c).
      pose proof Hcell as (Hr0 & Hc0 & _)%grid_get_Some.
      split; [by eapply Htr|by apply decode_key].
    + destruct (visited_dec (dirtySet w) r c) as [Hk|Hk]; [right|left]; auto.
  - intros r c cell' Hg. apply (in_bounds_grid_get _ (rows w) (cols w));
      [done|]. rewrite <- Hc, <- Hr. by eapply grid_get_in_bounds.
Qed.

(** A pointer move leaves every cell as it was or arms it. *)
Lemma onMouseMove_back random mx my w w' :
  Inv w → onMouseMove random mx my w = Some w' →
  lastFrame w' = lastFrame w ∧
  (∀ r c cell, grid_get (grid w) r c = Some cell →
     grid_get (grid w') r c = Some cell ∨
     (state cell = Idle ∧
      ∃ i, grid_get (grid w') r c = Some (arm random i cell))) ∧
  (∀ r c cell', grid_get (grid w') r c = Some cell' →
     ∃ cell, grid_get (grid w) r c = Some cell).
Proof.
  intros HI Hmove.
  destruct (onMouseMove_cells random mx my w (inv_wf w HI)) as
    (w'' & Hrun & Hwf' & Hc & Hr & Hlf & _ & _ & _ & Hcells).
  rewrite Hmove in Hrun. injection Hrun as <-.
  split_and!; [done| |].
  - intros r c cell Hcell.
    destruct (Hcells r c cell Hcell) as [?|(? & _ & ?)]; auto.
  - intros r c cell' Hg. apply (in_bounds_grid_get _ (rows w) (cols w));
      [apply HI|]. rewrite <- Hc, <- Hr. by eapply grid_get_in_bounds.
Qed.

(** ** Glyphs, counters and settling times of a running engine *)

Section Soundness.

Variable random : nat → Q.
Hypothesis Hunit : unit_interval random.

Lemma isGlyph_randSymbol i : isGlyph (randSymbol random i).
Proof. apply randSymbol_glyph, Hunit. Qed.

Lemma Sound_buildGrid cw ch w : Sound (buildGrid random cw ch w).
Proof.
  split; intros r c cell (j & _ & ->)%buildGrid_fresh; try done.
  apply isGlyph_randSymbol.
Qed.

Lemma Sound_onMouseMove mx my w w' :
  Inv w → Sound w → onMouseMove random mx my w = Some w' → Sound w'.
Proof.
  intros HI [Hsym Horig Hfl Hstart] Hmove.
  destruct (onMouseMove_back random mx my w w' HI Hmove) as
    (Hlf & Hcells & Hback).
  assert (Hcase : ∀ r c cell', grid_get (grid w') r c = Some cell' →
            ∃ cell, grid_get (grid w) r c = Some cell ∧
              (cell' = cell ∨ ∃ i, state cell = Idle ∧
                                   cell' = arm random i cell)).
  { intros r c cell' Hg. destruct (Hback r c cell' Hg) as [cell Hcell].
    exists cell. split; [done|].
    destruct (Hcells r c cell Hcell) as [H|(Hi & i & H)];
      rewrite Hg in H; injection H as ->; eauto. }
  split; intros r c cell' Hg;
    destruct (Hcase r c cell' Hg) as (cell & Hcell & [->|(i & Hi & ->)]).
  - eauto.
  - rewrite arm_eq. cbn [symbol]. eauto.
  - eauto.
  - intros _. rewrite arm_eq. cbn [origSymbol]. eauto.
  - eauto.
  - intros _. rewrite arm_eq. cbn [framesLeft].
    pose proof (jitter_range random i Hunit). unfold SCRAMBLE_FRAMES. lia.
  - rewrite Hlf. eauto.
  - rewrite arm_eq. done.
Qed.

(** One visit of the scheduler on a cell that satisfies [Sound]. *)
Lemma cellTick_sound tick now i cell :
  isGlyph (symbol cell) →
  (state cell ≠ Idle → isGlyph (origSymbol cell)) →
  (state cell = Scramble → 1 ≤ framesLeft cell ≤ 8) →
  let cell' := cellTick random tick now i cell in
  isGlyph (symbol cell') ∧
  (state cell' ≠ Idle → isGlyph (origSymbol cell')) ∧
  (state cell' = Scramble → 1 ≤ framesLeft cell' ≤ 8) ∧
  (state cell' = Settling →
     (state cell = Settling ∧ settleStart cell' = settleStart cell) ∨
     (tick = true ∧ settleStart cell' = now)).
Proof.
  intros Hsym Horig Hfl. unfold cellTick.
  destruct (state cell) eqn:Hst; cbv zeta.
  - rewrite Hst. split_and!; done.
  - specialize (Hfl eq_refl).
    assert (Ho : isGlyph (origSymbol cell)) by (by apply Horig).
    destruct tick.
    + rewrite scrambleStep_eq by done.
      case_bool_decide;
        cbn [symbol origSymbol state framesLeft settleStart];
        split_and!; intros; try done; try lia; try (by right).
      apply isGlyph_randSymbol.
    + rewrite Hst. split_and!; intros; done.
  - assert (Ho : isGlyph (origSymbol cell)) by (by apply Horig).
    rewrite settleStep_eq by done. cbv zeta.
    destruct (Qle_bool _ _);
      cbn [fst symbol origSymbol state framesLeft settleStart];
      split_and!; intros; try done; try (by left).
Qed.

Lemma Sound_animate now w w' :
  Inv w → Sound w → animate random now w = Some w' → Sound w'.
Proof.
  intros HI [Hsym Horig Hfl Hstart] Hrun.
  destruct (animate_cells random now w HI) as
    (w'' & Hrun' & _ & _ & _ & _ & Hlf & Hcells & Hback).
  rewrite Hrun in Hrun'. injection Hrun' as <-.
  assert (Hmono : (lastFrame w <= lastFrame w')%Q).
  { rewrite Hlf. destruct (doScrambleTick now w) eqn:Htick; [|lra].
    pose proof (tick_elapsed now w Htick). pose proof FRAME_INTERVAL_pos.
    lra. }
  assert (Hcase : ∀ r c cell', grid_get (grid w') r c = Some cell' →
            ∃ cell, grid_get (grid w) r c = Some cell ∧
              (cell' = cell ∨
               ∃ i, cell' = cellTick random (doScrambleTick now w) now i cell)).
  { intros r c cell' Hg. destruct (Hback r c cell' Hg) as [cell Hcell].
    exists cell. split; [done|].
    destruct (Hcells r c cell Hcell) as [_ [H|(i & H)]];
      rewrite Hg in H; injection H as ->; eauto. }
  split; intros r c cell' Hg;
    destruct (Hcase r c cell' Hg) as (cell & Hcell & [->|(i & ->)]).
  - eauto.
  - apply cellTick_sound; eauto.
  - eauto.
  - apply cellTick_sound; eauto.
  - eauto.
  - apply cellTick_sound; eauto.
  - intros Hst. eapply Qle_trans; [|exact Hmono]. eauto.
  - intros Hst.
    destruct (cellTick_sound (doScrambleTick now w) now i cell) as
      (_ & _ & _ & Hs); eauto.
    destruct (Hs Hst) as [[Hst0 ->]|[Htick ->]].
    + eapply Qle_trans; [|exact Hmono]. eauto.
    + rewrite Hlf, Htick. lra.
Qed.

Lemma Sound_handle e w w' :
  Inv w → Sound w → handle random e w = Some w' → Sound w'.
Proof.
  intros HI HS He. destruct e as [cw ch|mx my| |now]; simpl in He.
  - injection He as <-. apply Sound_buildGrid.
  - by eapply Sound_onMouseMove.
  - injection He as <-. by destruct HS.
  - by eapply Sound_animate.
Qed.

Lemma reachable_Sound w : reachable random w → Sound w.
Proof.
  induction 1 as [cw ch|e w w' Hw IH He].
  - apply Sound_buildGrid.
  - eapply Sound_handle; [|exact IH|exact He].
    by apply (reachable_Inv random).
Qed.

End Soundness.

(** X4. In every world the page can reach, the glyph of every cell is a
    character of [SYMBOLS]: [fillText] is never handed [null] or
    [undefined].  The saved glyph of a scrambling or settling cell is such a
    character too, and an idle cell has none. *)
Theorem glyphs_always_drawable random w r c cell :
  unit_interval random → reachable random w →
  grid_get (grid w) r c = Some cell →
  isGlyph (symbol cell) ∧
  (state cell ≠ Idle → isGlyph (origSymbol cell)) ∧
  (state cell = Idle → origSymbol cell = Null).
Proof.
  intros Hu Hreach Hcell.
  destruct (reachable_Sound random Hu w Hreach) as [Hsym Horig _ _].
  pose proof (reachable_Inv random w Hreach) as HI.
  split_and!; eauto.
  intros Hst. by destruct (inv_idle w HI r c cell Hcell Hst).
Qed.

(** The cell [(5, 5)] when it has just begun to settle. *)
Lemma glyphs_always_drawable_witness :
  isGlyph (symbol settlingCell) ∧
  (state settlingCell ≠ Idle → isGlyph (origSymbol settlingCell)) ∧
  (state settlingCell = Idle → origSymbol settlingCell = Null).
Proof.
  apply (glyphs_always_drawable thirds settling 5 5 settlingCell).
  - apply thirds_unit.
  - apply reachable_settling.
  - apply settling_cell.
Defined.

(** X5. In every world the page can reach, a scrambling cell has between 1
    and 8 scramble ticks left, and a settling cell began to settle at the
    time of a scramble tick, which is never later than [lastFrame]. *)
Theorem counter_and_start_bounds random w r c cell :
  unit_interval random → reachable random w →
  grid_get (grid w) r c = Some cell →
  (state cell = Scramble → 1 ≤ framesLeft cell ≤ 8) ∧
  (state cell = Settling → (settleStart cell <= lastFrame w)%Q).
Proof.
  intros Hu Hreach Hcell.
  destruct (reachable_Sound random Hu w Hreach) as [_ _ Hfl Hstart].
  split; eauto.
Qed.

(** The cell [(5, 5)] right after its activation. *)
Lemma counter_and_start_bounds_witness :
  (state armedCell = Scramble → 1 ≤ framesLeft armedCell ≤ 8) ∧
  (state armedCell = Settling → (settleStart armedCell <= lastFrame armed)%Q).
Proof.
  apply (counter_and_start_bounds thirds armed 5 5 armedCell).
  - apply thirds_unit.
  - apply reachable_armed.
  - apply armed_cell.
Defined.

(** ** The glyph at rest *)

Lemma resting_cellTick random tick now i g cell :
  resting g cell → resting g (cellTick random tick now i cell).
Proof.
  unfold cellTick. destruct (state cell) eqn:Hst.
  - done.
  - destruct tick; [|done].
    unfold resting at 1. rewrite Hst. intros Hg.
    rewrite scrambleStep_eq by done. unfold resting.
    case_bool_decide; cbn [state symbol origSymbol]; done.
  - unfold resting at 1. rewrite Hst. intros [Hs Ho].
    rewrite settleStep_eq by done. cbv zeta. unfold resting.
    destruct (Qle_bool _ _); cbn [fst state symbol origSymbol]; done.
Qed.

Lemma resting_arm random i g cell :
  state cell = Idle → resting g cell → resting g (arm random i cell).
Proof.
  intros Hst. unfold resting. rewrite Hst, arm_eq. cbn. done.
Qed.

Lemma resting_run random g r c es :
  ∀ w w' cell,
    Inv w → noResize es → run random es w = Some w' →
    grid_get (grid w) r c = Some cell → resting g cell →
    ∃ cell', grid_get (grid w') r c = Some cell' ∧ resting g cell'.
Proof.
  induction es as [|e es IH]; intros w w' cell HI Hres Hrun Hcell Hg.
  { injection Hrun as <-. eauto. }
  apply Forall_cons in Hres as [Hres Hres'].
  simpl in Hrun. apply bind_Some in Hrun as (w1 & He & Hrun).
  pose proof (Inv_handle random e w w1 HI He) as HI1.
  assert (H1 : ∃ cell1, grid_get (grid w1) r c = Some cell1 ∧
                        resting g cell1).
  { destruct e as [cw ch|mx my| |now]; simpl in He.
    - done.
    - destruct (onMouseMove_back random mx my w w1 HI He) as (_ & Hcells & _).
      destruct (Hcells r c cell Hcell) as [?|(Hi & i & ?)]; [eauto|].
      eexists. split; [done|]. by apply resting_arm.
    - injection He as <-. eauto.
    - destruct (animate_cells random now w HI) as
        (w'' & Hrun' & _ & _ & _ & _ & _ & Hcells & _).
      rewrite He in Hrun'. injection Hrun' as <-.
      destruct (Hcells r c cell Hcell) as [_ [?|(i & ?)]]; [eauto|].
      eexists. split; [done|]. by apply resting_cellTick. }
  destruct H1 as (cell1 & Hcell1 & Hg1). eauto.
Qed.

(** X6. An animation never changes the glyph of a cell for good.  Through
    any events without a rebuild, the glyph a cell shows at rest is kept: it
    is on display while the cell is idle or settling, and saved in
    [origSymbol] while the cell scrambles.  A cell that was idle and is not
    scrambling shows the glyph it showed before. *)
Theorem glyph_restored random es w w' r c cell cell' g :
  reachable random w → noResize es → run random es w = Some w' →
  grid_get (grid w) r c = Some cell →
  grid_get (grid w') r c = Some cell' →
  (resting g cell → resting g cell') ∧
  (state cell = Idle → state cell' ≠ Scramble → symbol cell' = symbol cell).
Proof.
  intros Hreach Hres Hrun Hcell Hcell'.
  pose proof (reachable_Inv random w Hreach) as HI.
  assert (Hkeep : ∀ g, resting g cell → resting g cell').
  { intros g' Hg.
    destruct (resting_run random g' r c es w w' cell HI Hres Hrun Hcell Hg)
      as (cell'' & Hc'' & Hg'').
    rewrite Hcell' in Hc''. by injection Hc'' as <-. }
  split; [apply Hkeep|].
  intros Hst Hst'. specialize (Hkeep (symbol cell)).
  unfold resting in Hkeep. rewrite Hst in Hkeep. specialize (Hkeep eq_refl).
  destruct (state cell'); [done|done|]. by destruct Hkeep.
Qed.

(** The cell [(5, 5)] of the 10 × 10 grid, from idle to the start of its
    settling. *)
Lemma glyph_restored_witness :
  (resting (Glyph "{") smallCell → resting (Glyph "{") settlingCell) ∧
  (state smallCell = Idle → state settlingCell ≠ Scramble →
   symbol settlingCell = symbol smallCell).
Proof.
  apply (glyph_restored thirds
           ([MouseMove 120 120] ++ sevenTicks ++ [Frame 400])
           small settling 5 5 smallCell settlingCell (Glyph "{")).
  - apply reachable_small.
  - repeat constructor.
  - vm_compute. reflexivity.
  - apply small_cell.
  - apply settling_cell.
Defined.

(** ** The colours on the canvas *)

Lemma timely_reachable random w : timely random w → reachable random w.
Proof.
  induction 1 as [cw ch|e w w' _ IH _ He]; [apply reach_init|].
  by eapply reach_step.
Qed.

Lemma isTone_base : isTone BASE_COLOR.
Proof. exists 224. split; [lia|reflexivity]. Qed.

Lemma isTone_hover : isTone HOVER_COLOR.
Proof. exists 136. split; [lia|reflexivity]. Qed.

Lemma cellTick_tone random tick now i cell :
  isTone (color cell) →
  (state cell = Settling → (settleStart cell <= now)%Q) →
  isTone (color (cellTick random tick now i cell)).
Proof.
  intros Hc Hstart. unfold cellTick. destruct (state cell) eqn:Hst.
  - done.
  - destruct tick; [|done]. rewrite scrambleStep_eq by done.
    case_bool_decide; apply isTone_hover.
  - rewrite settleStep_eq by done. cbv zeta.
    destruct (Qle_bool _ _); cbn [fst color]; [apply isTone_base|].
    destruct (settleColor_rgb (settleStart cell) now (Hstart eq_refl))
      as [_ Hv].
    rewrite settleColor_tone. cbv zeta. eexists. split; [exact Hv|done].
Qed.

(** X7. While the timestamps of the frames do not go back, every colour in
    the grid is a grey between the hover tone [#888888] and the base tone
    [#e0e0e0]: a string of [#] and six digits printed by [rgbToHex] from
    three equal channels of [[136, 224]].  The interpolation is never asked
    for a colour outside the two tones, and [fillStyle] is never handed a
    malformed string. *)
Theorem colours_in_range random w r c cell :
  unit_interval random → timely random w →
  grid_get (grid w) r c = Some cell →
  isTone (color cell) ∧
  ∃ v, 136 ≤ v ≤ 224 ∧ hexToRGB (color cell) = (v, v, v).
Proof.
  intros Hu Hw Hcell.
  assert (Htone : isTone (color cell)).
  { revert r c cell Hcell.
    induction Hw as [cw ch|e w w' Hw IH Htime He]; intros r c cell' Hcell.
    { apply buildGrid_fresh in Hcell as (j & _ & ->). apply isTone_base. }
    pose proof (timely_reachable random w Hw) as Hreach.
    pose proof (reachable_Inv random w Hreach) as HI.
    destruct e as [cw ch|mx my| |now]; simpl in He.
    - injection He as <-.
      apply buildGrid_fresh in Hcell as (j & _ & ->). apply isTone_base.
    - destruct (onMouseMove_back random mx my w w' HI He) as
        (_ & Hcells & Hback).
      destruct (Hback r c cell' Hcell) as [cell Hg].
      destruct (Hcells r c cell Hg) as [H|(_ & i & H)];
        rewrite Hcell in H; injection H as ->; [by eapply IH|].
      rewrite arm_eq. cbn [color]. by eapply IH.
    - injection He as <-. by eapply IH.
    - destruct (animate_cells random now w HI) as
        (w'' & Hrun & _ & _ & _ & _ & _ & Hcells & Hback).
      rewrite He in Hrun. injection Hrun as <-.
      destruct (Hback r c cell' Hcell) as [cell Hg].
      destruct (Hcells r c cell Hg) as [_ [H|(i & H)]];
        rewrite Hcell in H; injection H as ->; [by eapply IH|].
      apply cellTick_tone; [by eapply IH|]. intros Hst.
      eapply Qle_trans; [|apply (Htime now eq_refl)].
      by apply (sound_start w (reachable_Sound random Hu w Hreach) r c cell). }
  split; [done|]. destruct Htone as (v & Hv & ->).
  exists v. split; [done|]. apply hexToRGB_rgbToHex; lia.
Qed.

(** The cell [(5, 5)] of the 10 × 10 grid after its first scramble tick. *)
Lemma colours_in_range_witness :
  isTone (color (default smallCell
                   (grid_get (grid (after thirds [Frame 50] armed)) 5 5))) ∧
  ∃ v, 136 ≤ v ≤ 224 ∧
       hexToRGB (color (default smallCell
                   (grid_get (grid (after thirds [Frame 50] armed)) 5 5)))
         = (v, v, v).
Proof.
  apply (colours_in_range thirds (after thirds [Frame 50] armed) 5 5).
  - apply thirds_unit.
  - apply (timely_step thirds (Frame 50) armed).
    + apply (timely_step thirds (MouseMove 120 120) small);
        [apply timely_init|done|].
      vm_compute. reflexivity.
    + intros now [= <-]. vm_compute. discriminate.
    + vm_compute. reflexivity.
  - vm_compute. reflexivity.
Defined.

(** ** The pointer leaves and comes back *)

(** X8. A move inside the tracked cell is ignored, even when the cells
    around it have gone back to idle; once the pointer has left the canvas,
    its next move on the canvas arms the idle cells of the block around it
    again, also when it comes back to the cell it was tracked in. *)
Theorem pointer_return random mx my w :
  reachable random w → (0 <= mx)%Q → (0 <= my)%Q →
  (pointerCol mx = mouseCol w → pointerRow my = mouseRow w →
     onMouseMove random mx my w = Some w) ∧
  ∃ w', onMouseMove random mx my (onMouseLeave w) = Some w' ∧
    ∀ r c cell,
      grid_get (grid w) r c = Some cell → state cell = Idle →
      in_block (pointerRow my) (pointerCol mx) r c →
      ∃ cell', grid_get (grid w') r c = Some cell' ∧
               state cell' = Scramble ∧ key r c ∈ dirtySet w'.
Proof.
  intros Hreach Hx Hy. split; [apply onMouseMove_same|].
  assert (Hcol : 0 ≤ pointerCol mx).
  { assert (H : (0 <= mx / inject_Z CELL_SIZE)%Q).
    { apply Qle_shift_div_l; [done|]. by rewrite Qmult_0_l. }
    apply Qfloor_resp_le in H. exact H. }
  pose proof (inv_wf w (reachable_Inv random w Hreach)) as Hwf.
  destruct (onMouseMove_moved random mx my (onMouseLeave w) Hwf) as
    (w' & Hrun & _ & _ & _ & _ & _ & _ & _ & _ & Hcells & Hkeys).
  { cbn [onMouseLeave mouseCol mouseRow]. lia. }
  exists w'. split; [done|]. intros r c cell Hcell Hidle Hblock.
  destruct (Hcells r c cell Hcell) as [Harm _].
  destruct (Harm Hidle Hblock) as (i & _ & Hg).
  exists (arm random i cell). split_and!; [done|done|].
  apply Hkeys. right. exists r, c, cell. done.
Qed.

(** The pointer comes back to the cell [(5, 5)] of the 10 × 10 grid, which
    it had entered before; the nine cells of the block are idle again. *)
Lemma pointer_return_witness :
  (pointerCol 120 = mouseCol (after thirds (Frame <$> sixteenFrames) armed) →
   pointerRow 120 = mouseRow (after thirds (Frame <$> sixteenFrames) armed) →
   onMouseMove thirds 120 120 (after thirds (Frame <$> sixteenFrames) armed) =
     Some (after thirds (Frame <$> sixteenFrames) armed)) ∧
  ∃ w', onMouseMove thirds 120 120
          (onMouseLeave (after thirds (Frame <$> sixteenFrames) armed)) =
          Some w' ∧
    ∀ r c cell,
      grid_get (grid (after thirds (Frame <$> sixteenFrames) armed)) r c =
        Some cell →
      state cell = Idle →
      in_block (pointerRow 120) (pointerCol 120) r c →
      ∃ cell', grid_get (grid w') r c = Some cell' ∧
               state cell' = Scramble ∧ key r c ∈ dirtySet w'.
Proof.
  apply (pointer_return thirds 120 120
           (after thirds (Frame <$> sixteenFrames) armed)); [|done|done].
  apply reachable_after; [apply reachable_armed|].
  vm_compute. eexists. reflexivity.
Defined.

(** ** The scramble cadence *)

Lemma activate_lastFrame random offs :
  ∀ w w', forEachM (activate random) offs w = Some w' →
          lastFrame w' = lastFrame w.
Proof.
  induction offs as [|d offs IH]; intros w w' Hrun.
  { by injection Hrun as <-. }
  simpl in Hrun. apply bind_Some in Hrun as (w1 & Hact & Hrun).
  rewrite (IH w1 w' Hrun). unfold activate in Hact.
  case_bool_decide; [|by injection Hact as <-].
  destruct (grid_get _ _ _) as [cell|]; [|done]. simpl in Hact.
  case_decide; by injection Hact as <-.
Qed.

Lemma handle_lastFrame random e w w' :
  handle random e w = Some w' →
  lastFrame w' =
    match e with
    | Frame now => if doScrambleTick now w then now else lastFrame w
    | _ => lastFrame w
    end.
Proof.
  destruct e as [cw ch|mx my| |now]; simpl.
  - by intros [= <-].
  - unfold onMouseMove. case_bool_decide; [by intros [= <-]|].
    intros Hact. by rewrite (activate_lastFrame random _ _ _ Hact).
  - by intros [= <-].
  - unfold animate. intros Hp. apply bind_Some in Hp as (p & _ & [= <-]).
    done.
Qed.

(** X9. The scramble cadence is throttled: through any events, [lastFrame]
    never goes back, and it advances by at least [FRAME_INTERVAL] on every
    frame on which the scramble cadence fires, so [n] scramble ticks take at
    least [n * FRAME_INTERVAL] (50 ms each), however often the browser
    calls [animate] and whatever timestamps it passes. *)
Theorem scramble_ticks_throttled random es w w' :
  run random es w = Some w' →
  (lastFrame w +
   inject_Z (Z.of_nat (scrambleTicks random es w)) * FRAME_INTERVAL
   <= lastFrame w')%Q.
Proof.
  revert w. induction es as [|e es IH]; intros w Hrun.
  { injection Hrun as <-. cbn [scrambleTicks].
    change (inject_Z (Z.of_nat 0)) with 0%Q. lra. }
  cbn [run scrambleTicks] in Hrun |- *.
  destruct (handle random e w) as [w1|] eqn:He; [|done].
  cbn [mbind option_bind] in Hrun. specialize (IH w1 Hrun).
  pose proof (handle_lastFrame random e w w1 He) as Hlf.
  pose proof FRAME_INTERVAL_pos as Hpos.
  set (n := scrambleTicks random es w1) in *.
  rewrite Nat2Z.inj_add, inject_Z_plus.
  destruct e as [cw ch|mx my| |now];
    try (rewrite Hlf in IH; change (inject_Z (Z.of_nat 0)) with 0%Q; lra).
  destruct (doScrambleTick now w) eqn:Htick; rewrite Hlf in IH.
  - pose proof (tick_elapsed now w Htick) as Hel.
    change (inject_Z (Z.of_nat 1)) with 1%Q. lra.
  - change (inject_Z (Z.of_nat 0)) with 0%Q. lra.
Qed.

(** Seven scramble ticks take the clock of [armed] from 0 to 350. *)
Lemma scramble_ticks_throttled_witness :
  (lastFrame armed +
   inject_Z (Z.of_nat (scrambleTicks thirds sevenTicks armed)) * FRAME_INTERVAL
   <= lastFrame (after thirds sevenTicks armed))%Q.
Proof.
  apply (scramble_ticks_throttled thirds sevenTicks armed).
  vm_compute. reflexivity.
Defined.

(** ** Running to completion *)

Lemma run_Inv random es :
  ∀ w, Inv w → ∃ w', run random es w = Some w' ∧ Inv w'.
Proof.
  induction es as [|e es IH]; intros w HI; [by exists w|].
  destruct (handle_total random e w HI) as [w1 He].
  destruct (IH w1 (Inv_handle random e w w1 HI He)) as (w' & Hrun & HI').
  exists w'. simpl. rewrite He. done.
Qed.

Lemma run_reachable random es :
  ∀ w w', reachable random w → run random es w = Some w' →
          reachable random w'.
Proof.
  induction es as [|e es IH]; intros w w' Hw Hrun.
  { by injection Hrun as <-. }
  simpl in Hrun. apply bind_Some in Hrun as (w1 & He & Hrun).
  eapply IH; [|exact Hrun]. by eapply reach_step.
Qed.

(** X10. The engine never throws.  From every world the page can reach, any
    sequence of rebuilds, pointer moves, pointer leaves and frames runs to
    its end: no handler indexes the grid at an [undefined] entry, whatever
    the pointer position, the timestamps and the sizes of the canvas. *)
Theorem engine_never_throws random es w :
  reachable random w →
  ∃ w', run random es w = Some w' ∧ reachable random w'.
Proof.
  intros Hreach.
  destruct (run_Inv random es w (reachable_Inv random w Hreach))
    as (w' & Hrun & _).
  exists w'. split; [done|]. by eapply run_reachable.
Qed.

(** A pointer far outside the grid, in the negative, then a rebuild on an
    empty canvas and a frame, while cells scramble. *)
Lemma engine_never_throws_witness :
  ∃ w', run thirds
          [MouseMove (-50) (-50); MouseMove 5000 5000; Resize 0 0; Frame 50;
           MouseLeave; MouseMove 0 0]
          armed = Some w' ∧
        reachable thirds w'.
Proof. apply (engine_never_throws thirds _ armed). apply reachable_armed. Defined.

(** ** Quiescence *)

(** What a frame makes of a cell in a column below 10000: an idle cell is
    left alone, an animating one is ticked. *)
Lemma frame_cell random now w w' r c cell' :
  Inv w → animate random now w = Some w' →
  grid_get (grid w') r c = Some cell' → c < 10000 →
  ∃ cell, grid_get (grid w) r c = Some cell ∧
    ((state cell = Idle ∧ cell' = cell) ∨
     (state cell ≠ Idle ∧
      ∃ i, cell' = cellTick random (doScrambleTick now w) now i cell)).
Proof.
  intros HI Hrun Hg Hlt.
  destruct (animate_cells random now w HI) as
    (w'' & Hrun' & _ & _ & _ & _ & _ & Hcells & Hback).
  rewrite Hrun in Hrun'. injection Hrun' as <-.
  destruct (Hback r c cell' Hg) as [cell Hcell].
  exists cell. split; [done|].
  destruct (Hcells r c cell Hcell) as [Hhit Hany].
  destruct (decide (state cell = Idle)) as [Hst|Hst].
  - left. split; [done|].
    destruct Hany as [H|(i & H)]; rewrite Hg in H; injection H as ->;
      [done|].
    unfold cellTick. by rewrite Hst.
  - right. split; [done|]. destruct (Hhit Hlt Hst) as (i & H).
    rewrite Hg in H. injection H as ->. eauto.
Qed.

Lemma counters_below_frame random now w w' m :
  Inv w → animate random now w = Some w' → doScrambleTick now w = true →
  counters_below m w → counters_below (m - 1) w'.
Proof.
  intros HI Hrun Htick Hm r c cell' Hg Hlt Hst'.
  destruct (frame_cell random now w w' r c cell' HI Hrun Hg Hlt) as
    (cell & Hcell & [[Hst ->]|(Hst & i & ->)]); [congruence|].
  rewrite Htick in Hst' |- *. unfold cellTick in Hst' |- *.
  destruct (state cell) eqn:Hs; [done| |].
  - rewrite scrambleStep_eq in Hst' |- * by done.
    case_bool_decide; [done|]. cbn [framesLeft].
    specialize (Hm r c cell Hcell Hlt Hs). lia.
  - rewrite settleStep_eq in Hst' by done. cbv zeta in Hst'.
    by destruct (Qle_bool _ _).
Qed.

Lemma settling_since_frame random now w w' since :
  Inv w → animate random now w = Some w' → settling_since since w →
  settling_since since w' ∧
  ((since + SETTLE_DURATION <= now)%Q → at_rest w' ∧ dirtySet w' = []).
Proof.
  intros HI Hrun Hs.
  assert (Hcell' : ∀ r c cell', grid_get (grid w') r c = Some cell' →
            c < 10000 →
            state cell' ≠ Scramble ∧
            (state cell' = Settling → (settleStart cell' <= since)%Q) ∧
            ((since + SETTLE_DURATION <= now)%Q → state cell' = Idle)).
  { intros r c cell' Hg Hlt.
    destruct (frame_cell random now w w' r c cell' HI Hrun Hg Hlt) as
      (cell & Hcell & [[Hst ->]|(Hst & i & ->)]).
    { rewrite Hst. done. }
    destruct (Hs r c cell Hcell Hlt) as [Hns Hstart].
    unfold cellTick. destruct (state cell) eqn:Hsc; [done|done|].
    specialize (Hstart eq_refl).
    rewrite settleStep_eq by done. cbv zeta.
    destruct (Qle_bool 1 (settleFraction (settleStart cell) now)) eqn:Hb;
      cbn [fst state settleStart]; split_and!; try done.
    intros Hdone.
    destruct (settleFraction_finished (settleStart cell) now) as [_ Hb'];
      [lra|congruence]. }
  split.
  - intros r c cell' Hg Hlt.
    destruct (Hcell' r c cell' Hg Hlt) as (? & ? & _). done.
  - intros Hdone.
    assert (Hrest : at_rest w').
    { intros r c cell' Hg Hlt. by apply (Hcell' r c cell' Hg Hlt). }
    split; [done|].
    destruct (animate_cells random now w HI) as
      (w'' & Hrun' & HI' & Hpruned & _).
    rewrite Hrun in Hrun'. injection Hrun' as <-.
    apply elem_of_nil_inv. intros k Hk. apply (Hpruned k Hk).
    destruct (decode k) as [r c] eqn:Hd.
    destruct (key_decode k r c (inv_keys w' HI' k Hk) Hd) as (_ & _ & _ & Hlt).
    unfold dropped. rewrite Hd. cbn [fst snd].
    destruct (decide (in_bounds (rows w') (cols w') r c)) as [Hin|Hout];
      [|by left].
    right.
    destruct (in_bounds_grid_get _ _ _ _ _ (inv_wf w' HI') Hin) as [cell Hg].
    exists cell. split; [done|]. by eapply Hrest.
Qed.

Lemma last_cons {A : Type} (l : list A) :
  ∀ x d, List.last (x :: l) d = List.last l x.
Proof.
  induction l as [|y l IH]; intros x d; [done|].
  change (List.last (x :: y :: l) d) with (List.last (y :: l) d).
  rewrite (IH y d). symmetry. apply IH.
Qed.

(** The last of [n] timestamps that tick is at least [n] intervals after
    the start. *)
Lemma ticking_last ts :
  ∀ t0, ticking t0 ts →
    (t0 + inject_Z (Z.of_nat (length ts)) * FRAME_INTERVAL
     <= List.last ts t0)%Q.
Proof.
  induction ts as [|t ts IH]; intros t0 Ht.
  { cbn [length List.last]. change (inject_Z (Z.of_nat 0)) with 0%Q. lra. }
  destruct Ht as [Ht Hts]. specialize (IH t Hts).
  rewrite last_cons. cbn [length].
  rewrite Nat2Z.inj_succ, <- Z.add_1_l, inject_Z_plus.
  change (inject_Z 1) with 1%Q. lra.
Qed.

Lemma ticking_app ts1 ts2 :
  ∀ t0, ticking t0 (ts1 ++ ts2) ↔
        ticking t0 ts1 ∧ ticking (List.last ts1 t0) ts2.
Proof.
  induction ts1 as [|t ts1 IH]; intros t0; [simpl; tauto|].
  rewrite last_cons. cbn [app ticking]. rewrite IH. tauto.
Qed.

(** Frames that tick count the scrambling cells down together. *)
Lemma countdown_frames random ts :
  ∀ w m,
    reachable random w → ticking (lastFrame w) ts → counters_below m w →
    ∃ w', run random (Frame <$> ts) w = Some w' ∧ reachable random w' ∧
          lastFrame w' = List.last ts (lastFrame w) ∧
          counters_below (m - Z.of_nat (length ts)) w'.
Proof.
  induction ts as [|t ts IH]; intros w m Hreach Hts Hm.
  { exists w. split_and!; try done. by rewrite Z.sub_0_r. }
  destruct Hts as [Ht Hts].
  pose proof (reachable_Inv random w Hreach) as HI.
  destruct (animate_cells random t w HI) as
    (w1 & Hrun1 & _ & _ & _ & _ & Hlf & _).
  assert (Htick : doScrambleTick t w = true)
    by (unfold doScrambleTick; by apply Qle_bool_iff).
  rewrite Htick in Hlf.
  assert (Hreach1 : reachable random w1)
    by (by apply (reach_step random (Frame t) w)).
  pose proof (counters_below_frame random t w w1 m HI Hrun1 Htick Hm) as Hm1.
  rewrite <- Hlf in Hts.
  destruct (IH w1 (m - 1) Hreach1 Hts Hm1) as (w' & Hrun & Hreach' & Hlf' & Hm').
  exists w'. split_and!.
  - cbn [fmap list_fmap run handle]. rewrite Hrun1. exact Hrun.
  - done.
  - rewrite Hlf', Hlf. symmetry. apply last_cons.
  - replace (m - Z.of_nat (length (t :: ts)))
      with (m - 1 - Z.of_nat (length ts)) by (cbn [length]; lia).
    done.
Qed.

(** Frames, ticking or not, keep what [settling_since] says. *)
Lemma settling_frames random since ts :
  ∀ w, Inv w → settling_since since w →
    ∃ w', run random (Frame <$> ts) w = Some w' ∧ Inv w' ∧
          settling_since since w'.
Proof.
  induction ts as [|t ts IH]; intros w HI Hs; [by exists w|].
  destruct (animate_cells random t w HI) as (w1 & Hrun1 & HI1 & _).
  destruct (settling_since_frame random t w w1 since HI Hrun1 Hs) as [Hs1 _].
  destruct (IH w1 HI1 Hs1) as (w' & Hrun & HI' & Hs').
  exists w'. split_and!; try done.
  cbn [fmap list_fmap run handle]. rewrite Hrun1. exact Hrun.
Qed.

(** X11. Every animation runs to completion.  From any world the page can
    reach, sixteen frames (or more) on which the scramble cadence fires and
    no pointer event in between leave the dirty set empty and every cell in
    a column below 10000 idle: at most eight scramble ticks bring each
    scrambling cell to settling, and eight more intervals of 50 ms cover the
    400 ms of settling. *)
Theorem animations_finish random ts w :
  unit_interval random → reachable random w →
  ticking (lastFrame w) ts → (16 ≤ length ts)%nat →
  ∃ w', run random (Frame <$> ts) w = Some w' ∧
        dirtySet w' = [] ∧ at_rest w'.
Proof.
  intros Hu Hreach Hts Hlen.
  rewrite <- (take_drop 8 ts) in Hts |- *.
  set (ts1 := take 8 ts) in *. set (ts2 := drop 8 ts) in *.
  assert (Hlen1 : length ts1 = 8%nat) by (unfold ts1; rewrite length_take; lia).
  assert (Hlen2 : (8 ≤ length ts2)%nat)
    by (unfold ts2; rewrite length_drop; lia).
  clearbody ts1 ts2.
  apply ticking_app in Hts as [Hts1 Hts2].
  assert (Hm : counters_below 8 w).
  { intros r c cell Hcell _ Hst.
    by apply (sound_frames w (reachable_Sound random Hu w Hreach) r c cell). }
  destruct (countdown_frames random ts1 w 8 Hreach Hts1 Hm) as
    (w1 & Hrun1 & Hreach1 & Hlf1 & Hm1).
  rewrite Hlen1 in Hm1. rewrite <- Hlf1 in Hts2.
  pose proof (reachable_Sound random Hu w1 Hreach1) as HS1.
  pose proof (reachable_Inv random w1 Hreach1) as HI1.
  assert (Hs1 : settling_since (lastFrame w1) w1).
  { intros r c cell Hcell Hlt. split.
    - intros Hst. pose proof (Hm1 r c cell Hcell Hlt Hst).
      pose proof (sound_frames w1 HS1 r c cell Hcell Hst). lia.
    - by apply (sound_start w1 HS1 r c cell). }
  assert (Hne : ts2 ≠ []) by (intros ->; simpl in Hlen2; lia).
  destruct (exists_last Hne) as (ts2' & t & ->).
  pose proof (ticking_last _ _ Hts2) as Hlast.
  rewrite last_last in Hlast.
  destruct (settling_frames random (lastFrame w1) ts2' w1 HI1 Hs1) as
    (w2 & Hrun2 & HI2 & Hs2).
  destruct (animate_cells random t w2 HI2) as (w' & Hrun' & _).
  destruct (settling_since_frame random t w2 w' (lastFrame w1) HI2 Hrun' Hs2)
    as [_ Hdone].
  destruct Hdone as [Hrest Hempty].
  { assert (Hn : (inject_Z 8 <= inject_Z (Z.of_nat (length (ts2' ++ [t]))))%Q)
      by (rewrite <- Zle_Qle; lia).
    revert Hlast Hn. generalize (inject_Z (Z.of_nat (length (ts2' ++ [t])))).
    intros n. change FRAME_INTERVAL with (1000 # 20)%Q.
    change SETTLE_DURATION with 400%Q. change (inject_Z 8) with 8%Q. lra. }
  exists w'. split; [|done].
  rewrite fmap_app, (run_app random), Hrun1. cbn [mbind option_bind].
  rewrite fmap_app, (run_app random), Hrun2.
  cbn [mbind option_bind fmap list_fmap run handle].
  rewrite Hrun'. done.
Qed.

(** Sixteen frames 50 ms apart, after the pointer has entered the cell
    [(5, 5)] of the 10 × 10 grid. *)
Lemma animations_finish_witness :
  ∃ w', run thirds (Frame <$> sixteenFrames) armed = Some w' ∧
        dirtySet w' = [] ∧ at_rest w'.
Proof.
  apply (animations_finish thirds sixteenFrames armed).
  - apply thirds_unit.
  - apply reachable_armed.
  - vm_compute. repeat split; discriminate.
  - vm_compute. lia.
Defined.

(** * Further properties of the helpers *)

(** ** Keys *)

(** X12. Beyond the key multiplier the packing spills into the row: for
    non-negative [r] and [c] with keys of at most [2^53], where the key is
    computed without rounding, the key of [(r, c)] decodes to row
    [r + c / 10000] and column [c mod 10000], so the cells [(r, c + 10000)]
    and [(r + 1, c)] have the same key, and the decoded column is always
    below 10000. *)
Theorem decode_key_spill r c :
  0 ≤ r → 0 ≤ c → key (r + 1) c ≤ 2 ^ 53 →
  keyDouble r c = Some (key r c) ∧
  decode (key r c) = (r + c / 10000, c mod 10000) ∧
  keyDouble r (c + 10000) = keyDouble (r + 1) c ∧
  key r (c + 10000) = key (r + 1) c ∧
  0 ≤ (decode (key r c)).2 < 10000.
Proof.
  intros Hr Hc Hk.
  assert (Hspill : key r (c + 10000) = key (r + 1) c) by (unfold key; lia).
  assert (Hd : decode (key r c) = (r + c / 10000, c mod 10000)).
  { unfold decode, key. rewrite Z.rem_mod_nonneg by lia.
    f_equal; Z.div_mod_to_equations; lia. }
  pose proof (Z.mod_pos_bound c 10000 ltac:(lia)).
  split_and!.
  - apply key_exact; [done|done|]. unfold key in *. lia.
  - done.
  - rewrite (key_exact r (c + 10000)), (key_exact (r + 1) c);
      [by rewrite Hspill|lia|lia|lia|lia|lia|by rewrite Hspill].
  - done.
  - rewrite Hd. cbn [snd]. lia.
  - rewrite Hd. cbn [snd]. lia.
Qed.

(** The cell [(0, 10000)] of the grid of 10002 columns. *)
Lemma decode_key_spill_witness :
  keyDouble 0 10000 = Some (key 0 10000) ∧
  decode (key 0 10000) = (0 + 10000 / 10000, 10000 mod 10000) ∧
  keyDouble 0 (10000 + 10000) = keyDouble (0 + 1) 10000 ∧
  key 0 (10000 + 10000) = key (0 + 1) 10000 ∧
  0 ≤ (decode (key 0 10000)).2 < 10000.
Proof. apply (decode_key_spill 0 10000); unfold key; lia. Defined.

(** ** Colours *)

(** The six digits printed for a number of [[2^24, 2^25)] after its
    leading [1]. *)
Lemma print_packed n :
  2 ^ 24 ≤ n < 2 ^ 25 →
  String "#" (slice1 (toString16 n)) =
  hexColor (n / 1048576 mod 16) (n / 65536 mod 16) (n / 4096 mod 16)
           (n / 256 mod 16) (n / 16 mod 16) (n mod 16).
Proof.
  intros Hn.
  assert (Hs : toString16 n = hexBefore n "") by (destruct n; [lia|done|lia]).
  rewrite Hs.
  set (n1 := n / 16). set (n2 := n1 / 16). set (n3 := n2 / 16).
  set (n4 := n3 / 16). set (n5 := n4 / 16).
  assert (Hd : n1 = n / 16 ∧ n2 = n1 / 16 ∧ n3 = n2 / 16 ∧ n4 = n3 / 16 ∧
               n5 = n4 / 16) by done.
  clearbody n1 n2 n3 n4 n5.
  assert (H6 : n5 / 16 = 1) by (Z.div_mod_to_equations; lia).
  assert (16 ≤ n1 ∧ 16 ≤ n2 ∧ 16 ≤ n3 ∧ 16 ≤ n4 ∧ 16 ≤ n5)
    as (? & ? & ? & ? & ?) by (Z.div_mod_to_equations; lia).
  assert (E2 : n / 256 = n2) by (Z.div_mod_to_equations; lia).
  assert (E3 : n / 4096 = n3) by (Z.div_mod_to_equations; lia).
  assert (E4 : n / 65536 = n4) by (Z.div_mod_to_equations; lia).
  assert (E5 : n / 1048576 = n5) by (Z.div_mod_to_equations; lia).
  rewrite E2, E3, E4, E5.
  destruct Hd as (Hn1 & Hn2 & Hn3 & Hn4 & Hn5).
  rewrite (hexBefore_div n), <- Hn1 by lia.
  rewrite (hexBefore_div n1), <- Hn2 by lia.
  rewrite (hexBefore_div n2), <- Hn3 by lia.
  rewrite (hexBefore_div n3), <- Hn4 by lia.
  rewrite (hexBefore_div n4), <- Hn5 by lia.
  rewrite (hexBefore_div n5), H6 by lia.
  reflexivity.
Qed.

(** The digits [rgbToHex] prints. *)
Lemma rgbToHex_hexColor r g b :
  0 ≤ r ≤ 255 → 0 ≤ g ≤ 255 → 0 ≤ b ≤ 255 →
  rgbToHex r g b =
    hexColor (r / 16) (r mod 16) (g / 16) (g mod 16) (b / 16) (b mod 16).
Proof.
  intros Hr Hg Hb. unfold rgbToHex. rewrite pack_rgb by done.
  set (n := 2 ^ 24 + r * 2 ^ 16 + g * 2 ^ 8 + b).
  assert (Hn : 2 ^ 24 ≤ n < 2 ^ 25) by (unfold n; lia).
  rewrite (print_packed n Hn).
  assert (n / 1048576 mod 16 = r / 16 ∧ n / 65536 mod 16 = r mod 16 ∧
          n / 4096 mod 16 = g / 16 ∧ n / 256 mod 16 = g mod 16 ∧
          n / 16 mod 16 = b / 16 ∧ n mod 16 = b mod 16)
    as (-> & -> & -> & -> & -> & ->); [|done].
  unfold n. change (2 ^ 24) with 16777216. change (2 ^ 16) with 65536.
  change (2 ^ 8) with 256.
  split_and!; Z.div_mod_to_equations; lia.
Qed.

(** X13. [rgbToHex] prints three channels of [[0, 255]] as [#] and six
    lower-case hexadecimal digits, two per channel with a leading zero where
    needed (the [1 << 24] is the guard digit that [slice(1)] drops), and
    [hexToRGB] reads the three channels back. *)
Theorem rgbToHex_format r g b :
  0 ≤ r ≤ 255 → 0 ≤ g ≤ 255 → 0 ≤ b ≤ 255 →
  rgbToHex r g b =
    hexColor (r / 16) (r mod 16) (g / 16) (g mod 16) (b / 16) (b mod 16) ∧
  String.length (rgbToHex r g b) = 7%nat ∧
  hexToRGB (rgbToHex r g b) = (r, g, b).
Proof.
  intros Hr Hg Hb.
  split_and!; [by apply rgbToHex_hexColor| |by apply hexToRGB_rgbToHex].
  rewrite rgbToHex_hexColor by done. reflexivity.
Qed.

(** The colour with the channels 0, 10 and 255. *)
Lemma rgbToHex_format_witness :
  rgbToHex 0 10 255 =
    hexColor (0 / 16) (0 mod 16) (10 / 16) (10 mod 16) (255 / 16)
             (255 mod 16) ∧
  String.length (rgbToHex 0 10 255) = 7%nat ∧
  hexToRGB (rgbToHex 0 10 255) = (0, 10, 255).
Proof. apply (rgbToHex_format 0 10 255); lia. Defined.

(** X14. [hexToRGB] reads a colour of six lower-case hexadecimal digits as
    three channels of two digits each, and [rgbToHex] prints these channels
    as the colour it was given: on such colours the two are inverse. *)
Theorem hexToRGB_digits d1 d2 d3 d4 d5 d6 :
  0 ≤ d1 < 16 → 0 ≤ d2 < 16 → 0 ≤ d3 < 16 →
  0 ≤ d4 < 16 → 0 ≤ d5 < 16 → 0 ≤ d6 < 16 →
  hexToRGB (hexColor d1 d2 d3 d4 d5 d6) =
    (16 * d1 + d2, 16 * d3 + d4, 16 * d5 + d6) ∧
  rgbToHex (16 * d1 + d2) (16 * d3 + d4) (16 * d5 + d6) =
    hexColor d1 d2 d3 d4 d5 d6.
Proof.
  intros H1 H2 H3 H4 H5 H6. split.
  - destruct (unpack_rgb (16 * d1 + d2) (16 * d3 + d4) (16 * d5 + d6)
                ltac:(lia) ltac:(lia) ltac:(lia)
                (parseInt16 (slice1 (hexColor d1 d2 d3 d4 d5 d6))))
      as (E1 & E2 & E3).
    { unfold hexColor. rewrite slice1_cons. unfold parseInt16.
      cbn [HexString.Raw.to_N]. rewrite !digit_of_hexDigit by done. lia. }
    unfold hexToRGB. by rewrite E1, E2, E3.
  - rewrite rgbToHex_hexColor by lia.
    assert ((16 * d1 + d2) / 16 = d1 ∧ (16 * d1 + d2) mod 16 = d2 ∧
            (16 * d3 + d4) / 16 = d3 ∧ (16 * d3 + d4) mod 16 = d4 ∧
            (16 * d5 + d6) / 16 = d5 ∧ (16 * d5 + d6) mod 16 = d6)
      as (-> & -> & -> & -> & -> & ->); [|done].
    split_and!; Z.div_mod_to_equations; lia.
Qed.

(** The base colour [#e0e0e0]. *)
Lemma hexToRGB_digits_witness :
  hexToRGB (hexColor 14 0 14 0 14 0) =
    (16 * 14 + 0, 16 * 14 + 0, 16 * 14 + 0) ∧
  rgbToHex (16 * 14 + 0) (16 * 14 + 0) (16 * 14 + 0) =
    hexColor 14 0 14 0 14 0.
Proof. apply (hexToRGB_digits 14 0 14 0 14 0); lia. Defined.

(** [Math.round] of a value between two integers lies between them. *)
Lemma round_between a b x :
  (inject_Z a <= x)%Q → (x <= inject_Z b)%Q → a ≤ round x ≤ b.
Proof.
  intros Ha Hb. unfold round. split.
  - assert (H : (inject_Z a <= x + (1 # 2))%Q) by lra.
    apply Qfloor_resp_le in H. by rewrite Qfloor_Z in H.
  - assert (H : Qfloor (x + (1 # 2)) < b + 1); [|lia].
    rewrite Zlt_Qlt. eapply Qle_lt_trans; [apply Qfloor_le|].
    rewrite inject_Z_plus. change (inject_Z 1) with 1%Q. lra.
Qed.

Lemma round_lerp a b t :
  (0 <= t)%Q → (t <= 1)%Q →
  let x := round (inject_Z a + inject_Z (b - a) * t)%Q in
  between a b x ∧ ((t == 0)%Q → x = a) ∧ ((t == 1)%Q → x = b).
Proof.
  intros H0 H1 x. subst x.
  unfold Z.sub. rewrite inject_Z_plus, inject_Z_opp.
  split; [|split].
  - unfold between. destruct (Z.le_ge_cases a b) as [Hab|Hab].
    + rewrite Z.min_l, Z.max_r by lia. apply round_between.
      * rewrite Zle_Qle in Hab. nra.
      * rewrite Zle_Qle in Hab. nra.
    + rewrite Z.min_r, Z.max_l by lia. apply round_between.
      * rewrite Zle_Qle in Hab. nra.
      * rewrite Zle_Qle in Hab. nra.
  - intros Ht.
    match goal with
    | |- round ?x = _ =>
        assert (H : a ≤ round x ≤ a) by (apply round_between; rewrite Ht; lra)
    end.
    lia.
  - intros Ht.
    match goal with
    | |- round ?x = _ =>
        assert (H : b ≤ round x ≤ b) by (apply round_between; rewrite Ht; lra)
    end.
    lia.
Qed.

(** X15. [lerpColor] between two colours with channels in [[0, 255]], at a
    fraction [t] of [[0, 1]]: every channel of the result lies between the
    channels of the two ends, so the result is again a colour of six digits
    that [hexToRGB] reads back; at [t = 0] it is the first colour and at
    [t = 1] the second. *)
Theorem lerpColor_between ar ag ab br bg bb t :
  0 ≤ ar ≤ 255 → 0 ≤ ag ≤ 255 → 0 ≤ ab ≤ 255 →
  0 ≤ br ≤ 255 → 0 ≤ bg ≤ 255 → 0 ≤ bb ≤ 255 →
  (0 <= t)%Q → (t <= 1)%Q →
  ∃ r g b,
    lerpColor (rgbToHex ar ag ab) (rgbToHex br bg bb) t = rgbToHex r g b ∧
    hexToRGB (lerpColor (rgbToHex ar ag ab) (rgbToHex br bg bb) t) =
      (r, g, b) ∧
    between ar br r ∧ between ag bg g ∧ between ab bb b ∧
    ((t == 0)%Q →
       lerpColor (rgbToHex ar ag ab) (rgbToHex br bg bb) t =
         rgbToHex ar ag ab) ∧
    ((t == 1)%Q →
       lerpColor (rgbToHex ar ag ab) (rgbToHex br bg bb) t =
         rgbToHex br bg bb).
Proof.
  intros Har Hag Hab Hbr Hbg Hbb H0 H1.
  unfold lerpColor, lerpChannels.
  rewrite !hexToRGB_rgbToHex by done.
  destruct (round_lerp ar br t H0 H1) as (Hr & Hr0 & Hr1).
  destruct (round_lerp ag bg t H0 H1) as (Hg & Hg0 & Hg1).
  destruct (round_lerp ab bb t H0 H1) as (Hb & Hb0 & Hb1).
  cbv zeta in Hr, Hr0, Hr1, Hg, Hg0, Hg1, Hb, Hb0, Hb1.
  eexists _, _, _. split_and!; [reflexivity| |exact Hr|exact Hg|exact Hb| |].
  - unfold between in Hr, Hg, Hb. apply hexToRGB_rgbToHex; lia.
  - intros Ht. by rewrite (Hr0 Ht), (Hg0 Ht), (Hb0 Ht).
  - intros Ht. by rewrite (Hr1 Ht), (Hg1 Ht), (Hb1 Ht).
Qed.

(** A quarter of the way from orange [#ff8000] to blue [#0000ff]. *)
Lemma lerpColor_between_witness :
  ∃ r g b,
    lerpColor (rgbToHex 255 128 0) (rgbToHex 0 0 255) (1 # 4) =
      rgbToHex r g b ∧
    hexToRGB (lerpColor (rgbToHex 255 128 0) (rgbToHex 0 0 255) (1 # 4)) =
      (r, g, b) ∧
    between 255 0 r ∧ between 128 0 g ∧ between 0 255 b ∧
    (((1 # 4) == 0)%Q →
       lerpColor (rgbToHex 255 128 0) (rgbToHex 0 0 255) (1 # 4) =
         rgbToHex 255 128 0) ∧
    (((1 # 4) == 1)%Q →
       lerpColor (rgbToHex 255 128 0) (rgbToHex 0 0 255) (1 # 4) =
         rgbToHex 0 0 255).
Proof.
  apply (lerpColor_between 255 128 0 0 0 255 (1 # 4)); try lia; done.
Defined.

(** X16. [easeOutCubic] is an ease-out on the unit interval: it starts at
    0, ends at 1, never decreases, and is never behind linear progress, so
    the fade of a settling cell is fastest at its start.  For a [t] below
    [2^-54] the doubles give [1 - t = 1] and an eased value of 0, behind
    [t] by less than that: the comparison is stated up to [ease_slack]. *)
Theorem easeOutCubic_ahead t1 t2 :
  (0 <= t1)%Q → (t1 <= t2)%Q → (t2 <= 1)%Q →
  (easeOutCubic 0 == 0)%Q ∧ (easeOutCubic 1 == 1)%Q ∧
  (t1 - ease_slack <= easeOutCubic t1)%Q ∧
  (easeOutCubic t1 <= easeOutCubic t2)%Q ∧
  (easeOutCubic t2 <= 1)%Q.
Proof.
  intros H0 H12 H1. split_and!.
  - reflexivity.
  - reflexivity.
  - assert (Hs : (0 < ease_slack)%Q) by done.
    rewrite easeOutCubic_cube.
    assert (Ha : (0 <= t1 * (1 - t1))%Q)
      by (apply Qmult_le_0_compat; lra).
    assert (Hb : (0 <= t1 * (1 - t1) * (2 - t1))%Q)
      by (apply Qmult_le_0_compat; [done|lra]).
    nra.
  - by apply easeOutCubic_mono.
  - apply easeOutCubic_range; lra.
Qed.

(** A quarter and a half of the settling time. *)
Lemma easeOutCubic_ahead_witness :
  (easeOutCubic 0 == 0)%Q ∧ (easeOutCubic 1 == 1)%Q ∧
  ((1 # 4) - ease_slack <= easeOutCubic (1 # 4))%Q ∧
  (easeOutCubic (1 # 4) <= easeOutCubic (1 # 2))%Q ∧
  (easeOutCubic (1 # 2) <= 1)%Q.
Proof. apply (easeOutCubic_ahead (1 # 4) (1 # 2)); done. Defined.

(** X17. In the settling branch the cell is painted before the
    [if (t >= 1)] that resets its colour and clears [origSymbol]; the canvas
    is not left stale by these late assignments, because at [t = 1] the
    interpolation has already given exactly [BASE_COLOR]: the colour and the
    glyph painted are those the cell has when the callback returns. *)
Theorem settle_draw_is_final now cell :
  color (settleDrawn now cell) = color (settleStep now cell).1 ∧
  symbol (settleDrawn now cell) = symbol (settleStep now cell).1.
Proof.
  unfold settleDrawn, settleStep. cbv zeta.
  fold (settleFraction (settleStart cell) now).
  fold (settleColor (settleStart cell) now).
  destruct (Qle_bool 1 (settleFraction (settleStart cell) now)) eqn:Hb;
    [|done].
  cbn [fst color symbol set_color set_state set_origSymbol].
  split; [|done].
  apply settleColor_finished.
  apply Qle_bool_iff in Hb. unfold settleFraction in Hb.
  pose proof (Q.le_min_l ((now - settleStart cell) / SETTLE_DURATION) 1) as Hm.
  assert (Hx : (1 <= (now - settleStart cell) / SETTLE_DURATION)%Q) by lra.
  revert Hx. unfold SETTLE_DURATION.
  change ((now - settleStart cell) / 400)%Q
    with ((now - settleStart cell) * (1 # 400))%Q.
  lra.
Qed.

(** * Properties of the title glitch *)

Lemma filter_all {A : Type} (P : A → Prop) `{∀ x, Decision (P x)} (l : list A) :
  Forall P l → filter P l = l.
Proof.
  induction 1 as [|x l Hx Hl IH]; [done|].
  rewrite filter_cons_True by done. by rewrite IH.
Qed.

Lemma filter_none {A : Type} (P : A → Prop) `{∀ x, Decision (P x)}
    (l : list A) :
  Forall (λ x, ¬ P x) l → filter P l = [].
Proof.
  induction 1 as [|x l Hx Hl IH]; [done|].
  by rewrite filter_cons_False.
Qed.

(** [classList.remove] of several tokens, one after the other. *)
Lemma remove_all (vs : list string) :
  ∀ cl, foldl (λ cl v, Glitch.classList_remove v cl) cl vs =
        filter (λ x, x ∉ vs) cl.
Proof.
  induction vs as [|v vs IH]; intros cl; cbn [foldl].
  - symmetry. apply filter_all, Forall_forall. intros x _. apply not_elem_of_nil.
  - rewrite IH. unfold Glitch.classList_remove. rewrite list_filter_filter.
    apply list_filter_iff. intros x. rewrite not_elem_of_cons. tauto.
Qed.

(** Removing the four variants from classes that hold none of them, with
    or without variants at their end. *)
Lemma strip_variants cl vs :
  Forall (λ v, v ∉ Glitch.sequence) cl →
  Forall (λ v, v ∈ Glitch.sequence) vs →
  foldl (λ cl v, Glitch.classList_remove v cl) (cl ++ vs) Glitch.sequence = cl.
Proof.
  intros Hcl Hvs. rewrite remove_all, filter_app.
  rewrite (filter_all _ cl Hcl), filter_none; [apply app_nil_r|].
  eapply Forall_impl; [exact Hvs|]. simpl. tauto.
Qed.

Lemma variant_in n : Forall (λ v, v ∈ Glitch.sequence) (Glitch.variant n).
Proof.
  unfold Glitch.variant.
  destruct (index Glitch.sequence (n - 1)) as [v|] eqn:Hv; [|done].
  apply index_Some in Hv as [_ Hv].
  apply Forall_singleton. by eapply list_elem_of_lookup_2.
Qed.

Lemma variant_succ n v :
  index Glitch.sequence n = Some v → Glitch.variant (n + 1) = [v].
Proof.
  intros Hv. unfold Glitch.variant.
  replace (n + 1 - 1) with n by lia. by rewrite Hv.
Qed.

Lemma sequence_index n :
  0 ≤ n < 4 →
  ∃ v, index Glitch.sequence n = Some v ∧ v ∈ Glitch.sequence.
Proof.
  intros Hn.
  destruct (lookup_lt_is_Some_2 Glitch.sequence (Z.to_nat n)) as [v Hv].
  { change (length Glitch.sequence) with 4%nat. lia. }
  exists v. split.
  - apply index_Some. split; [lia|done].
  - by eapply list_elem_of_lookup_2.
Qed.

(** One callback of the interval of a letter in the middle of a glitch. *)
Lemma glitch_tick before letter n :
  Glitch.calm before → 0 ≤ n ≤ 4 →
  Glitch.intervals letter = [n] →
  Glitch.glitching letter = Some "true"%string →
  Glitch.classList letter = Glitch.classList before ++ Glitch.variant n →
  Glitch.onInterval 0 letter =
    if decide (n = 4) then
      Glitch.mkLetter (Some "false"%string) (Glitch.classList before) []
    else
      Glitch.mkLetter (Some "true"%string)
        (Glitch.classList before ++ Glitch.variant (n + 1)) [n + 1].
Proof.
  intros (_ & _ & Hcl0) Hn Hint Hflag Hcl.
  unfold Glitch.onInterval. rewrite Hint. cbn [lookup list_lookup].
  rewrite Hcl, (strip_variants _ _ Hcl0 (variant_in n)), Hflag.
  change (Z.of_nat (length Glitch.sequence)) with 4.
  case_decide as H4.
  - subst n. reflexivity.
  - destruct (Z.ltb_spec n 4) as [Hlt|]; [|lia].
    destruct (sequence_index n ltac:(lia)) as (v & Hv & Hin).
    rewrite Hv, (variant_succ n v Hv). cbn [default].
    unfold Glitch.classList_add. rewrite decide_False; [done|].
    intros Hvin. rewrite Forall_forall in Hcl0. by apply (Hcl0 v).
Qed.

Lemma shape_step before letter e :
  Glitch.calm before → Glitch.shape before letter →
  Glitch.shape before (Glitch.letterStep letter e).
Proof.
  intros Hcalm [(Hint & Hflag & Hcl)|(n & Hn & Hint & Hflag & Hcl)].
  - destruct e as [|i]; cbn [Glitch.letterStep].
    + unfold Glitch.glitchLetter. rewrite decide_False by done.
      right. exists 0. cbn. rewrite Hint, Hcl, app_nil_r. done.
    + unfold Glitch.onInterval. rewrite Hint, lookup_nil. by left.
  - destruct e as [|i]; cbn [Glitch.letterStep].
    + unfold Glitch.glitchLetter. rewrite decide_True by done.
      right. exists n. done.
    + destruct i as [|i].
      * rewrite (glitch_tick before letter n Hcalm Hn Hint Hflag Hcl).
        case_decide.
        -- left. done.
        -- right. exists (n + 1). split_and!; try done; lia.
      * unfold Glitch.onInterval. rewrite Hint. cbn [lookup list_lookup].
        right. exists n. done.
Qed.

(** X18. However [mouseenter] events and interval callbacks interleave on a
    letter that was calm, the letter has one of two shapes: at rest, with
    the classes it had; or glitching, with exactly one interval running, the
    flag ['true'], its classes kept in order and, after them, the one
    variant of the current step.  So the guard on [dataset.glitching] keeps
    a second interval from ever starting, and no two variants are ever on
    the letter together. *)
Theorem glitch_one_interval before es :
  Glitch.calm before →
  let letter := Glitch.hover es before in
  Glitch.shape before letter ∧
  (length (Glitch.intervals letter) ≤ 1)%nat ∧
  (Glitch.glitching letter = Some "true"%string ↔
   Glitch.intervals letter ≠ []).
Proof.
  intros Hcalm letter.
  assert (Hshape : Glitch.shape before letter).
  { unfold letter, Glitch.hover. induction es as [|e es IH] using rev_ind.
    - left. by destruct Hcalm as (? & ? & _).
    - rewrite foldl_snoc. by apply shape_step. }
  split; [done|].
  destruct Hshape as [(Hint & Hflag & _)|(n & _ & Hint & Hflag & _)];
    rewrite Hint; cbn [length]; split; try lia; split; try done.
Qed.

(** A letter of the page, hovered three times while two intervals that do
    not exist and the real one fire. *)
Lemma glitch_one_interval_witness :
  let letter :=
    Glitch.hover
      [Glitch.MouseEnter; Glitch.IntervalFires 0; Glitch.MouseEnter;
       Glitch.IntervalFires 1; Glitch.IntervalFires 0; Glitch.MouseEnter;
       Glitch.IntervalFires 2]
      Glitch.pixelLetter in
  Glitch.shape Glitch.pixelLetter letter ∧
  (length (Glitch.intervals letter) ≤ 1)%nat ∧
  (Glitch.glitching letter = Some "true"%string ↔
   Glitch.intervals letter ≠ []).
Proof.
  apply (glitch_one_interval Glitch.pixelLetter).
  split_and!; [done|done|].
  repeat constructor. vm_compute. intros H.
  repeat (apply elem_of_cons in H as [H|H]; [discriminate|]).
  by apply elem_of_nil in H.
Defined.

Lemma fired_snoc es e :
  Glitch.fired (es ++ [e]) =
  Glitch.fired es + (if decide (e = Glitch.MouseEnter) then 0 else 1).
Proof.
  unfold Glitch.fired. rewrite filter_app, length_app.
  destruct (decide (e = Glitch.MouseEnter)) as [->|Hne].
  - rewrite (filter_singleton_False _ Glitch.MouseEnter []);
      [|intros H; by apply H].
    cbn [length]. lia.
  - rewrite (filter_singleton_True _ e []) by done. cbn [length]. lia.
Qed.

(** X19. One glitch, from its [mouseenter] to its end.  While fewer than
    five callbacks of the interval have run, the letter carries its own
    classes and the variant of the step ([glitch-line], [glitch-triangle],
    [glitch-grid], [glitch-circle] after the first to the fourth callback),
    and further [mouseenter] events in between change nothing; the fifth
    callback removes the last variant, clears the interval and sets the flag
    to ['false'], leaving the classes the letter had. *)
Theorem glitch_cycle before es :
  Glitch.calm before →
  Forall (λ e, e = Glitch.MouseEnter ∨ e = Glitch.IntervalFires 0) es →
  Glitch.fired es ≤ 4 →
  Glitch.hover (Glitch.MouseEnter :: es) before =
    Glitch.mkLetter (Some "true"%string)
      (Glitch.classList before ++ Glitch.variant (Glitch.fired es))
      [Glitch.fired es] ∧
  (Glitch.fired es = 4 →
   Glitch.hover (Glitch.MouseEnter :: es ++ [Glitch.IntervalFires 0]) before =
     Glitch.mkLetter (Some "false"%string) (Glitch.classList before) []).
Proof.
  intros Hcalm Hes Hn.
  assert (Hrun : Glitch.hover (Glitch.MouseEnter :: es) before =
            Glitch.mkLetter (Some "true"%string)
              (Glitch.classList before ++ Glitch.variant (Glitch.fired es))
              [Glitch.fired es]).
  { revert Hes Hn. induction es as [|e es IH] using rev_ind; intros Hes Hn.
    - destruct Hcalm as (Hint & Hflag & _).
      unfold Glitch.hover. cbn [foldl Glitch.letterStep].
      unfold Glitch.glitchLetter. rewrite decide_False by done.
      rewrite Hint. cbn. by rewrite app_nil_r.
    - apply Forall_app in Hes as [Hes He]. rewrite Forall_singleton in He.
      rewrite fired_snoc in Hn |- *.
      assert (H0 : 0 ≤ Glitch.fired es) by (unfold Glitch.fired; lia).
      unfold Glitch.hover in IH |- *.
      rewrite app_comm_cons, foldl_snoc.
      destruct He as [-> | ->].
      + rewrite decide_True in Hn |- * by done. rewrite Z.add_0_r in Hn |- *.
        rewrite IH by done. cbn [Glitch.letterStep].
        unfold Glitch.glitchLetter. by rewrite decide_True.
      + rewrite decide_False in Hn |- * by done.
        rewrite IH by (done || lia). cbn [Glitch.letterStep].
        rewrite (glitch_tick before _ (Glitch.fired es)); try done; [|lia].
        by rewrite decide_False by lia. }
  split; [done|]. intros H4.
  unfold Glitch.hover in Hrun |- *.
  rewrite app_comm_cons, foldl_snoc, Hrun. cbn [Glitch.letterStep].
  rewrite (glitch_tick before _ (Glitch.fired es)); try done; [|lia].
  by rewrite decide_True.
Qed.

(** A letter hovered again twice during its glitch, after two and after
    four callbacks. *)
Lemma glitch_cycle_witness :
  Glitch.hover
    (Glitch.MouseEnter ::
     [Glitch.IntervalFires 0; Glitch.IntervalFires 0; Glitch.MouseEnter;
      Glitch.IntervalFires 0; Glitch.IntervalFires 0; Glitch.MouseEnter])
    Glitch.pixelLetter =
    Glitch.mkLetter (Some "true"%string)
      (Glitch.classList Glitch.pixelLetter ++
       Glitch.variant
         (Glitch.fired
            [Glitch.IntervalFires 0; Glitch.IntervalFires 0;
             Glitch.MouseEnter; Glitch.IntervalFires 0;
             Glitch.IntervalFires 0; Glitch.MouseEnter]))
      [Glitch.fired
         [Glitch.IntervalFires 0; Glitch.IntervalFires 0; Glitch.MouseEnter;
          Glitch.IntervalFires 0; Glitch.IntervalFires 0; Glitch.MouseEnter]] ∧
  (Glitch.fired
     [Glitch.IntervalFires 0; Glitch.IntervalFires 0; Glitch.MouseEnter;
      Glitch.IntervalFires 0; Glitch.IntervalFires 0; Glitch.MouseEnter] = 4 →
   Glitch.hover
     (Glitch.MouseEnter ::
      [Glitch.IntervalFires 0; Glitch.IntervalFires 0; Glitch.MouseEnter;
       Glitch.IntervalFires 0; Glitch.IntervalFires 0; Glitch.MouseEnter] ++
      [Glitch.IntervalFires 0])
     Glitch.pixelLetter =
     Glitch.mkLetter (Some "false"%string)
       (Glitch.classList Glitch.pixelLetter) []).
Proof.
  apply (glitch_cycle Glitch.pixelLetter).
  - split_and!; [done|done|].
    repeat constructor. vm_compute. intros H.
    repeat (apply elem_of_cons in H as [H|H]; [discriminate|]).
    by apply elem_of_nil in H.
  - repeat first [apply Forall_nil_2 | apply Forall_cons_2; [auto|]].
  - vm_compute. discriminate.
Defined.

(** * Properties of the carousels *)

(** What every carousel on the page satisfies: the page shows the state,
    and [current] is the index of a card, or 0 when there is none. *)
Lemma browse_inv n markup bs :
  let s := Carousel.browse bs (Carousel.mount n markup) in
  Carousel.total s = n ∧ Carousel.update s = s ∧
  0 ≤ Carousel.current s ∧
  (Carousel.current s < n ∨ Carousel.current s = 0).
Proof.
  cbv zeta. unfold Carousel.browse.
  induction bs as [|b bs IH] using rev_ind.
  - cbn. split_and!; try done. by right.
  - rewrite foldl_snoc.
    set (s := foldl Carousel.click (Carousel.mount n markup) bs) in *.
    destruct IH as (Ht & Hu & H0 & Hlt).
    destruct b; cbn [Carousel.click].
    + unfold Carousel.onPrev. case_bool_decide; [|done].
      cbn. split_and!; try done; lia.
    + unfold Carousel.onNext. case_bool_decide; [|done].
      cbn. split_and!; try done; lia.
Qed.

(** X20. Whatever buttons are clicked, in whatever order, a carousel with
    [n] cards keeps [current] on a card ([0 ≤ current < n]; 0 when there
    is at most one card), and the page shows the state: the transform of
    the track, the text of the counter and the two [disabled] flags are
    those [update] computes from [current], also after a click that the
    guards ignored. *)
Theorem carousel_in_range_and_synced n markup bs :
  let s := Carousel.browse bs (Carousel.mount n markup) in
  Carousel.total s = n ∧
  Carousel.update s = s ∧
  (1 ≤ n → 0 ≤ Carousel.current s < n) ∧
  (n ≤ 1 → Carousel.current s = 0).
Proof.
  cbv zeta. destruct (browse_inv n markup bs) as (Ht & Hu & H0 & Hlt).
  split_and!; try done; lia.
Qed.

(** X21. On a carousel with at least one card, a button is disabled
    exactly when a click on it would change nothing, and a click on an
    enabled button moves by one card: back for [prev], forward for [next]. *)
Theorem carousel_buttons_tell n markup bs :
  1 ≤ n →
  let s := Carousel.browse bs (Carousel.mount n markup) in
  (Carousel.prevDisabled s = true ↔ Carousel.onPrev s = s) ∧
  (Carousel.nextDisabled s = true ↔ Carousel.onNext s = s) ∧
  (Carousel.prevDisabled s = false →
     Carousel.current (Carousel.onPrev s) = Carousel.current s - 1) ∧
  (Carousel.nextDisabled s = false →
     Carousel.current (Carousel.onNext s) = Carousel.current s + 1).
Proof.
  intros Hn. cbv zeta.
  destruct (browse_inv n markup bs) as (Ht & Hu & H0 & Hlt).
  set (s := Carousel.browse bs (Carousel.mount n markup)) in *.
  pose proof (f_equal Carousel.prevDisabled Hu) as Hp.
  pose proof (f_equal Carousel.nextDisabled Hu) as Hx.
  cbn in Hp, Hx. rewrite <- Hp, <- Hx.
  unfold Carousel.onPrev, Carousel.onNext.
  split_and!.
  - destruct (decide (Carousel.current s = 0)) as [Hc|Hc].
    + rewrite bool_decide_true, bool_decide_false by lia. done.
    + rewrite bool_decide_false, bool_decide_true by lia.
      split; [done|]. intros Heq.
      apply (f_equal Carousel.current) in Heq. cbn in Heq. lia.
  - destruct (decide (Carousel.current s = Carousel.total s - 1)) as [Hc|Hc].
    + rewrite bool_decide_true, bool_decide_false by lia. done.
    + rewrite bool_decide_false, bool_decide_true by lia.
      split; [done|]. intros Heq.
      apply (f_equal Carousel.current) in Heq. cbn in Heq. lia.
  - intros Hd. apply bool_decide_eq_false in Hd.
    rewrite bool_decide_true by lia. done.
  - intros Hd. apply bool_decide_eq_false in Hd.
    rewrite bool_decide_true by lia. done.
Qed.

(** Three cards, after [next], [next], [next], [prev]. *)
Lemma carousel_buttons_tell_witness :
  let s :=
    Carousel.browse [Carousel.Next; Carousel.Next; Carousel.Next; Carousel.Prev]
      (Carousel.mount 3 Carousel.bare) in
  (Carousel.prevDisabled s = true ↔ Carousel.onPrev s = s) ∧
  (Carousel.nextDisabled s = true ↔ Carousel.onNext s = s) ∧
  (Carousel.prevDisabled s = false →
     Carousel.current (Carousel.onPrev s) = Carousel.current s - 1) ∧
  (Carousel.nextDisabled s = false →
     Carousel.current (Carousel.onNext s) = Carousel.current s + 1).
Proof. apply (carousel_buttons_tell 3 Carousel.bare). lia. Defined.

(** X22. [next] and [prev] undo each other: on a carousel with at least one
    card, a click on [next] that is not disabled followed by a click on
    [prev] brings back the very state, page included, and so does [prev]
    followed by [next]. *)
Theorem carousel_next_prev_inverse n markup bs :
  1 ≤ n →
  let s := Carousel.browse bs (Carousel.mount n markup) in
  (Carousel.nextDisabled s = false →
     Carousel.onPrev (Carousel.onNext s) = s) ∧
  (Carousel.prevDisabled s = false →
     Carousel.onNext (Carousel.onPrev s) = s).
Proof.
  intros Hn. cbv zeta.
  destruct (browse_inv n markup bs) as (Ht & Hu & H0 & Hlt).
  set (s := Carousel.browse bs (Carousel.mount n markup)) in *.
  pose proof (f_equal Carousel.prevDisabled Hu) as Hp.
  pose proof (f_equal Carousel.nextDisabled Hu) as Hx.
  cbn in Hp, Hx. rewrite <- Hp, <- Hx.
  split.
  - intros Hc. apply bool_decide_eq_false in Hc.
    unfold Carousel.onNext. rewrite bool_decide_true by lia.
    unfold Carousel.onPrev.
    cbn [Carousel.current Carousel.total Carousel.update
         Carousel.set_current].
    rewrite bool_decide_true by lia.
    replace (Carousel.current s + 1 - 1) with (Carousel.current s) by lia.
    exact Hu.
  - intros Hc. apply bool_decide_eq_false in Hc.
    unfold Carousel.onPrev. rewrite bool_decide_true by lia.
    unfold Carousel.onNext.
    cbn [Carousel.current Carousel.total Carousel.update
         Carousel.set_current].
    rewrite bool_decide_true by lia.
    replace (Carousel.current s - 1 + 1) with (Carousel.current s) by lia.
    exact Hu.
Qed.

(** Three cards, on the second one. *)
Lemma carousel_next_prev_inverse_witness :
  let s := Carousel.browse [Carousel.Next] (Carousel.mount 3 Carousel.bare) in
  (Carousel.nextDisabled s = false →
     Carousel.onPrev (Carousel.onNext s) = s) ∧
  (Carousel.prevDisabled s = false →
     Carousel.onNext (Carousel.onPrev s) = s).
Proof. apply (carousel_next_prev_inverse 3 Carousel.bare). lia. Defined.

(** X23. A carousel without cards, or with a single one, never moves: every
    click leaves the state that [update] wrote at the start, with [prev]
    disabled.  With a single card [next] is disabled too; without cards it
    is not, since [current === total - 1] compares 0 with -1, and the
    counter reads [1 / 0]. *)
Theorem carousel_without_choice n markup bs :
  0 ≤ n ≤ 1 →
  let s := Carousel.mount n markup in
  Carousel.browse bs s = s ∧
  Carousel.current s = 0 ∧
  Carousel.prevDisabled s = true ∧
  (Carousel.nextDisabled s = true ↔ n = 1) ∧
  (n = 0 → Carousel.counterText s = "1 / 0"%string).
Proof.
  intros Hn. cbv zeta. split_and!.
  - unfold Carousel.browse. induction bs as [|b bs IH] using rev_ind; [done|].
    rewrite foldl_snoc, IH.
    destruct b; cbn [Carousel.click];
      unfold Carousel.onPrev, Carousel.onNext; cbn;
      rewrite bool_decide_false by lia; done.
  - done.
  - done.
  - cbn. case_bool_decide; split; intros; try done; lia.
  - intros ->. reflexivity.
Qed.

(** A carousel without cards, clicked three times. *)
Lemma carousel_without_choice_witness :
  let s := Carousel.mount 0 Carousel.bare in
  Carousel.browse [Carousel.Next; Carousel.Prev; Carousel.Next] s = s ∧
  Carousel.current s = 0 ∧
  Carousel.prevDisabled s = true ∧
  (Carousel.nextDisabled s = true ↔ 0 = 1) ∧
  (0 = 0 → Carousel.counterText s = "1 / 0"%string).
Proof. apply (carousel_without_choice 0 Carousel.bare). lia. Defined.

(** * Properties of the rotating subtitle *)

Section SubtitleFacts.

Variable random : nat → Q.

Lemma fires_add a b s :
  Subtitle.fires random (a + b) s =
  s' ← Subtitle.fires random a s; Subtitle.fires random b s'.
Proof.
  revert s. induction a as [|a IH]; intros s; [done|].
  cbn [Nat.add Subtitle.fires].
  destruct (Subtitle.fire random s) as [s1|]; [apply IH|done].
Qed.

Lemma fires_S n s :
  Subtitle.fires random (S n) s =
  s' ← Subtitle.fire random s; Subtitle.fires random n s'.
Proof. reflexivity. Qed.

Lemma next_phrase i :
  0 ≤ i < 3 →
  0 ≤ Z.rem (i + 1) (Z.of_nat (length Subtitle.phrases)) < 3 ∧
  Z.rem (i + 1) (Z.of_nat (length Subtitle.phrases)) = (i + 1) mod 3 ∧
  index Subtitle.phrases (Z.rem (i + 1) (Z.of_nat (length Subtitle.phrases)))
    = Some (Subtitle.nextPhrase i) ∧
  Subtitle.nextPhrase i ∈ Subtitle.phrases.
Proof.
  intros Hi. assert (i = 0 ∨ i = 1 ∨ i = 2) as [-> | [-> | ->]] by lia;
    (split_and!; [done|done|done|reflexivity|]);
    unfold Subtitle.phrases; rewrite !elem_of_cons; auto.
Qed.

(** [scrambleToNext()] when the pause is over. *)
Lemma pause_over s :
  Subtitle.timer s = Subtitle.Pause → 0 ≤ Subtitle.currentIndex s < 3 →
  let target := Subtitle.nextPhrase (Subtitle.currentIndex s) in
  Subtitle.fire random s =
    Some (Subtitle.mkBanner ((Subtitle.currentIndex s + 1) mod 3)
            (Subtitle.textContent s)
            (Subtitle.ScrambleInterval target
               (Z.max (Z.of_nat (length (Subtitle.textContent s)))
                      (Z.of_nat (length target))) 0)
            (Subtitle.clock s + Subtitle.PAUSE_MS) (Subtitle.calls s)).
Proof.
  intros Ht Hi target. unfold Subtitle.fire. rewrite Ht.
  destruct (next_phrase (Subtitle.currentIndex s) Hi) as (_ & Hmod & Hidx & _).
  rewrite Hidx. cbn [mbind option_bind]. by rewrite Hmod.
Qed.

(** One callback of the scramble interval. *)
Lemma scramble_tick s target maxLen c :
  Subtitle.timer s = Subtitle.ScrambleInterval target maxLen c →
  Subtitle.fire random s =
    Some (Subtitle.mkBanner (Subtitle.currentIndex s)
            (Subtitle.scrambled random (Z.to_nat maxLen) (Subtitle.calls s))
            (if bool_decide (Subtitle.SCRAMBLE_MS ≤ c + 50) then
               Subtitle.DecodeInterval target 0
             else Subtitle.ScrambleInterval target maxLen (c + 50))
            (Subtitle.clock s + 50)
            (Subtitle.calls s + Z.to_nat maxLen)).
Proof. intros Ht. unfold Subtitle.fire. by rewrite Ht. Qed.

(** [k] callbacks of the scramble interval, the last of which may be the
    one that starts the decoding. *)
Lemma scramble_frames target maxLen k :
  ∀ s c,
    Subtitle.timer s = Subtitle.ScrambleInterval target maxLen c →
    c + 50 * Z.of_nat k < Subtitle.SCRAMBLE_MS →
    ∃ s' i,
      Subtitle.fires random (S k) s = Some s' ∧
      Subtitle.currentIndex s' = Subtitle.currentIndex s ∧
      Subtitle.textContent s' =
        Subtitle.scrambled random (Z.to_nat maxLen) i ∧
      Subtitle.clock s' = Subtitle.clock s + 50 * (Z.of_nat k + 1) ∧
      Subtitle.timer s' =
        (if bool_decide
              (Subtitle.SCRAMBLE_MS ≤ c + 50 * (Z.of_nat k + 1)) then
           Subtitle.DecodeInterval target 0
         else
           Subtitle.ScrambleInterval target maxLen
             (c + 50 * (Z.of_nat k + 1))).
Proof.
  induction k as [|k IH]; intros s c Ht Hc.
  - eexists _, _.
    rewrite fires_S, (scramble_tick s target maxLen c Ht).
    cbn [mbind option_bind Subtitle.fires].
    replace (c + 50 * (Z.of_nat 0 + 1)) with (c + 50) by lia.
    split_and!; done.
  - rewrite fires_S, (scramble_tick s target maxLen c Ht).
    cbn [mbind option_bind].
    rewrite bool_decide_false by (unfold Subtitle.SCRAMBLE_MS in *; lia).
    set (s1 := Subtitle.mkBanner _ _ _ _ _).
    destruct (IH s1 (c + 50) eq_refl ltac:(lia)) as
      (s' & i & Hrun & Hidx & Htext & Hclock & Htimer).
    exists s', i. split_and!; try done.
    + rewrite Hclock. cbn [s1 Subtitle.clock]. lia.
    + rewrite Htimer.
      by replace (c + 50 + 50 * (Z.of_nat k + 1))
        with (c + 50 * (Z.of_nat (S k) + 1)) by lia.
Qed.

(** One callback of the decode interval. *)
Lemma decode_tick s target resolved :
  Subtitle.timer s = Subtitle.DecodeInterval target resolved →
  ∃ s', Subtitle.fire random s = Some s' ∧
        Subtitle.currentIndex s' = Subtitle.currentIndex s ∧
        Subtitle.clock s' = Subtitle.clock s + Subtitle.DECODE_STEP_MS ∧
        (Z.of_nat (length target) < resolved + 1 →
           Subtitle.textContent s' = target ∧
           Subtitle.timer s' = Subtitle.Pause) ∧
        (resolved + 1 ≤ Z.of_nat (length target) →
           Subtitle.textContent s' =
             (Subtitle.decoded random target 0 resolved (Subtitle.calls s)).1 ∧
           Subtitle.timer s' = Subtitle.DecodeInterval target (resolved + 1)).
Proof.
  intros Ht. unfold Subtitle.fire. rewrite Ht.
  destruct (Subtitle.decoded random target 0 resolved (Subtitle.calls s))
    as [text calls'].
  case_bool_decide; eexists; (split; [done|]); cbn; split_and!; try done;
    intros; lia.
Qed.

(** [k] callbacks of the decode interval, none of them the last. *)
Lemma decode_run target k :
  ∀ s resolved,
    Subtitle.timer s = Subtitle.DecodeInterval target resolved →
    resolved + Z.of_nat k ≤ Z.of_nat (length target) →
    ∃ s', Subtitle.fires random k s = Some s' ∧
          Subtitle.currentIndex s' = Subtitle.currentIndex s ∧
          Subtitle.clock s' =
            Subtitle.clock s + Subtitle.DECODE_STEP_MS * Z.of_nat k ∧
          Subtitle.timer s' =
            Subtitle.DecodeInterval target (resolved + Z.of_nat k).
Proof.
  induction k as [|k IH]; intros s resolved Ht Hk.
  - exists s. cbn [Subtitle.fires]. split_and!; try done; [lia|].
    by rewrite Z.add_0_r.
  - destruct (decode_tick s target resolved Ht) as
      (s1 & Hfire & Hidx1 & Hclock1 & _ & Hnext).
    destruct Hnext as [_ Ht1]; [lia|].
    destruct (IH s1 (resolved + 1) Ht1 ltac:(lia)) as
      (s' & Hrun & Hidx & Hclock & Htimer).
    exists s'. rewrite fires_S, Hfire. cbn [mbind option_bind].
    split_and!; [done|congruence|lia|].
    rewrite Htimer. f_equal. lia.
Qed.

(** From the end of a pause to the start of the decoding: the timeout and
    the twelve callbacks of the scramble interval. *)
Lemma pause_to_decode s :
  Subtitle.timer s = Subtitle.Pause → 0 ≤ Subtitle.currentIndex s < 3 →
  let target := Subtitle.nextPhrase (Subtitle.currentIndex s) in
  ∃ s', Subtitle.fires random 13 s = Some s' ∧
        Subtitle.currentIndex s' = (Subtitle.currentIndex s + 1) mod 3 ∧
        Subtitle.clock s' =
          Subtitle.clock s + Subtitle.PAUSE_MS + Subtitle.SCRAMBLE_MS ∧
        Subtitle.timer s' = Subtitle.DecodeInterval target 0.
Proof.
  intros Ht Hi target.
  rewrite fires_S, (pause_over s Ht Hi). fold target.
  cbn [mbind option_bind].
  set (s1 := Subtitle.mkBanner _ _ _ _ _).
  destruct (scramble_frames target
              (Z.max (Z.of_nat (length (Subtitle.textContent s)))
                     (Z.of_nat (length target))) 11 s1 0 eq_refl)
    as (s' & i & Hrun & Hidx & _ & Hclock & Htimer);
    [unfold Subtitle.SCRAMBLE_MS; lia|].
  exists s'. split_and!; [exact Hrun|exact Hidx| |exact Htimer].
  rewrite Hclock. cbn [s1 Subtitle.clock]. unfold Subtitle.SCRAMBLE_MS. lia.
Qed.

End SubtitleFacts.

(** X24. One rotation of the subtitle.  From a pause at the phrase of index
    [i], the timeout, the twelve callbacks of the scramble interval and the
    callbacks of the decode interval, one more than the next phrase has
    characters, end in a pause at the next phrase, shown in full, whatever
    [Math.random()] returned on the way; the index wraps around after the
    third phrase; and the rotation takes [PAUSE_MS + SCRAMBLE_MS +
    DECODE_STEP_MS * (length + 1)] milliseconds. *)
Theorem subtitle_rotation random s :
  Subtitle.timer s = Subtitle.Pause → 0 ≤ Subtitle.currentIndex s < 3 →
  let target := Subtitle.nextPhrase (Subtitle.currentIndex s) in
  ∃ s', Subtitle.fires random (14 + length target) s = Some s' ∧
        Subtitle.currentIndex s' = (Subtitle.currentIndex s + 1) mod 3 ∧
        index Subtitle.phrases (Subtitle.currentIndex s') = Some target ∧
        Subtitle.textContent s' = target ∧
        Subtitle.timer s' = Subtitle.Pause ∧
        Subtitle.clock s' =
          Subtitle.clock s + Subtitle.PAUSE_MS + Subtitle.SCRAMBLE_MS +
          Subtitle.DECODE_STEP_MS * (Z.of_nat (length target) + 1).
Proof.
  intros Ht Hi target.
  destruct (pause_to_decode random s Ht Hi) as
    (s1 & Hrun1 & Hidx1 & Hclock1 & Ht1).
  fold target in Ht1.
  destruct (decode_run random target (length target) s1 0 Ht1 ltac:(lia)) as
    (s2 & Hrun2 & Hidx2 & Hclock2 & Ht2).
  destruct (decode_tick random s2 target _ Ht2) as
    (s' & Hfire & Hidx' & Hclock' & Hlast & _).
  destruct Hlast as [Htext Htimer]; [lia|].
  exists s'. split_and!.
  - replace (14 + length target)%nat with (13 + (length target + 1))%nat
      by lia.
    rewrite fires_add, Hrun1. cbn [mbind option_bind].
    rewrite fires_add, Hrun2. cbn [mbind option_bind].
    rewrite fires_S, Hfire. done.
  - congruence.
  - rewrite Hidx', Hidx2, Hidx1.
    destruct (next_phrase (Subtitle.currentIndex s) Hi) as (_ & <- & Hp & _).
    exact Hp.
  - done.
  - done.
  - rewrite Hclock', Hclock2, Hclock1. lia.
Qed.

(** The first rotation of the page, from the text of the markup. *)
Lemma subtitle_rotation_witness :
  let s := Subtitle.start (list_ascii_of_string "a lifetime learner") in
  let target := Subtitle.nextPhrase (Subtitle.currentIndex s) in
  ∃ s', Subtitle.fires thirds (14 + length target) s = Some s' ∧
        Subtitle.currentIndex s' = (Subtitle.currentIndex s + 1) mod 3 ∧
        index Subtitle.phrases (Subtitle.currentIndex s') = Some target ∧
        Subtitle.textContent s' = target ∧
        Subtitle.timer s' = Subtitle.Pause ∧
        Subtitle.clock s' =
          Subtitle.clock s + Subtitle.PAUSE_MS + Subtitle.SCRAMBLE_MS +
          Subtitle.DECODE_STEP_MS * (Z.of_nat (length target) + 1).
Proof.
  apply (subtitle_rotation thirds
           (Subtitle.start (list_ascii_of_string "a lifetime learner")));
    [reflexivity|done].
Defined.

(** ** The frames of a rotation *)

Section SubtitleFrames.

Variable random : nat → Q.
Hypothesis Hunit : unit_interval random.

Lemma randChar_symbol i :
  ∃ ch, Subtitle.randChar random i = [ch] ∧ ch ∈ Subtitle.SCRAMBLE_CHARS.
Proof.
  destruct (Hunit i) as [H0 H1]. unfold Subtitle.randChar.
  change (inject_Z (Z.of_nat (length Subtitle.SCRAMBLE_CHARS))) with 25%Q.
  assert (Hlo : 0 ≤ Qfloor (random i * 25)).
  { assert (H : (0 <= random i * 25)%Q) by lra.
    apply Qfloor_resp_le in H. exact H. }
  assert (Hhi : Qfloor (random i * 25) < 25).
  { rewrite Zlt_Qlt. eapply Qle_lt_trans; [apply Qfloor_le|].
    change (inject_Z 25) with 25%Q. lra. }
  destruct (index Subtitle.SCRAMBLE_CHARS (Qfloor (random i * 25)))
    as [ch|] eqn:Hidx.
  - exists ch. split; [done|]. apply index_Some in Hidx as [_ Hl].
    eapply list_elem_of_lookup_2, Hl.
  - exfalso. unfold index in Hidx.
    destruct (Z.ltb_spec (Qfloor (random i * 25)) 0); [lia|].
    apply lookup_ge_None in Hidx.
    change (length Subtitle.SCRAMBLE_CHARS) with 25%nat in Hidx. lia.
Qed.

Lemma space_not_symbol : " "%char ∉ Subtitle.SCRAMBLE_CHARS.
Proof.
  intros H. apply (bool_decide_pack _) in H. vm_compute in H. done.
Qed.

Lemma scrambled_symbols n :
  ∀ i, length (Subtitle.scrambled random n i) = n ∧
       Forall (λ ch, ch ∈ Subtitle.SCRAMBLE_CHARS)
         (Subtitle.scrambled random n i).
Proof.
  induction n as [|n IH]; intros i; cbn [Subtitle.scrambled]; [done|].
  destruct (randChar_symbol i) as (ch & -> & Hch).
  destruct (IH (S i)) as [Hlen Hall]. cbn [app length].
  split; [by rewrite Hlen|by constructor].
Qed.

(** The text built by the loop of the decode interval. *)
Lemma decoded_shows target :
  ∀ pos resolved i,
    length (Subtitle.decoded random target pos resolved i).1 = length target ∧
    ∀ j ch, target !! j = Some ch →
      Subtitle.shows (resolved - pos)
        (Subtitle.decoded random target pos resolved i).1 j ch.
Proof.
  induction target as [|c target IH]; intros pos resolved i.
  { split; [done|]. intros j ch Hj. by rewrite lookup_nil in Hj. }
  cbn [Subtitle.decoded].
  assert (Htail : ∀ i' x j ch,
            target !! j = Some ch →
            Subtitle.shows (resolved - pos)
              (x :: (Subtitle.decoded random target (pos + 1) resolved i').1)
              (S j) ch).
  { intros i' x j ch Hj. destruct (IH (pos + 1) resolved i') as [_ Hs].
    destruct (Hs j ch Hj) as (ch' & Hl & Hres & Hsym & Hsp).
    exists ch'. split_and!; [done| | |done].
    - intros [Hlt|Heq]; apply Hres; [|by right]. left. lia.
    - intros Hk. apply Hsym. lia. }
  destruct (Z.ltb_spec pos resolved) as [Hlt|Hge].
  - destruct (Subtitle.decoded random target (pos + 1) resolved i)
      as [s i'] eqn:Hd. cbn [fst length].
    destruct (IH (pos + 1) resolved i) as [Hlen _]. rewrite Hd in Hlen.
    split; [by rewrite <- Hlen|].
    intros [|j] ch Hj.
    + injection Hj as ->. exists ch. split_and!; [done|done| |done].
      intros Hk. cbn in Hk. lia.
    + specialize (Htail i c j ch Hj). by rewrite Hd in Htail.
  - case_decide as Hsp.
    + destruct (Subtitle.decoded random target (pos + 1) resolved i)
        as [s i'] eqn:Hd. cbn [fst length].
      destruct (IH (pos + 1) resolved i) as [Hlen _]. rewrite Hd in Hlen.
      split; [by rewrite <- Hlen|].
      intros [|j] ch Hj.
      * injection Hj as <-. exists " "%char. subst c.
        split_and!; [done|done| |done]. intros _ Hne. done.
      * specialize (Htail i " "%char j ch Hj). by rewrite Hd in Htail.
    + destruct (Subtitle.decoded random target (pos + 1) resolved (S i))
        as [s i'] eqn:Hd. cbn [fst].
      destruct (randChar_symbol i) as (x & -> & Hx). cbn [app length].
      destruct (IH (pos + 1) resolved (S i)) as [Hlen _]. rewrite Hd in Hlen.
      split; [by rewrite <- Hlen|].
      intros [|j] ch Hj.
      * injection Hj as <-. exists x. split_and!; [done| |done|].
        -- intros [Hk|?]; [cbn in Hk; lia|done].
        -- intros ->. by destruct space_not_symbol.
      * specialize (Htail (S i) x j ch Hj). by rewrite Hd in Htail.
Qed.

End SubtitleFrames.

(** X25. The frames of the scramble phase.  After the pause, each of the
    twelve callbacks of the scramble interval shows a text of random
    characters of [SCRAMBLE_CHARS], as long as the longer of the text shown
    before and the next phrase. *)
Theorem subtitle_scramble_frames random s k :
  unit_interval random →
  Subtitle.timer s = Subtitle.Pause → 0 ≤ Subtitle.currentIndex s < 3 →
  (k < 12)%nat →
  ∃ s', Subtitle.fires random (2 + k) s = Some s' ∧
        length (Subtitle.textContent s') =
          max (length (Subtitle.textContent s))
              (length (Subtitle.nextPhrase (Subtitle.currentIndex s))) ∧
        Forall (λ ch, ch ∈ Subtitle.SCRAMBLE_CHARS) (Subtitle.textContent s').
Proof.
  intros Hu Ht Hi Hk.
  set (target := Subtitle.nextPhrase (Subtitle.currentIndex s)).
  change (2 + k)%nat with (S (S k)).
  rewrite (fires_S random), (pause_over random s Ht Hi). fold target.
  cbn [mbind option_bind].
  set (s1 := Subtitle.mkBanner _ _ _ _ _).
  destruct (scramble_frames random target
              (Z.max (Z.of_nat (length (Subtitle.textContent s)))
                     (Z.of_nat (length target))) k s1 0 eq_refl)
    as (s' & i & Hrun & _ & Htext & _);
    [unfold Subtitle.SCRAMBLE_MS; lia|].
  exists s'. split; [exact Hrun|]. rewrite Htext.
  destruct (scrambled_symbols random Hu
              (Z.to_nat (Z.max (Z.of_nat (length (Subtitle.textContent s)))
                               (Z.of_nat (length target)))) i) as [-> Hall].
  split; [lia|done].
Qed.

(** The fifth scramble frame of the first rotation. *)
Lemma subtitle_scramble_frames_witness :
  let s := Subtitle.start (list_ascii_of_string "a lifetime learner") in
  ∃ s', Subtitle.fires thirds (2 + 4) s = Some s' ∧
        length (Subtitle.textContent s') =
          max (length (Subtitle.textContent s))
              (length (Subtitle.nextPhrase (Subtitle.currentIndex s))) ∧
        Forall (λ ch, ch ∈ Subtitle.SCRAMBLE_CHARS) (Subtitle.textContent s').
Proof.
  apply (subtitle_scramble_frames thirds
           (Subtitle.start (list_ascii_of_string "a lifetime learner")) 4).
  - apply thirds_unit.
  - reflexivity.
  - done.
  - lia.
Defined.

(** X26. The frames of the decode phase.  The callback of the decode
    interval that runs with [k] characters resolved shows a text as long as
    the next phrase, whose first [k] characters are those of the phrase;
    every space of the phrase is shown as a space from the first frame on,
    and no other character is ever shown as a space, so the words keep
    their outline; any other character not yet resolved is shown as a
    character of [SCRAMBLE_CHARS]. *)
Theorem subtitle_decode_frames random s k :
  unit_interval random →
  Subtitle.timer s = Subtitle.Pause → 0 ≤ Subtitle.currentIndex s < 3 →
  let target := Subtitle.nextPhrase (Subtitle.currentIndex s) in
  (k ≤ length target)%nat →
  ∃ s', Subtitle.fires random (14 + k) s = Some s' ∧
        length (Subtitle.textContent s') = length target ∧
        ∀ j ch, target !! j = Some ch →
          Subtitle.shows (Z.of_nat k) (Subtitle.textContent s') j ch.
Proof.
  intros Hu Ht Hi target Hk.
  destruct (pause_to_decode random s Ht Hi) as (s1 & Hrun1 & _ & _ & Ht1).
  fold target in Ht1.
  destruct (decode_run random target k s1 0 Ht1 ltac:(lia)) as
    (s2 & Hrun2 & _ & _ & Ht2).
  destruct (decode_tick random s2 target _ Ht2) as
    (s' & Hfire & _ & _ & Hlast & Hnext).
  exists s'. split.
  { replace (14 + k)%nat with (13 + (k + 1))%nat by lia.
    rewrite (fires_add random), Hrun1. cbn [mbind option_bind].
    rewrite (fires_add random), Hrun2. cbn [mbind option_bind].
    rewrite (fires_S random), Hfire. done. }
  destruct (decide (k = length target)) as [->|Hne].
  - destruct Hlast as [-> _]; [lia|]. split; [done|].
    intros j ch Hj. exists ch. split_and!; [done|done| |done].
    intros Hge. apply lookup_lt_Some in Hj. lia.
  - destruct Hnext as [-> _]; [lia|].
    destruct (decoded_shows random Hu target 0 (0 + Z.of_nat k)
                (Subtitle.calls s2)) as [Hlen Hshow].
    split; [done|]. intros j ch Hj.
    specialize (Hshow j ch Hj).
    by replace (0 + Z.of_nat k - 0) with (Z.of_nat k) in Hshow by lia.
Qed.

(** The decode frame of the first rotation with five characters resolved. *)
Lemma subtitle_decode_frames_witness :
  let s := Subtitle.start (list_ascii_of_string "a lifetime learner") in
  let target := Subtitle.nextPhrase (Subtitle.currentIndex s) in
  ∃ s', Subtitle.fires thirds (14 + 5) s = Some s' ∧
        length (Subtitle.textContent s') = length target ∧
        ∀ j ch, target !! j = Some ch →
          Subtitle.shows (Z.of_nat 5) (Subtitle.textContent s') j ch.
Proof.
  apply (subtitle_decode_frames thirds
           (Subtitle.start (list_ascii_of_string "a lifetime learner")) 5).
  - apply thirds_unit.
  - reflexivity.
  - done.
  - vm_compute. lia.
Defined.

(** ** The banner never throws *)

Lemma steady_fire random s :
  Subtitle.steady s →
  ∃ s', Subtitle.fire random s = Some s' ∧ Subtitle.steady s'.
Proof.
  intros [Hi Hs]. destruct (Subtitle.timer s) as [|target maxLen c|target r]
    eqn:Ht.
  - rewrite (pause_over random s Ht Hi). eexists. split; [done|].
    destruct (next_phrase (Subtitle.currentIndex s) Hi) as (Hr & Hm & Hp & _).
    split; cbn [Subtitle.currentIndex Subtitle.timer].
    + by rewrite <- Hm.
    + rewrite <- Hm. split_and!; try done. lia.
  - destruct Hs as (Hp & Hc & Hlen).
    rewrite (scramble_tick random s target maxLen c Ht).
    eexists. split; [done|].
    split; cbn [Subtitle.currentIndex Subtitle.timer]; [done|].
    case_bool_decide; split_and!; try done; lia.
  - destruct Hs as (Hp & Hr).
    destruct (decode_tick random s target r Ht) as
      (s' & Hfire & Hidx & _ & Hlast & Hnext).
    exists s'. split; [done|]. split; [by rewrite Hidx|].
    destruct (decide (Z.of_nat (length target) < r + 1)) as [Hd|Hd].
    + destruct (Hlast Hd) as [_ ->]. done.
    + destruct Hnext as [_ ->]; [lia|]. rewrite Hidx. split; [done|lia].
Qed.

(** X27. The rotation never throws, however long the page stays open: after
    any number of timer callbacks [currentIndex] is the index of one of the
    three phrases, so [phrases[currentIndex]] is never [undefined]; the
    interval that is running works on the phrase at that index; the
    scramble count stays below [SCRAMBLE_MS]; and [resolved] never passes
    the length of the phrase. *)
Theorem subtitle_never_throws random n text :
  ∃ s, Subtitle.fires random n (Subtitle.start text) = Some s ∧
       Subtitle.steady s.
Proof.
  assert (Hgen : ∀ s, Subtitle.steady s →
            ∃ s', Subtitle.fires random n s = Some s' ∧ Subtitle.steady s').
  { induction n as [|n IH]; intros s Hs; [by exists s|].
    destruct (steady_fire random s Hs) as (s1 & Hfire & Hs1).
    destruct (IH s1 Hs1) as (s' & Hrun & Hs').
    exists s'. rewrite (fires_S random), Hfire. done. }
  apply Hgen. split; [done|]. done.
Qed.

(** * Properties of the debounced rebuild *)

Lemma resizes_snoc es e :
  Debounce.resizes (es ++ [e]) =
  (Debounce.resizes es +
   match e with Debounce.ResizeAt _ => 1 | Debounce.TimeoutFires _ => 0 end)%nat.
Proof.
  induction es as [|e' es IH]; [by destruct e|].
  cbn [app Debounce.resizes]. rewrite IH. by destruct e'.
Qed.

(** The timeouts that are pending are at most one, the one that
    [resizeTimer] names. *)
Lemma clear_named (s : Debounce.Timers) :
  (∀ id due, (id, due) ∈ Debounce.pending s →
     Debounce.resizeTimer s = Some id) →
  Debounce.clearTimeout (Debounce.resizeTimer s) (Debounce.pending s) = [].
Proof.
  intros Hnamed. unfold Debounce.clearTimeout.
  destruct (Debounce.resizeTimer s) as [i|] eqn:Hi.
  - apply filter_none, Forall_forall. intros [id due] Hin. cbn [fst].
    specialize (Hnamed id due Hin). intros Hne. congruence.
  - destruct (Debounce.pending s) as [|[id due] l]; [done|].
    specialize (Hnamed id due ltac:(by left)). done.
Qed.

(** X28. The rebuild is debounced: whatever [resize] events and timeouts
    follow one another, at most one timeout is pending, the one
    [resizeTimer] names, every earlier one having been cleared by the
    listener; and [buildGrid] has run at most once per [resize] event, the
    pending rebuild included. *)
Theorem resize_debounced es :
  let s := Debounce.resizing es in
  (length (Debounce.pending s) ≤ 1)%nat ∧
  (∀ id due, (id, due) ∈ Debounce.pending s →
     Debounce.resizeTimer s = Some id) ∧
  (length (Debounce.pending s) + length (Debounce.rebuilt s)
   ≤ Debounce.resizes es)%nat.
Proof.
  cbv zeta. unfold Debounce.resizing.
  induction es as [|e es IH] using rev_ind.
  { cbn. split_and!; try lia. intros id due H. by apply elem_of_nil in H. }
  rewrite foldl_snoc, resizes_snoc.
  set (s := foldl Debounce.windowStep Debounce.idle es) in *.
  destruct IH as (Hlen & Hnamed & Hcount).
  destruct e as [now|id]; cbn [Debounce.windowStep].
  - unfold Debounce.onResize. cbv zeta. rewrite (clear_named s Hnamed).
    cbn [app Debounce.pending Debounce.resizeTimer Debounce.rebuilt length].
    split_and!; [lia| |].
    + intros id due [= -> _]%list_elem_of_singleton. done.
    + destruct (Debounce.pending s) as [|p [|q l]]; cbn [length] in *; lia.
  - unfold Debounce.onTimeout.
    destruct (list_find _ _) as [[i [id' due]]|] eqn:Hfind.
    + apply list_find_Some in Hfind as (Hi & Hid & _). cbn [fst] in Hid.
      subst id'.
      cbn [Debounce.pending Debounce.resizeTimer Debounce.rebuilt].
      destruct (Debounce.pending s) as [|p [|q l]] eqn:Hp;
        [done| |cbn [length] in Hlen; lia].
      destruct i as [|i]; [|done]. injection Hi as ->.
      rewrite (filter_singleton_False _ (id, due) []) by (intros H; by apply H).
      rewrite length_app. cbn [length] in *.
      split_and!; [lia| |lia].
      intros id' due' H. by apply elem_of_nil in H.
    + split_and!; [done|done|lia].
Qed.

(** The state of the timers after a burst of [resize] events. *)
Lemma burst_state ts :
  let s := Debounce.resizing (Debounce.ResizeAt <$> ts) in
  Debounce.nextId s = length ts ∧ Debounce.rebuilt s = [] ∧
  (∀ id due, (id, due) ∈ Debounce.pending s →
     Debounce.resizeTimer s = Some id).
Proof.
  cbv zeta. unfold Debounce.resizing.
  induction ts as [|t ts IH] using rev_ind.
  { split_and!; try done. intros id due H. by apply elem_of_nil in H. }
  rewrite fmap_app, length_app. cbn [fmap list_fmap]. rewrite foldl_snoc.
  set (s := foldl Debounce.windowStep Debounce.idle (Debounce.ResizeAt <$> ts))
    in *.
  destruct IH as (Hid & Hre & Hnamed).
  cbn [Debounce.windowStep]. unfold Debounce.onResize. cbv zeta.
  rewrite (clear_named s Hnamed).
  cbn [app Debounce.pending Debounce.resizeTimer Debounce.rebuilt
       Debounce.nextId length].
  split_and!; [lia|done|].
  intros id due [= -> _]%list_elem_of_singleton. done.
Qed.

(** X29. A burst of [resize] events rebuilds the grid once: after the
    events, however many and however close, one timeout is pending, due 150
    ms after the last of them, and [buildGrid] has not run; when that
    timeout fires [buildGrid] runs, and nothing is left pending. *)
Theorem resize_burst ts t :
  let s := Debounce.resizing (Debounce.ResizeAt <$> (ts ++ [t])) in
  Debounce.pending s = [(length ts, (t + 150)%Q)] ∧
  Debounce.rebuilt s = [] ∧
  Debounce.rebuilt (Debounce.onTimeout (length ts) s) = [(t + 150)%Q] ∧
  Debounce.pending (Debounce.onTimeout (length ts) s) = [].
Proof.
  cbv zeta. destruct (burst_state ts) as (Hid & Hre & Hnamed).
  cbv zeta in Hid, Hre, Hnamed.
  unfold Debounce.resizing in *.
  rewrite fmap_app. cbn [fmap list_fmap]. rewrite foldl_snoc.
  set (s := foldl Debounce.windowStep Debounce.idle (Debounce.ResizeAt <$> ts))
    in *.
  cbn [Debounce.windowStep]. unfold Debounce.onResize. cbv zeta.
  rewrite (clear_named s Hnamed), Hid, Hre. cbn [app].
  unfold Debounce.onTimeout.
  cbn [Debounce.pending Debounce.rebuilt Debounce.resizeTimer
       Debounce.nextId].
  cbn [list_find fmap option_fmap option_map fst prod_map].
  rewrite decide_True by done. cbn [fmap option_fmap option_map].
  cbn [Debounce.pending Debounce.rebuilt app].
  rewrite (filter_singleton_False _ (length ts, (t + 150)%Q) [])
    by (intros H; by apply H).
  done.
Qed.
